(** * software-version-api: the version-extraction plugins of
    [version_rss_api.py], embedded as Rocq functions.

    Python [str] values are lists of characters; the characters are the code
    points below 256.  Exceptions are an explicit result type.  The two
    library entry points the plugins rely on, [re.match] and
    [packaging.version.parse], are embedded as a backtracking matcher and
    as the PEP 440 pattern run by that matcher ([packaging] 22 and later,
    where a string that is no version raises [InvalidVersion]). *)

From Stdlib Require Import Ascii String.
From Stdlib Require Import List Bool Arith NArith Lia Permutation.
From Stdlib Require DecimalString DecimalN Decimal.
Import ListNotations.

Local Open Scope list_scope.

(** ** Python strings *)

Definition str := list ascii.

(** A literal of the source, as a [str]. *)
Definition py (s : string) : str := list_ascii_of_string s.

Arguments py s%_string.

Definition code (c : ascii) : N := N_of_ascii c.

Definition in_range (lo hi : N) (c : ascii) : bool :=
  (lo <=? code c)%N && (code c <=? hi)%N.

Definition str_eqb (a b : str) : bool :=
  if list_eq_dec ascii_dec a b then true else false.

(** [\d] and [[0-9]]: below 256 the only decimal digits are 0-9. *)
Definition is_digit (c : ascii) : bool := in_range 48 57 c.

(** [\s]: the white space of [str] below 256. *)
Definition is_space (c : ascii) : bool :=
  in_range 9 13 c || in_range 28 32 c
  || (code c =? 133)%N || (code c =? 160)%N.

Definition is_upper (c : ascii) : bool :=
  in_range 65 90 c || (in_range 192 222 c && negb (code c =? 215)%N).

(** [str.lower] on one character. *)
Definition lower_char (c : ascii) : ascii :=
  if is_upper c then ascii_of_N (code c + 32) else c.

(** [s.lower()] *)
Definition lower (s : str) : str := map lower_char s.

(** [s.startswith(p)] *)
Fixpoint startswith (p s : str) : bool :=
  match p, s with
  | [], _ => true
  | _ :: _, [] => false
  | a :: p', b :: s' => Ascii.eqb a b && startswith p' s'
  end.

(** [sub in s] *)
Fixpoint contains (sub s : str) : bool :=
  startswith sub s ||
  match s with
  | [] => false
  | _ :: s' => contains sub s'
  end.

Fixpoint lstrip (p : ascii -> bool) (s : str) : str :=
  match s with
  | [] => []
  | c :: s' => if p c then lstrip p s' else s
  end.

Definition rstrip (p : ascii -> bool) (s : str) : str :=
  rev (lstrip p (rev s)).

(** [s.strip(chars)]: every leading and every trailing character that
    occurs in [chars] is removed. *)
Definition strip (chars : str) (s : str) : str :=
  let p c := existsb (Ascii.eqb c) chars in
  rstrip p (lstrip p s).

(** Splitting at every character that satisfies [p]:
    [s.split(c)] for a one-character separator,
    [re.split] for a one-character class. *)
Fixpoint split_on (p : ascii -> bool) (s : str) : list str :=
  match s with
  | [] => [[]]
  | c :: s' =>
      if p c then [] :: split_on p s'
      else match split_on p s' with
           | h :: t => (c :: h) :: t
           | [] => [[c]]
           end
  end.

Definition split (sep : ascii) (s : str) : list str :=
  split_on (Ascii.eqb sep) s.

(** [sep.join(parts)] *)
Fixpoint join (sep : str) (parts : list str) : str :=
  match parts with
  | [] => []
  | [p] => p
  | p :: rest => p ++ sep ++ join sep rest
  end.

(** [s.isdigit()] on strings of [[a-z0-9]], the only use. *)
Definition isdigit (s : str) : bool :=
  match s with
  | [] => false
  | _ => forallb is_digit s
  end.

(** [int(s)] on a string of decimal digits and [str(n)] on a natural
    number, without a limit on the number of digits. *)
Definition int (s : str) : N :=
  match DecimalString.NilEmpty.uint_of_string (string_of_list_ascii s) with
  | Some d => N.of_uint d
  | None => 0%N
  end.

Definition str_of_int (n : N) : str :=
  list_ascii_of_string (DecimalString.NilEmpty.string_of_uint (N.to_uint n)).

(** ** Exceptions *)

Inductive exn : Type :=
| HTTPError          (* requests: raise_for_status *)
| JSONDecodeError    (* response.json() *)
| FeedParseError     (* atoma.parse_atom_bytes *)
| IndexError
| AttributeError     (* .items() of a value that is no dict *)
| ConnectionError    (* requests: session.get *)
| InvalidVersion.    (* packaging.version.parse *)

Inductive result (A : Type) : Type :=
| Ok (a : A)
| Raise (e : exn).
Arguments Ok {A} a.
Arguments Raise {A} e.

Definition bind {A B : Type} (m : result A) (k : A -> result B) : result B :=
  match m with
  | Ok a => k a
  | Raise e => Raise e
  end.

Notation "x <- m ;; k" := (bind m (fun x => k))
  (at level 61, m at next level, right associativity).

(** ** Regular expressions, as [re] runs them

    A backtracking matcher.  [run r s] lists, in the order in which
    backtracking tries them, the ways [r] matches a prefix of [s]: the
    groups captured (the latest first) and the text left.  [re.match] is
    the first of them. *)

Inductive group : Type :=
| g_epoch | g_release | g_pre_l | g_pre_n | g_post_n1 | g_post_l
| g_post_n2 | g_dev_l | g_dev_n | g_local.

Definition group_eqb (a b : group) : bool :=
  match a, b with
  | g_epoch, g_epoch | g_release, g_release | g_pre_l, g_pre_l
  | g_pre_n, g_pre_n | g_post_n1, g_post_n1 | g_post_l, g_post_l
  | g_post_n2, g_post_n2 | g_dev_l, g_dev_l | g_dev_n, g_dev_n
  | g_local, g_local => true
  | _, _ => false
  end.

Inductive regex : Type :=
| Eps
| Class (p : ascii -> bool)
| Seq (r1 r2 : regex)
| Alt (r1 r2 : regex)
| Opt (r : regex)                 (* r?  greedy *)
| Star (r : regex)                (* r*  greedy *)
| Group (g : group) (r : regex)   (* (?P<g>r) *)
| Eos.                            (* $ *)

Definition captures := list (group * str).

Definition seq_caps (k : str -> list (captures * str))
    (m : captures * str) : list (captures * str) :=
  map (fun m2 => (fst m2 ++ fst m, snd m2)) (k (snd m)).

(** The iterations of [r*] on [s], longest first; an iteration that
    consumes nothing ends the loop. *)
Fixpoint star (step : str -> list (captures * str)) (fuel : nat) (s : str)
  : list (captures * str) :=
  match fuel with
  | O => [([], s)]
  | S fuel' =>
      flat_map (fun m =>
                  if length (snd m) <? length s
                  then seq_caps (star step fuel') m
                  else [])
               (step s)
      ++ [([], s)]
  end.

Fixpoint run (r : regex) (s : str) : list (captures * str) :=
  match r with
  | Eps => [([], s)]
  | Class p =>
      match s with
      | c :: s' => if p c then [([], s')] else []
      | [] => []
      end
  | Seq r1 r2 => flat_map (seq_caps (run r2)) (run r1 s)
  | Alt r1 r2 => run r1 s ++ run r2 s
  | Opt r1 => run r1 s ++ [([], s)]
  | Star r1 => star (run r1) (length s) s
  | Group g r1 =>
      map (fun m => ((g, firstn (length s - length (snd m)) s) :: fst m,
                     snd m))
          (run r1 s)
  | Eos =>
      (* the end of the string, or just before a final newline *)
      match s with
      | [] => [([], s)]
      | c :: s' =>
          if Ascii.eqb c "010"%char
          then match s' with [] => [([], s)] | _ :: _ => [] end
          else []
      end
  end.

(** [pattern.match(s)]: the match object, if any. *)
Definition re_match (r : regex) (s : str) : option (captures * str) :=
  hd_error (run r s).

(** [m.group(g)]: [None] when the group took no part in the match. *)
Fixpoint group_of (g : group) (m : captures) : option str :=
  match m with
  | [] => None
  | (g', t) :: m' => if group_eqb g g' then Some t else group_of g m'
  end.

(** Derived forms. *)
Definition Plus (r : regex) : regex := Seq r (Star r).

Definition Chr (c : ascii) : regex := Class (Ascii.eqb c).
Arguments Chr c%_char.

(** A literal character under [re.IGNORECASE]. *)
Definition ChrI (c : ascii) : regex :=
  Class (fun x => Ascii.eqb (lower_char x) c).

Fixpoint LitI (s : str) : regex :=
  match s with
  | [] => Eps
  | [c] => ChrI c
  | c :: s' => Seq (ChrI c) (LitI s')
  end.

(** [r{lo,lo+more}], greedy. *)
Fixpoint at_most (more : nat) (r : regex) : regex :=
  match more with
  | O => Eps
  | S n => Opt (Seq r (at_most n r))
  end.

Fixpoint Repeat (lo more : nat) (r : regex) : regex :=
  match lo with
  | O => at_most more r
  | S n => Seq r (Repeat n more r)
  end.

(** [VersionPlugin.__init__]:
    [self.semver_regex = re.compile(r'\d{1,4}\.\d{1,4}\.\d{1,4}')] *)
Definition semver_regex : regex :=
  Seq (Repeat 1 3 (Class is_digit))
      (Seq (Chr ".")
           (Seq (Repeat 1 3 (Class is_digit))
                (Seq (Chr ".")
                     (Repeat 1 3 (Class is_digit))))).

(** ** [packaging.version]

    [parse] is [Version(version)]: the release without a [LegacyVersion]
    fallback, where a string outside PEP 440 raises [InvalidVersion]. *)

Definition is_sep (c : ascii) : bool :=          (* [-_\.] *)
  Ascii.eqb c "-" || Ascii.eqb c "_" || Ascii.eqb c ".".

Definition is_alnum (c : ascii) : bool :=        (* [a-z0-9], IGNORECASE *)
  in_range 97 122 (lower_char c) || is_digit c.

Definition digits : regex := Plus (Class is_digit).

Definition letter_number (g_l : group) (letters : regex) (g_n : group)
  : regex :=
  Seq (Opt (Class is_sep))
      (Seq (Group g_l letters)
           (Seq (Opt (Class is_sep))
                (Opt (Group g_n digits)))).

(** The pieces of [VERSION_PATTERN].  The enclosing groups [pre], [post]
    and [dev] are never read and are left out as groups. *)
Definition epoch_re : regex :=
  Opt (Seq (Group g_epoch digits) (Chr "!")).

Definition release_re : regex :=
  Group g_release (Seq digits (Star (Seq (Chr ".") digits))).

Definition pre_letters : regex :=
  Alt (LitI (py "alpha")) (Alt (LitI (py "a"))
 (Alt (LitI (py "beta")) (Alt (LitI (py "b"))
 (Alt (LitI (py "preview")) (Alt (LitI (py "pre"))
 (Alt (LitI (py "c")) (LitI (py "rc")))))))).

Definition pre_re : regex :=
  Opt (letter_number g_pre_l pre_letters g_pre_n).

Definition post_letters : regex :=
  Alt (LitI (py "post")) (Alt (LitI (py "rev")) (LitI (py "r"))).

Definition post_re : regex :=
  Opt (Alt (Seq (Chr "-") (Group g_post_n1 digits))
           (letter_number g_post_l post_letters g_post_n2)).

Definition dev_re : regex :=
  Opt (letter_number g_dev_l (LitI (py "dev")) g_dev_n).

Definition local_re : regex :=
  Opt (Seq (Chr "+")
           (Group g_local
              (Seq (Plus (Class is_alnum))
                   (Star (Seq (Class is_sep) (Plus (Class is_alnum))))))).

Definition VERSION_PATTERN : regex :=
  Seq (Opt (ChrI "v"))
 (Seq epoch_re
 (Seq release_re
 (Seq pre_re
 (Seq post_re
 (Seq dev_re local_re))))).

(** [Version._regex]: [^\s*] VERSION_PATTERN [\s*$]. *)
Definition Version_regex : regex :=
  Seq (Star (Class is_space))
      (Seq VERSION_PATTERN (Seq (Star (Class is_space)) Eos)).

Inductive local_part : Type :=
| LInt (n : N)
| LStr (s : str).

(** [_Version] *)
Record Version : Type := mkVersion {
  epoch : N;
  release : list N;
  pre : option (str * N);
  post : option (str * N);
  dev : option (str * N);
  local : option (list local_part)
}.

(** Python truth of an optional string. *)
Definition truthy (o : option str) : bool :=
  match o with
  | Some (_ :: _) => true
  | _ => false
  end.

(** The alternate spellings that [_parse_letter_version] normalizes. *)
Definition normalize_letter (letter : str) : str :=
  if str_eqb letter (py "alpha") then py "a"
  else if str_eqb letter (py "beta") then py "b"
  else if existsb (str_eqb letter) [py "c"; py "pre"; py "preview"]
       then py "rc"
  else if existsb (str_eqb letter) [py "rev"; py "r"] then py "post"
  else letter.

Definition _parse_letter_version (letter number : option str)
  : option (str * N) :=
  if truthy letter then
    let number := match number with Some n => int n | None => 0%N end in
    let letter :=
      normalize_letter
        (lower (match letter with Some l => l | None => [] end)) in
    Some (letter, number)
  else if truthy number then
    Some (py "post", int (match number with Some n => n | None => [] end))
  else None.

Definition _parse_local_version (local : option str)
  : option (list local_part) :=
  match local with
  | Some l =>
      Some (map (fun part => if negb (isdigit part) then LStr (lower part)
                             else LInt (int part))
                (split_on is_sep l))
  | None => None
  end.

(** [a or b] on optional strings. *)
Definition or_else (a b : option str) : option str :=
  if truthy a then a else b.

(** The [_Version] that [Version.__init__] builds from the match. *)
Definition Version_of_match (m : captures) : Version :=
  {| epoch := if truthy (group_of g_epoch m)
              then match group_of g_epoch m with
                   | Some e => int e
                   | None => 0%N
                   end
              else 0%N;
     release := match group_of g_release m with
                | Some r => map int (split "." r)
                | None => []
                end;
     pre := _parse_letter_version (group_of g_pre_l m) (group_of g_pre_n m);
     post := _parse_letter_version
               (group_of g_post_l m)
               (or_else (group_of g_post_n1 m) (group_of g_post_n2 m));
     dev := _parse_letter_version (group_of g_dev_l m) (group_of g_dev_n m);
     local := _parse_local_version (group_of g_local m) |}.

(** [Version.__init__] *)
Definition Version_init (version : str) : result Version :=
  match re_match Version_regex version with
  | None => Raise InvalidVersion
  | Some (m, _) => Ok (Version_of_match m)
  end.

Definition parse (version : str) : result Version := Version_init version.

(** *** Comparison keys *)

Inductive ext (A : Type) : Type :=
| NegativeInfinity
| Fin (a : A)
| Infinity.
Arguments NegativeInfinity {A}.
Arguments Fin {A} a.
Arguments Infinity {A}.

Definition lex (c1 c2 : comparison) : comparison :=
  match c1 with
  | Eq => c2
  | _ => c1
  end.

Definition ext_compare {A : Type} (cmp : A -> A -> comparison)
    (x y : ext A) : comparison :=
  match x, y with
  | NegativeInfinity, NegativeInfinity => Eq
  | NegativeInfinity, _ => Lt
  | _, NegativeInfinity => Gt
  | Fin a, Fin b => cmp a b
  | Fin _, Infinity => Lt
  | Infinity, Fin _ => Gt
  | Infinity, Infinity => Eq
  end.

(** Sequences (tuples, strings) compare by their first difference; a
    proper prefix is smaller. *)
Fixpoint list_compare {A : Type} (cmp : A -> A -> comparison)
    (x y : list A) : comparison :=
  match x, y with
  | [], [] => Eq
  | [], _ :: _ => Lt
  | _ :: _, [] => Gt
  | a :: x', b :: y' => lex (cmp a b) (list_compare cmp x' y')
  end.

Definition pair_compare {A B : Type} (cmpA : A -> A -> comparison)
    (cmpB : B -> B -> comparison) (x y : A * B) : comparison :=
  lex (cmpA (fst x) (fst y)) (cmpB (snd x) (snd y)).

Definition char_compare (a b : ascii) : comparison :=
  N.compare (code a) (code b).

Definition str_compare : str -> str -> comparison :=
  list_compare char_compare.

Definition letter_compare : str * N -> str * N -> comparison :=
  pair_compare str_compare N.compare.

Record cmpkey : Type := mkKey {
  k_epoch : N;
  k_release : list N;
  k_pre : ext (str * N);
  k_post : ext (str * N);
  k_dev : ext (str * N);
  k_local : ext (list (ext N * str))
}.

(** The release with its trailing zeros removed. *)
Definition strip_trailing_zeros (release : list N) : list N :=
  rev ((fix dropwhile (l : list N) : list N :=
          match l with
          | [] => []
          | x :: l' => if (x =? 0)%N then dropwhile l' else l
          end) (rev release)).

(** [_cmpkey] *)
Definition _cmpkey (v : Version) : cmpkey :=
  {| k_epoch := epoch v;
     k_release := strip_trailing_zeros (release v);
     k_pre := match pre v, post v, dev v with
              | None, None, Some _ => NegativeInfinity
              | None, _, _ => Infinity
              | Some p, _, _ => Fin p
              end;
     k_post := match post v with
               | None => NegativeInfinity
               | Some p => Fin p
               end;
     k_dev := match dev v with
              | None => Infinity
              | Some d => Fin d
              end;
     k_local := match local v with
                | None => NegativeInfinity
                | Some l =>
                    Fin (map (fun i => match i with
                                       | LInt n => (Fin n, [])
                                       | LStr s => (NegativeInfinity, s)
                                       end) l)
                end |}.

Definition key_compare (a b : cmpkey) : comparison :=
  lex (N.compare (k_epoch a) (k_epoch b))
 (lex (list_compare N.compare (k_release a) (k_release b))
 (lex (ext_compare letter_compare (k_pre a) (k_pre b))
 (lex (ext_compare letter_compare (k_post a) (k_post b))
 (lex (ext_compare letter_compare (k_dev a) (k_dev b))
      (ext_compare (list_compare (pair_compare (ext_compare N.compare)
                                               str_compare))
                   (k_local a) (k_local b)))))).

Definition Version_compare (a b : Version) : comparison :=
  key_compare (_cmpkey a) (_cmpkey b).

(** [a > b], [a == b] *)
Definition Version_gt (a b : Version) : bool :=
  match Version_compare a b with Gt => true | _ => false end.

Definition Version_eq (a b : Version) : bool :=
  match Version_compare a b with Eq => true | _ => false end.

(** [Version.__str__], piece by piece. *)
Definition show_part (i : local_part) : str :=
  match i with
  | LInt n => str_of_int n
  | LStr s => s
  end.

Definition print_epoch (e : N) : str :=
  if (e =? 0)%N then [] else str_of_int e ++ py "!".

Definition print_release (r : list N) : str :=
  join (py ".") (map str_of_int r).

Definition print_pre (p : option (str * N)) : str :=
  match p with
  | Some (l, n) => l ++ str_of_int n
  | None => []
  end.

Definition print_post (p : option (str * N)) : str :=
  match p with
  | Some (_, n) => py ".post" ++ str_of_int n
  | None => []
  end.

Definition print_dev (d : option (str * N)) : str :=
  match d with
  | Some (_, n) => py ".dev" ++ str_of_int n
  | None => []
  end.

Definition print_local (l : option (list local_part)) : str :=
  match l with
  | Some (p :: l') => py "+" ++ join (py ".") (map show_part (p :: l'))
  | _ => []
  end.

Definition Version_str (v : Version) : str :=
  print_epoch (epoch v) ++ print_release (release v) ++ print_pre (pre v)
  ++ print_post (post v) ++ print_dev (dev v) ++ print_local (local v).

(** [max(versions)] on a non-empty list: the first greatest element. *)
Definition max_version (first : Version) (rest : list Version) : Version :=
  fold_left (fun m x => if Version_gt x m then x else m) rest first.

(** ** The network, as the plugins see it *)

#[local] Set Warnings "-register-all".
Inductive json : Type :=
| JNull
| JBool (b : bool)
| JNumber (literal : str)
| JString (s : str)
| JArray (l : list json)
| JObject (items : list (str * json)).   (* a dict, in insertion order *)

(** An HTTP response: whether [raise_for_status] passes, what
    [response.json()] gives and what [atoma.parse_atom_bytes] makes of
    [response.content], the title of each entry of the feed. *)
Record Response : Type := mkResponse {
  status_ok : bool;
  json_body : result json;
  feed_entries : result (list str)
}.

(** [session.get]: the answer to each URL, or the exception raised. *)
Definition Network : Type := str -> result Response.

Definition raise_for_status (r : Response) : result unit :=
  if status_ok r then Ok tt else Raise HTTPError.

(** [d.items()] *)
Definition items (j : json) : result (list (str * json)) :=
  match j with
  | JObject d => Ok d
  | _ => Raise AttributeError
  end.

(** [status == 'latest'] *)
Definition is_latest (status : json) : bool :=
  match status with
  | JString s => str_eqb s (py "latest")
  | _ => false
  end.

(** ** The plugins *)

Record VersionPlugin : Type := mkPlugin {
  software_name : str;
  call : Network -> result (option str)
}.

(** [WordpressPlugin.__call__], the loop over the items. *)
Fixpoint latest_of (items : list (str * json)) : option str :=
  match items with
  | [] => None
  | (version, status) :: rest =>
      if is_latest status then Some version else latest_of rest
  end.

Definition stable_check_url : str :=
  py "https://api.wordpress.org/core/stable-check/1.0/".

Definition WordpressPlugin_call (net : Network) : result (option str) :=
  response <- net stable_check_url ;;
  _ <- raise_for_status response ;;
  j <- json_body response ;;
  d <- items j ;;
  Ok (latest_of d).

Definition WordpressPlugin : VersionPlugin :=
  {| software_name := py "wordpress"; call := WordpressPlugin_call |}.

(** The abstract members of [GithubReleases]. *)
Record GithubReleases : Type := mkGithubReleases {
  gh_software_name : str;
  user : str;
  repo : str;
  version_from_title : str -> result (option str)
}.

Definition VERSION_BLOCKLIST : list str := [py "beta"; py "rc"].

(** [any(block in title.lower() for block in self.VERSION_BLOCKLIST)] *)
Definition blocked (title : str) : bool :=
  existsb (fun block => contains block (lower title)) VERSION_BLOCKLIST.

(** The loop of [GithubReleases.__call__] over [feed.entries]; [versions]
    is the list being appended to. *)
Fixpoint collect (self : GithubReleases) (entries : list str)
    (versions : list Version) : result (list Version) :=
  match entries with
  | [] => Ok versions
  | title :: rest =>
      if blocked title then collect self rest versions
      else
        version <- version_from_title self title ;;
        if truthy version then
          v <- parse (match version with Some s => s | None => [] end) ;;
          collect self rest (versions ++ [v])
        else collect self rest versions
  end.

(** [str(max(versions)) if len(versions) > 0 else None] *)
Definition newest (versions : list Version) : option str :=
  match versions with
  | [] => None
  | v :: vs => Some (Version_str (max_version v vs))
  end.

Definition releases_url (self : GithubReleases) : str :=
  py "https://github.com/" ++ user self ++ py "/" ++ repo self
  ++ py "/releases.atom".

(** [GithubReleases.__call__] *)
Definition GithubReleases_call (self : GithubReleases) (net : Network)
  : result (option str) :=
  response <- net (releases_url self) ;;
  _ <- raise_for_status response ;;
  entries <- feed_entries response ;;
  versions <- collect self entries [] ;;
  Ok (newest versions).

Definition plugin_of (self : GithubReleases) : VersionPlugin :=
  {| software_name := gh_software_name self;
     call := GithubReleases_call self |}.

(** [GithubReleasesWithVPrefixAndSemVer.version_from_title] *)
Definition semver_version_from_title (title : str) : result (option str) :=
  let title := strip (py "v") title in
  match re_match semver_regex title with
  | Some _ => Ok (Some title)
  | None => Ok None
  end.

Definition GithubReleasesWithVPrefixAndSemVer (name user repo : str)
  : GithubReleases :=
  {| gh_software_name := name; user := user; repo := repo;
     version_from_title := semver_version_from_title |}.

Definition SignalCliPlugin : GithubReleases :=
  {| gh_software_name := py "signal-cli";
     user := py "AsamK"; repo := py "signal-cli";
     version_from_title := fun title =>
       if startswith (py "Version ") title then Ok (Some (skipn 8 title))
       else Ok None |}.

Definition NextCloudPlugin : GithubReleases :=
  GithubReleasesWithVPrefixAndSemVer (py "nextcloud") (py "nextcloud")
                                     (py "server").

Definition RoundcubePlugin : GithubReleases :=
  {| gh_software_name := py "roundcube";
     user := py "roundcube"; repo := py "roundcubemail";
     version_from_title := fun title =>
       if startswith (py "Roundcube Webmail ") title
       then Ok (Some (skipn 18 title))
       else Ok None |}.

Definition RainloopPlugin : GithubReleases :=
  GithubReleasesWithVPrefixAndSemVer (py "rainloop") (py "RainLoop")
                                     (py "rainloop-webmail").

Definition DolibarrPlugin : GithubReleases :=
  {| gh_software_name := py "dolibarr";
     user := py "Dolibarr"; repo := py "dolibarr";
     version_from_title := fun title => Ok (Some title) |}.

Definition HumhubPlugin : GithubReleases :=
  {| gh_software_name := py "humhub";
     user := py "humhub"; repo := py "humhub";
     version_from_title := fun title => Ok (Some title) |}.

Definition FroxlorPlugin : GithubReleases :=
  {| gh_software_name := py "froxlor";
     user := py "Froxlor"; repo := py "Froxlor";
     version_from_title := fun title =>
       if startswith (py "Froxlor ") title then
         match nth_error (split " " title) 1 with
         | Some token => Ok (Some token)
         | None => Raise IndexError
         end
       else Ok None |}.

Definition CyberchefPlugin : GithubReleases :=
  GithubReleasesWithVPrefixAndSemVer (py "cyberchef") (py "gchq")
                                     (py "CyberChef").

Definition ArangoDBPlugin : GithubReleases :=
  GithubReleasesWithVPrefixAndSemVer (py "arangodb") (py "arangodb")
                                     (py "ArangoDB").

(** ** [most_recent] *)

Definition dict (V : Type) : Type := list (str * V).

(** [d[k] = v]: a key already present keeps its place. *)
Fixpoint dict_set {V : Type} (d : dict V) (k : str) (v : V) : dict V :=
  match d with
  | [] => [(k, v)]
  | (k', v') :: d' =>
      if str_eqb k k' then (k, v) :: d' else (k', v') :: dict_set d' k v
  end.

Fixpoint dict_get {V : Type} (d : dict V) (k : str) : option V :=
  match d with
  | [] => None
  | (k', v) :: d' => if str_eqb k k' then Some v else dict_get d' k
  end.

(** [dict((p.software_name, p()) for p in plugins)]: the plugins are
    called in turn, the first exception ends the request. *)
Fixpoint aggregate (plugins : list VersionPlugin) (net : Network)
    (d : dict (option str)) : result (dict (option str)) :=
  match plugins with
  | [] => Ok d
  | p :: rest =>
      v <- call p net ;;
      aggregate rest net (dict_set d (software_name p) v)
  end.

Definition registry : list VersionPlugin :=
  [ WordpressPlugin;
    plugin_of SignalCliPlugin;
    plugin_of NextCloudPlugin;
    plugin_of RoundcubePlugin;
    plugin_of DolibarrPlugin;
    plugin_of HumhubPlugin;
    plugin_of FroxlorPlugin;
    plugin_of RainloopPlugin;
    plugin_of CyberchefPlugin;
    plugin_of ArangoDBPlugin ].

Definition most_recent (net : Network) : result (dict (option str)) :=
  aggregate registry net [].

(** ** Definitions used to state the properties *)

(** The feed a GitHub plugin is given: a successful response whose entries
    have the titles [titles]. *)
Definition feed_of (titles : list str) : Network :=
  fun _ => Ok {| status_ok := true;
                 json_body := Raise JSONDecodeError;
                 feed_entries := Ok titles |}.

(** The answer the Wordpress plugin is given: a successful response whose
    JSON body is the object [d]. *)
Definition stable_check_of (d : list (str * json)) : Network :=
  fun _ => Ok {| status_ok := true;
                 json_body := Ok (JObject d);
                 feed_entries := Raise FeedParseError |}.

Definition latest : json := JString (py "latest").

(** The text before the first space. *)
Fixpoint upto_space (s : str) : str :=
  match s with
  | [] => []
  | c :: s' => if Ascii.eqb " " c then [] else c :: upto_space s'
  end.

(** The prefix rule in the words of the specification: the first
    white-space-delimited token after the prefix. *)
Fixpoint first_token (s : str) : str :=
  match s with
  | [] => []
  | c :: s' => if is_space c then [] else c :: first_token s'
  end.

Definition spec_prefix_rule (prefix title : str) : option str :=
  if startswith prefix title
  then Some (first_token (lstrip is_space (skipn (length prefix) title)))
  else None.

(** [D{1,4}.D{1,4}.D{1,4}] at position 0, in the words of the
    specification. *)
Definition digit_group (g : str) : Prop :=
  1 <= length g <= 4 /\ forallb is_digit g = true.

Definition semver_at_start (t : str) : Prop :=
  exists a b c rest,
    t = a ++ py "." ++ b ++ py "." ++ c ++ rest /\
    digit_group a /\ digit_group b /\ digit_group c.

(** The v-prefix rule in the words of the specification: one optional
    leading [v] is dropped, and the matched text is the candidate. *)
Definition spec_semver_rule (title : str) : option str :=
  let title := match title with
               | c :: t => if Ascii.eqb c "v" then t else title
               | [] => title
               end in
  match re_match semver_regex title with
  | Some (_, rest) => Some (firstn (length title - length rest) title)
  | None => None
  end.

Definition is_v (c : ascii) : bool := existsb (Ascii.eqb c) (py "v").

(** What makes a comparison function a total order. *)
Record order {A : Type} (cmp : A -> A -> comparison) : Prop := mkOrder {
  ord_eq : forall a b, cmp a b = Eq <-> a = b;
  ord_opp : forall a b, cmp b a = CompOpp (cmp a b);
  ord_trans : forall a b c, cmp a b = Lt -> cmp b c = Lt -> cmp a c = Lt
}.

(** The key as the tuple [_cmpkey] returns. *)
Definition key_tuple (k : cmpkey) :=
  (k_epoch k, (k_release k, (k_pre k, (k_post k, (k_dev k, k_local k))))).

(** The feed-based plugins of the registry, and those among them with the
    v-prefix rule. *)
Definition feed_plugins : list GithubReleases :=
  [ SignalCliPlugin; NextCloudPlugin; RoundcubePlugin; DolibarrPlugin;
    HumhubPlugin; FroxlorPlugin; RainloopPlugin; CyberchefPlugin;
    ArangoDBPlugin ].

Definition semver_plugins : list GithubReleases :=
  [ NextCloudPlugin; RainloopPlugin; CyberchefPlugin; ArangoDBPlugin ].

(** The candidate of an entry: the non-empty string its title rule gives,
    when the filter lets the title through. *)
Definition candidate (self : GithubReleases) (title : str) : option str :=
  if blocked title then None
  else match version_from_title self title with
       | Ok (Some (c :: s)) => Some (c :: s)
       | _ => None
       end.

Fixpoint candidates (self : GithubReleases) (entries : list str) : list str :=
  match entries with
  | [] => []
  | title :: rest =>
      match candidate self title with
      | Some c => c :: candidates self rest
      | None => candidates self rest
      end
  end.

(** [packaging.version.parse] on each candidate in turn. *)
Fixpoint parse_all (cs : list str) : result (list Version) :=
  match cs with
  | [] => Ok []
  | c :: rest =>
      v <- parse c ;;
      vs <- parse_all rest ;;
      Ok (v :: vs)
  end.

Definition no_digit (s : str) : Prop := forall c, In c s -> is_digit c = false.

(** The URLs [most_recent] fetches. *)
Definition registry_urls : list str :=
  stable_check_url :: map releases_url feed_plugins.

(** Two outcomes of an aggregation are the same: the same mapping from
    software name to version, or an exception in both. *)
Definition same_outcome (r1 r2 : result (dict (option str))) : Prop :=
  match r1, r2 with
  | Ok d1, Ok d2 => forall name, dict_get d1 name = dict_get d2 name
  | Raise _, Raise _ => True
  | _, _ => False
  end.

(** What is optional in [post_re] and in [pre_re]. *)
Definition post_inner : regex :=
  Alt (Seq (Chr "-") (Group g_post_n1 digits))
      (letter_number g_post_l post_letters g_post_n2).

Definition pre_inner : regex := letter_number g_pre_l pre_letters g_pre_n.

Definition release_body : regex :=
  Seq digits (Star (Seq (Chr ".") digits)).

(** The pattern of [Version._regex] from a piece to the end of the
    string, and the pattern re-bracketed as one chain. *)
Definition End_re : regex := Seq (Star (Class is_space)) Eos.
Definition tail_local : regex := Seq local_re End_re.
Definition tail_dev : regex := Seq dev_re tail_local.
Definition tail_post : regex := Seq post_re tail_dev.
Definition tail_pre : regex := Seq pre_re tail_post.
Definition tail_release : regex := Seq release_re tail_pre.
Definition tail_epoch : regex := Seq epoch_re tail_release.
Definition Version_chain : regex :=
  Seq (Star (Class is_space)) (Seq (Opt (ChrI "v")) tail_epoch).

(** The groups that the match of a printed version captures. *)
Definition caps_local (l : option (list local_part)) : captures :=
  match l with
  | Some (p :: l') => [(g_local, join (py ".") (map show_part (p :: l')))]
  | _ => []
  end.

Definition caps_dev (d : option (str * N)) : captures :=
  match d with
  | Some (_, n) => [(g_dev_n, str_of_int n); (g_dev_l, py "dev")]
  | None => []
  end.

Definition caps_post (p : option (str * N)) : captures :=
  match p with
  | Some (_, n) => [(g_post_n2, str_of_int n); (g_post_l, py "post")]
  | None => []
  end.

Definition caps_pre (p : option (str * N)) : captures :=
  match p with
  | Some (l, n) => [(g_pre_n, str_of_int n); (g_pre_l, l)]
  | None => []
  end.

Definition caps_epoch (e : N) : captures :=
  if (e =? 0)%N then [] else [(g_epoch, str_of_int e)].

Definition caps_of (v : Version) : captures :=
  caps_local (local v) ++ caps_dev (dev v) ++ caps_post (post v)
  ++ caps_pre (pre v) ++ [(g_release, print_release (release v))]
  ++ caps_epoch (epoch v).

(** A pattern without groups. *)
Fixpoint no_groups (r : regex) : bool :=
  match r with
  | Eps | Class _ | Eos => true
  | Seq r1 r2 | Alt r1 r2 => no_groups r1 && no_groups r2
  | Opt r1 | Star r1 => no_groups r1
  | Group _ _ => false
  end.

(** [t] does not go on with a character of the class [p]. *)
Definition stops (p : ascii -> bool) (t : str) : Prop :=
  match t with
  | [] => True
  | c :: _ => p c = false
  end.

(** Digits and dots where a digit follows every dot: what is inside a
    release. *)
Fixpoint dots_ok (w : str) : bool :=
  match w with
  | [] => true
  | c :: w' =>
      (is_digit c
       || (Ascii.eqb c "." && match w' with
                              | d :: _ => is_digit d
                              | [] => false
                              end))
      && dots_ok w'
  end.

(** [t] cannot go on a release: it starts neither with a digit nor with a
    dot and a digit. *)
Definition blocks (t : str) : Prop :=
  match t with
  | [] => True
  | c :: t' =>
      is_digit c = false /\
      (c = "."%char -> match t' with
                       | d :: _ => is_digit d = false
                       | [] => True
                       end)
  end.

(** The versions that [Version.__init__] builds: a release of at least one
    number, the normalized letters, and local parts that are numbers or
    lower-case words that are not numbers. *)
Definition wf_letter (allowed : list str) (p : option (str * N)) : Prop :=
  match p with
  | Some (l, _) => In l allowed
  | None => True
  end.

Definition is_lower_alnum (c : ascii) : bool :=
  in_range 97 122 c || is_digit c.

Definition wf_part (i : local_part) : Prop :=
  match i with
  | LInt _ => True
  | LStr s => forallb is_lower_alnum s = true /\ isdigit s = false /\ s <> []
  end.

Definition wf_local (l : option (list local_part)) : Prop :=
  match l with
  | Some ps => ps <> [] /\ Forall wf_part ps
  | None => True
  end.

Record wf (v : Version) : Prop := mkWf {
  wf_release : release v <> [];
  wf_pre : wf_letter [py "a"; py "b"; py "rc"] (pre v);
  wf_post : wf_letter [py "post"] (post v);
  wf_dev : wf_letter [py "dev"] (dev v);
  wf_loc : wf_local (local v)
}.

(** The version string "a.b.c" and the version it stands for. *)
Definition semver_string (a b c : N) : str :=
  str_of_int a ++ py "." ++ str_of_int b ++ py "." ++ str_of_int c.

Definition semver (a b c : N) : Version :=
  {| epoch := 0; release := [a; b; c]; pre := None; post := None;
     dev := None; local := None |}.

(** What each piece of the pattern can capture, on any string. *)
Definition epoch_shape (m : captures) : Prop :=
  m = [] \/ exists ds, ds <> [] /\ m = [(g_epoch, ds)].

Definition release_shape (m : captures) : Prop :=
  exists w, m = [(g_release, w)].

Definition letter_shape (gl gn : group) (allowed : list str) (m : captures)
  : Prop :=
  m = [] \/
  exists u, In (lower u) allowed /\
            (m = [(gl, u)] \/ exists ds, ds <> [] /\ m = [(gn, ds); (gl, u)]).

Definition post_shape (m : captures) : Prop :=
  (exists ds, ds <> [] /\ m = [(g_post_n1, ds)]) \/
  letter_shape g_post_l g_post_n2 [py "post"; py "rev"; py "r"] m.

Definition word_ok (q : str) : Prop :=
  q <> [] /\ forallb is_alnum q = true.

Definition local_shape (m : captures) : Prop :=
  m = [] \/
  exists w, m = [(g_local, w)] /\ Forall word_ok (split_on is_sep w).

Definition groups_within (gs : list group) (m : captures) : Prop :=
  forall x, In x m -> In (fst x) gs.

(** Networks to run the aggregation on. *)
Definition sample_response : Response :=
  {| status_ok := true;
     json_body := Ok (JObject [(py "6.1", JString (py "outdated"));
                               (py "6.2", latest)]);
     feed_entries := Ok [py "1.2.3"] |}.

Definition sample_net : Network := fun _ => Ok sample_response.

Definition sample_net' : Network :=
  fun url => if existsb (str_eqb url) registry_urls
             then Ok sample_response
             else Raise ConnectionError.

(** Two runs of a plugin agree: no release in both, releases that compare
    equal as versions, or the same exception. *)
Definition same_release (r1 r2 : result (option str)) : Prop :=
  match r1, r2 with
  | Ok None, Ok None => True
  | Ok (Some s1), Ok (Some s2) =>
      exists v1 v2,
        parse s1 = Ok v1 /\ parse s2 = Ok v2 /\ Version_eq v1 v2 = true
  | Raise e1, Raise e2 => e1 = e2
  | _, _ => False
  end.

(** The plugins that take the whole title as the candidate. *)
Definition title_plugins : list GithubReleases :=
  [ DolibarrPlugin; HumhubPlugin ].

(** The characters [VERSION_PATTERN] and the white space around it can
    match: white space, letters, digits and [-_.+!]. *)
Definition pep440_char (c : ascii) : bool :=
  is_space c || is_alnum c || is_sep c || Ascii.eqb c "+" || Ascii.eqb c "!".

(** Every character class of [r] lies within [P]. *)
Fixpoint within (P : ascii -> bool) (r : regex) : Prop :=
  match r with
  | Eps | Eos => True
  | Class p => forall c, p c = true -> P c = true
  | Seq r1 r2 | Alt r1 r2 => within P r1 /\ within P r2
  | Opt r1 | Star r1 | Group _ r1 => within P r1
  end.

(** ** [FixedTimeoutAdapter]

    [send] as far as its keyword arguments go: [kwargs] maps each keyword
    to [None] (Python's [None]) or to a value; [ten] is the integer [10].
    The result is the [kwargs] handed on to [HTTPAdapter.send], or [None]
    for the [KeyError] of [kwargs['timeout']]. *)
Definition FixedTimeoutAdapter_send {value : Type} (ten : value)
    (kwargs : dict (option value)) : option (dict (option value)) :=
  match dict_get kwargs (py "timeout") with
  | None => None
  | Some None => Some (dict_set kwargs (py "timeout") (Some ten))
  | Some (Some _) => Some kwargs
  end.

(** [sub] occurs in [s]. *)
Definition occurs (sub s : str) : Prop :=
  exists before after, s = before ++ sub ++ after.

(** The characters of the words of a printed version: all but the digits
    and the three marks [.], [+] and [!]. *)
Definition word_char (c : ascii) : bool :=
  negb (is_digit c || Ascii.eqb c "." || Ascii.eqb c "+" || Ascii.eqb c "!").

(** * zabbix.py: handing the versions to Zabbix

    The script fetches the mapping of the API and starts [zabbix_sender]
    once for the discovery item and once for each software.  What the
    world answers is given by oracles: the process by [Popen], the HTTP
    request by [get].  The log is left out. *)

Module Zabbix.

(** The contents of a [bytes] object. *)
Definition bytes : Type := list ascii.

(** The message of a [ZabbixSenderException]. *)
Inductive reason : Type :=
| Returncode (returncode : Z)         (* F'Returncode {p.returncode}' *)
| StdErr (error : bytes)              (* what the sender wrote to stderr *)
| FailedItems (failed : N) (last_command : option (list str))
| Mismatching (processed total : N).

Inductive exception : Type :=
| ZabbixSenderException (r : reason)
| UnicodeDecodeError                  (* bytes.decode *)
| OSError                             (* subprocess.Popen *)
| TypeError                           (* int(None) *)
| Other (e : exn).                    (* requests, AttributeError *)

Inductive outcome (A : Type) : Type :=
| Return (a : A)
| Raised (e : exception).
Arguments Return {A} a.
Arguments Raised {A} e.

Record ZabbixSender : Type := mkZabbixSender {
  sender_path : str;
  config_path : str;
  last_command : option (list str)
}.

(** The sender and what the script has done to the world: the commands
    handed to [subprocess.Popen] and the lines printed, the oldest
    first. *)
Record state : Type := mkState {
  sender : ZabbixSender;
  commands : list (list str);
  stdout : list str
}.

Definition M (A : Type) : Type := state -> state * outcome A.

Definition ret {A : Type} (a : A) : M A := fun st => (st, Return a).

Definition raise {A : Type} (e : exception) : M A :=
  fun st => (st, Raised e).

Definition bind {A B : Type} (m : M A) (k : A -> M B) : M B :=
  fun st =>
    match m st with
    | (st', Return a) => k a st'
    | (st', Raised e) => (st', Raised e)
    end.

Declare Scope zabbix_scope.
Notation "x <- m ;; k" := (bind m (fun x => k))
  (at level 61, m at next level, right associativity) : zabbix_scope.
Local Open Scope zabbix_scope.

(** An exception of the plugins' side, raised here. *)
Definition lift {A : Type} (r : result A) : M A :=
  match r with
  | Ok a => ret a
  | Raise e => raise (Other e)
  end.

(** [print(line)] *)
Definition print (line : str) : M unit :=
  fun st => (mkState (sender st) (commands st) (stdout st ++ [line]),
             Return tt).

(** ** The patterns of [ZabbixSender.__init__] *)

Fixpoint Lit (s : str) : regex :=
  match s with
  | [] => Eps
  | c :: s' => Seq (Chr c) (Lit s')
  end.

(** The one group of each pattern, [group(1)]; the matcher names its
    groups, and any name serves. *)
Definition group_1 : group := g_epoch.

(** [label(\d+);] *)
Definition count_pattern (label : str) : regex :=
  Seq (Lit label) (Seq (Group group_1 digits) (Chr ";")).

Definition r_processed : regex := count_pattern (py "processed: ").
Definition r_failed : regex := count_pattern (py "failed: ").
Definition r_total : regex := count_pattern (py "total: ").

(** [pattern.search(s)]: the first match at the leftmost position that has
    one. *)
Fixpoint search (r : regex) (s : str) : option (captures * str) :=
  match re_match r s with
  | Some m => Some m
  | None =>
      match s with
      | [] => None
      | _ :: s' => search r s'
      end
  end.

(** [int(pattern.search(output).group(1))] *)
Definition count (r : regex) (output : str) : M N :=
  match search r output with
  | None => raise (Other AttributeError)
  | Some (m, _) =>
      match group_of group_1 m with
      | Some digits => ret (int digits)
      | None => raise TypeError
      end
  end.

(** [sorted(names)]: by code points, as [str] compares. *)
Fixpoint insert (x : str) (l : list str) : list str :=
  match l with
  | [] => [x]
  | y :: l' =>
      match str_compare x y with
      | Gt => y :: insert x l'
      | _ => x :: l
      end
  end.

Definition sorted (l : list str) : list str := fold_right insert [] l.

(** The list [discovery] that [main] builds from [response_data]. *)
Definition discovery (response_data : list (str * json)) : list (dict str) :=
  map (fun software_name => [(py "{#SOFTWARENAME}", software_name)])
      (sorted (map fst response_data)).

Section Script.

(** [subprocess.Popen(command, ...)] and [p.communicate()]: given the
    commands run before, the return code, the standard output and the
    standard error of the process; [None] when the process cannot be
    started ([OSError]). *)
Variable Popen : list (list str) -> list str -> option (Z * bytes * bytes).

(** [b.decode('utf-8')]; [None] is [UnicodeDecodeError]. *)
Variable decode : bytes -> option str.

(** [requests.get(url)], for the value of [os.environ.get('API_URL')]. *)
Variable get : option str -> result Response.

(** [json.dumps({'data': discovery})] *)
Variable dumps : list (dict str) -> str.

(** [str(value)] of a number, a list or a dict. *)
Variable str_of : json -> str.

(** ['%s' % value] *)
Definition percent_s (value : json) : str :=
  match value with
  | JString s => s
  | JNull => py "None"
  | JBool true => py "True"
  | JBool false => py "False"
  | _ => str_of value
  end.

Definition decode_utf8 (b : bytes) : M str :=
  match decode b with
  | Some s => ret s
  | None => raise UnicodeDecodeError
  end.

(** [self.last_command = ...] *)
Definition set_last_command (command : list str) : M unit :=
  fun st =>
    (mkState (mkZabbixSender (sender_path (sender st))
                             (config_path (sender st)) (Some command))
             (commands st) (stdout st),
     Return tt).

(** [Popen(self.last_command, ...)] followed by [p.communicate()] *)
Definition communicate (command : list str) : M (Z * bytes * bytes) :=
  fun st =>
    (mkState (sender st) (commands st ++ [command]) (stdout st),
     match Popen (commands st) command with
     | Some p => Return p
     | None => Raised OSError
     end).

(** [ZabbixSender._execute_sender] *)
Definition _execute_sender (arguments : list str) (verbose : bool) : M str :=
  fun st =>
    let command :=
      [sender_path (sender st)]
      ++ (if verbose then [py "-vv"] else [])
      ++ [py "-c"; config_path (sender st)]
      ++ arguments in
    (_ <- set_last_command command ;;
     p <- communicate command ;;
     let '(returncode, output, error) := p in
     match returncode with
     | Z0 =>
         if negb verbose && negb (match error with [] => true | _ => false end)
         then raise (ZabbixSenderException (StdErr error))
         else decode_utf8 output
     | _ =>
         _ <- decode_utf8 error ;;
         _ <- decode_utf8 output ;;
         raise (ZabbixSenderException (Returncode returncode))
     end) st.

(** [ZabbixSender._parse_output] *)
Definition _parse_output (output : str) : M unit :=
  processed_item_count <- count r_processed output ;;
  failed_item_count <- count r_failed output ;;
  total_item_count <- count r_total output ;;
  if negb (failed_item_count =? 0)%N then
    fun st =>
      raise (ZabbixSenderException
               (FailedItems failed_item_count (last_command (sender st)))) st
  else if negb (processed_item_count =? total_item_count)%N then
    raise (ZabbixSenderException
             (Mismatching processed_item_count total_item_count))
  else ret tt.

(** [ZabbixSender.send_item] *)
Definition send_item (name : str) (value : json) : M str :=
  output <- _execute_sender [py "-k"; name; py "-o"; percent_s value] false ;;
  _ <- _parse_output output ;;
  ret (name ++ py ": " ++ percent_s value).

(** The name of the item of a software. *)
Definition item_name (software_name : str) : str :=
  py "software_versions.most_recent_version[" ++ software_name ++ py "]".

(** The second loop of [main]: a [ZabbixSenderException] is logged and the
    loop goes on. *)
Fixpoint send_versions (response_data : list (str * json)) : M unit :=
  match response_data with
  | [] => ret tt
  | (software_name, current_version) :: rest =>
      fun st =>
        match (line <- send_item (item_name software_name) current_version ;;
               print line) st with
        | (st', Return _) => send_versions rest st'
        | (st', Raised (ZabbixSenderException _)) => send_versions rest st'
        | (st', Raised e) => (st', Raised e)
        end
  end.

(** [main], from the request on; [API_URL] is the value of
    [os.environ.get('API_URL')]. *)
Definition main (API_URL : option str) : M unit :=
  response <- lift (get API_URL) ;;
  _ <- lift (raise_for_status response) ;;
  response_data <- lift (json_body response) ;;
  response_data <- lift (items response_data) ;;
  line <- send_item (py "software_versions.discovery")
                    (JString (dumps (discovery response_data))) ;;
  _ <- print line ;;
  send_versions response_data.

End Script.

(** The sender [main] creates, and the state [main] starts in. *)
Definition ZabbixSender_init (sender_path config_path : str) : ZabbixSender :=
  mkZabbixSender sender_path config_path None.

Definition start : state :=
  mkState (ZabbixSender_init (py "/usr/bin/zabbix_sender")
                             (py "/etc/zabbix/zabbix_agentd.conf"))
          [] [].

End Zabbix.

(** ** Definitions used to state the properties of the script *)

Module ZabbixSpec.

(** The command of an item. *)
Definition command_of (self : Zabbix.ZabbixSender) (name value : str)
  : list str :=
  [Zabbix.sender_path self; py "-c"; Zabbix.config_path self;
   py "-k"; name; py "-o"; value].

(** The state after [command] has been run: it is the last command of
    the sender and the last of the commands handed to [Popen]. *)
Definition after_command (st : Zabbix.state) (command : list str)
  : Zabbix.state :=
  Zabbix.mkState
    (Zabbix.mkZabbixSender (Zabbix.sender_path (Zabbix.sender st))
                           (Zabbix.config_path (Zabbix.sender st))
                           (Some command))
    (Zabbix.commands st ++ [command]) (Zabbix.stdout st).

(** The command and the printed line of the item of a software. *)
Definition item_command (str_of : json -> str) (self : Zabbix.ZabbixSender)
    (item : str * json) : list str :=
  command_of self (Zabbix.item_name (fst item))
             (Zabbix.percent_s str_of (snd item)).

Definition item_line (str_of : json -> str) (item : str * json) : str :=
  Zabbix.item_name (fst item) ++ py ": " ++ Zabbix.percent_s str_of (snd item).

(** The command and the printed line of the discovery item. *)
Definition discovery_command (dumps : list (dict str) -> str)
    (self : Zabbix.ZabbixSender) (response_data : list (str * json))
  : list str :=
  command_of self (py "software_versions.discovery")
             (dumps (Zabbix.discovery response_data)).

Definition discovery_line (dumps : list (dict str) -> str)
    (response_data : list (str * json)) : str :=
  py "software_versions.discovery" ++ py ": "
  ++ dumps (Zabbix.discovery response_data).

(** What [main] gets from the API: the items of the JSON object, or the
    exception of the request, of the status, of the body or of a body
    that is no object. *)
Definition answer (get : option str -> result Response)
    (API_URL : option str) : result (list (str * json)) :=
  response <- get API_URL ;;
  _ <- raise_for_status response ;;
  response_data <- json_body response ;;
  items response_data.

(** [output] holds [label], a number and a semicolon: the sender reports
    the count [n] under [label]. *)
Definition reports (label : str) (n : N) (output : str) : Prop :=
  exists before number after,
    output = before ++ label ++ number ++ py ";" ++ after /\
    number <> [] /\ forallb is_digit number = true /\ int number = n.

(** The same, at the first place where [label] occurs in [output]. *)
Definition first_report (label : str) (n : N) (output : str) : Prop :=
  exists before number after,
    output = before ++ label ++ number ++ py ";" ++ after /\
    number <> [] /\ forallb is_digit number = true /\ int number = n /\
    contains label (before ++ removelast label) = false.

Definition is_ZabbixSenderException {A : Type} (r : Zabbix.outcome A)
  : Prop :=
  match r with
  | Zabbix.Raised (Zabbix.ZabbixSenderException _) => True
  | _ => False
  end.

(** Ascending order of strings. *)
Definition str_le (a b : str) : Prop := str_compare a b <> Gt.

Fixpoint ascending (l : list str) : Prop :=
  match l with
  | [] => True
  | x :: l' => (forall y, In y l' -> str_le x y) /\ ascending l'
  end.

(** Oracles for an example: a sender that accepts every item, one that
    fails with return code 1, an API that knows two softwares. *)
Definition accepting_Popen (_ : list (list str)) (_ : list str)
  : option (Z * Zabbix.bytes * Zabbix.bytes) :=
  Some (Z0, py "processed: 1; failed: 0; total: 1; seconds spent: 0.000055",
        []).

Definition failing_Popen (_ : list (list str)) (_ : list str)
  : option (Z * Zabbix.bytes * Zabbix.bytes) :=
  Some (Zpos 1, [], py "zabbix_sender: cannot connect").

Definition ascii_decode (b : Zabbix.bytes) : option str :=
  if forallb (in_range 0 127) b then Some b else None.

Definition sample_get (_ : option str) : result Response :=
  Ok {| status_ok := true;
        json_body := Ok (JObject [(py "wordpress", JString (py "6.2"));
                                  (py "humhub", JNull)]);
        feed_entries := Raise FeedParseError |}.

Definition sample_dumps (discovery : list (dict str)) : str :=
  join (py ",") (map (fun entry => join (py "") (map snd entry)) discovery).

Definition sample_str_of (_ : json) : str := [].

End ZabbixSpec.

(* ================================================================== *)
(** * Properties *)

(** ** Strings *)

#[local] Arguments Ascii.eqb : simpl never.

Lemma str_eqb_eq (a b : str) : str_eqb a b = true <-> a = b.
Proof.
  unfold str_eqb. destruct (list_eq_dec ascii_dec a b); split; congruence.
Qed.

Lemma str_eqb_refl (a : str) : str_eqb a a = true.
Proof. now apply str_eqb_eq. Qed.

Lemma str_eqb_neq (a b : str) : str_eqb a b = false <-> a <> b.
Proof.
  unfold str_eqb. destruct (list_eq_dec ascii_dec a b); split; congruence.
Qed.

Lemma startswith_iff (p s : str) :
  startswith p s = true <-> exists rest, s = p ++ rest.
Proof.
  revert s. induction p as [|a p IH]; intros s; simpl.
  - split; [intros _; now exists s | reflexivity].
  - destruct s as [|b s].
    + split; [discriminate | intros [rest H]; discriminate].
    + rewrite andb_true_iff, Ascii.eqb_eq, IH. split.
      * intros [-> [rest ->]]. now exists rest.
      * intros [rest H]. injection H as -> ->. split; [reflexivity|now exists rest].
Qed.

Lemma startswith_app (p rest : str) : startswith p (p ++ rest) = true.
Proof. apply startswith_iff. now exists rest. Qed.

Lemma contains_iff (sub s : str) :
  contains sub s = true <-> exists before after, s = before ++ sub ++ after.
Proof.
  induction s as [|c s IH].
  - simpl. rewrite orb_false_r, startswith_iff. split.
    + intros [rest H]. now exists [], rest.
    + intros [before [after H]]. symmetry in H.
      apply app_eq_nil in H as [-> H]. now exists after.
  - cbn [contains]. rewrite orb_true_iff, startswith_iff, IH. split.
    + intros [[rest H] | [before [after H]]].
      * now exists [], rest.
      * exists (c :: before), after. now rewrite H.
    + intros [[|b before] [after H]].
      * left. now exists after.
      * right. injection H as _ H. now exists before, after.
Qed.

(** ** The release filter *)

Lemma blocked_iff (title : str) :
  blocked title = true <->
  exists block before after,
    In block VERSION_BLOCKLIST /\ lower title = before ++ block ++ after.
Proof.
  unfold blocked. rewrite existsb_exists. split.
  - intros [block [Hin H]]. apply contains_iff in H as [b [a H]].
    now exists block, b, a.
  - intros [block [b [a [Hin H]]]]. exists block. split; [assumption|].
    apply contains_iff. now exists b, a.
Qed.

Lemma collect_app (self : GithubReleases) (before after : list str) :
  forall versions,
    collect self (before ++ after) versions =
    bind (collect self before versions) (collect self after).
Proof.
  induction before as [|t before IH]; intros versions; simpl.
  - reflexivity.
  - destruct (blocked t); [apply IH|].
    destruct (version_from_title self t) as [version|e]; simpl; [|reflexivity].
    destruct (truthy version); [|apply IH].
    destruct (parse _) as [v|e]; simpl; [apply IH | reflexivity].
Qed.

Lemma collect_skip_blocked (self : GithubReleases) (title : str)
    (after : list str) (versions : list Version) :
  blocked title = true ->
  collect self (title :: after) versions = collect self after versions.
Proof. intros H. simpl. now rewrite H. Qed.

(** C5: an entry is rejected by the filter exactly when its lowercased
    title contains one of the blocked substrings, the blocklist is
    ["beta"; "rc"], and a rejected entry adds nothing to the list of
    versions: the run is the run of the feed without that entry. *)
Theorem C5_release_filter (self : GithubReleases) (title : str)
    (before after : list str) (versions : list Version) :
  VERSION_BLOCKLIST = [py "beta"; py "rc"] /\
  (blocked title = true <->
   exists block b a,
     In block VERSION_BLOCKLIST /\ lower title = b ++ block ++ a) /\
  (blocked title = true ->
   collect self (before ++ title :: after) versions
   = collect self (before ++ after) versions).
Proof.
  split; [reflexivity|]. split; [apply blocked_iff|].
  intros H. rewrite !collect_app.
  destruct (collect self before versions) as [vs|e]; simpl; [|reflexivity].
  now rewrite H.
Qed.

Lemma C5_release_filter_witness :
  blocked (py "Version 1.3.0-BETA") = true /\
  collect SignalCliPlugin
          ([py "Version 1.2.3"] ++ py "Version 1.3.0-BETA"
                                :: [py "Version 1.2.9"]) []
  = collect SignalCliPlugin ([py "Version 1.2.3"] ++ [py "Version 1.2.9"]) [].
Proof.
  split; [reflexivity|].
  apply (C5_release_filter SignalCliPlugin (py "Version 1.3.0-BETA")
           [py "Version 1.2.3"] [py "Version 1.2.9"] []).
  reflexivity.
Defined.

(** ** The Wordpress plugin *)

Lemma is_latest_iff (status : json) : is_latest status = true <-> status = latest.
Proof.
  unfold latest. destruct status; simpl; try (split; [discriminate|congruence]).
  rewrite str_eqb_eq. split; congruence.
Qed.

Lemma WordpressPlugin_call_ok (d : list (str * json)) :
  WordpressPlugin_call (stable_check_of d) = Ok (latest_of d).
Proof. reflexivity. Qed.

Lemma latest_of_some (d : list (str * json)) (version : str) :
  latest_of d = Some version -> In (version, latest) d.
Proof.
  induction d as [|[k st] d IH]; simpl; [discriminate|].
  destruct (is_latest st) eqn:E.
  - intros [= ->]. apply is_latest_iff in E as ->. now left.
  - intros H. right. now apply IH.
Qed.

Lemma latest_of_none (d : list (str * json)) :
  (forall version, ~ In (version, latest) d) -> latest_of d = None.
Proof.
  induction d as [|[k st] d IH]; simpl; [reflexivity|]. intros H.
  destruct (is_latest st) eqn:E.
  - apply is_latest_iff in E as ->. exfalso. apply (H k). now left.
  - apply IH. intros v Hv. apply (H v). now right.
Qed.

Lemma latest_of_first (before after : list (str * json)) (version : str) :
  (forall x, In x before -> is_latest (snd x) = false) ->
  latest_of (before ++ (version, latest) :: after) = Some version.
Proof.
  induction before as [|[k st] before IH]; simpl; intros H.
  - reflexivity.
  - pose proof (H (k, st) (or_introl eq_refl)) as E. simpl in E. rewrite E.
    apply IH. intros x Hx. apply H. now right.
Qed.

(** C6: on a response that maps versions to statuses, the Wordpress
    plugin returns a version whose status is "latest" (the one there is,
    when there is one only), and it returns [None], raising nothing, when
    no status is "latest". *)
Theorem C6_wordpress_latest (d : list (str * json)) :
  (forall version,
      WordpressPlugin_call (stable_check_of d) = Ok (Some version) ->
      In (version, latest) d) /\
  (forall version,
      In (version, latest) d ->
      (forall other, In (other, latest) d -> other = version) ->
      WordpressPlugin_call (stable_check_of d) = Ok (Some version)) /\
  ((forall version, ~ In (version, latest) d) ->
   WordpressPlugin_call (stable_check_of d) = Ok None).
Proof.
  rewrite WordpressPlugin_call_ok. repeat split.
  - intros version [= H]. now apply latest_of_some.
  - intros version Hin Huniq. destruct (latest_of d) as [v|] eqn:E.
    + apply latest_of_some in E. now rewrite (Huniq v E).
    + exfalso. revert E Hin. clear. induction d as [|[k st] d IH]; simpl; [tauto|].
      destruct (is_latest st) eqn:E; [discriminate|].
      intros H [[= -> ->]|Hin]; [discriminate|]. now apply IH.
  - intros H. now rewrite latest_of_none.
Qed.

Lemma C6_wordpress_latest_witness :
  WordpressPlugin_call
    (stable_check_of [(py "6.1", JString (py "outdated")); (py "6.2", latest)])
  = Ok (Some (py "6.2")) /\
  WordpressPlugin_call
    (stable_check_of [(py "6.1", JString (py "outdated"))]) = Ok None.
Proof.
  split.
  - apply (C6_wordpress_latest
             [(py "6.1", JString (py "outdated")); (py "6.2", latest)]).
    + right. now left.
    + intros other [H|[H|[]]]; [discriminate | now injection H].
  - apply (C6_wordpress_latest [(py "6.1", JString (py "outdated"))]).
    intros version [H|[]]. discriminate.
Defined.

(** C10: when several entries have the status "latest", the Wordpress
    plugin returns the first of them in the order of the mapping, whatever
    follows it; two mappings with the same entries in a different order can
    give different results. *)
Theorem C10_wordpress_first_latest (before after after' : list (str * json))
    (version : str) :
  (forall x, In x before -> is_latest (snd x) = false) ->
  WordpressPlugin_call (stable_check_of (before ++ (version, latest) :: after))
  = Ok (Some version) /\
  WordpressPlugin_call (stable_check_of (before ++ (version, latest) :: after'))
  = WordpressPlugin_call
      (stable_check_of (before ++ (version, latest) :: after)) /\
  WordpressPlugin_call
    (stable_check_of [(py "6.1", latest); (py "6.2", latest)])
  = Ok (Some (py "6.1")) /\
  WordpressPlugin_call
    (stable_check_of [(py "6.2", latest); (py "6.1", latest)])
  = Ok (Some (py "6.2")).
Proof.
  intros H. rewrite !WordpressPlugin_call_ok, !latest_of_first by assumption.
  repeat split.
Qed.

Lemma C10_wordpress_first_latest_witness :
  WordpressPlugin_call
    (stable_check_of ([(py "6.0", JString (py "insecure"))]
                      ++ (py "6.1", latest) :: [(py "6.2", latest)]))
  = Ok (Some (py "6.1")).
Proof.
  apply (C10_wordpress_first_latest [(py "6.0", JString (py "insecure"))]
           [(py "6.2", latest)] [] (py "6.1")).
  intros x [<-|[]]. reflexivity.
Defined.

(** ** The title rules that strip a prefix *)

Lemma split_on_hd (p : ascii -> bool) (s : str) :
  exists h t, split_on p s = h :: t.
Proof.
  induction s as [|c s [h [t IH]]]; simpl; [now eexists _, _|].
  destruct (p c); [now eexists _, _|]. rewrite IH. now eexists _, _.
Qed.

Lemma split_space_hd (s : str) :
  hd_error (split " " s) = Some (upto_space s).
Proof.
  unfold split. induction s as [|c s IH]; simpl; [reflexivity|].
  destruct (Ascii.eqb " " c); [reflexivity|].
  destruct (split_on_hd (Ascii.eqb " ") s) as [h [t E]].
  rewrite E in *. simpl in *. congruence.
Qed.

Lemma froxlor_title (rest : str) :
  version_from_title FroxlorPlugin (py "Froxlor " ++ rest)
  = Ok (Some (upto_space rest)).
Proof.
  cbn [version_from_title FroxlorPlugin]. rewrite startswith_app.
  replace (nth_error (split " " (py "Froxlor " ++ rest)) 1)
    with (hd_error (split " " rest)).
  - now rewrite split_space_hd.
  - unfold split. simpl.
    destruct (split_on_hd (Ascii.eqb " ") rest) as [h [t ->]]. reflexivity.
Qed.

(** The first-token reading of C7 fails for signal-cli (and roundcube):
    the whole remainder of the title is the candidate. *)
Lemma C7_counterexample :
  version_from_title SignalCliPlugin (py "Version 1.2.3 final")
  = Ok (Some (py "1.2.3 final")) /\
  spec_prefix_rule (py "Version ") (py "Version 1.2.3 final")
  = Some (py "1.2.3") /\
  version_from_title RoundcubePlugin (py "Roundcube Webmail 1.4.11 released")
  = Ok (Some (py "1.4.11 released")).
Proof. repeat split. Qed.

(** C7, amended: signal-cli and roundcube take the whole remainder of the
    title after the prefix; froxlor takes the text between the first and
    the second space of the title; none of the three gives a candidate,
    or raises, for a title that does not start with its prefix. *)
Theorem C7_prefix_rules (title rest : str) :
  version_from_title SignalCliPlugin (py "Version " ++ rest) = Ok (Some rest) /\
  version_from_title RoundcubePlugin (py "Roundcube Webmail " ++ rest)
  = Ok (Some rest) /\
  version_from_title FroxlorPlugin (py "Froxlor " ++ rest)
  = Ok (Some (upto_space rest)) /\
  (startswith (py "Version ") title = false ->
   version_from_title SignalCliPlugin title = Ok None) /\
  (startswith (py "Roundcube Webmail ") title = false ->
   version_from_title RoundcubePlugin title = Ok None) /\
  (startswith (py "Froxlor ") title = false ->
   version_from_title FroxlorPlugin title = Ok None).
Proof.
  repeat split.
  - apply froxlor_title.
  - cbn [version_from_title SignalCliPlugin]. now intros ->.
  - cbn [version_from_title RoundcubePlugin]. now intros ->.
  - cbn [version_from_title FroxlorPlugin]. now intros ->.
Qed.

Lemma C7_prefix_rules_witness :
  version_from_title FroxlorPlugin (py "Froxlor " ++ py "0.10.25 is out")
  = Ok (Some (py "0.10.25")) /\
  version_from_title SignalCliPlugin (py "v0.8.1") = Ok None /\
  version_from_title RoundcubePlugin (py "Roundcube 1.4") = Ok None /\
  version_from_title FroxlorPlugin (py "froxlor 0.10") = Ok None.
Proof.
  pose proof (C7_prefix_rules (py "v0.8.1") (py "0.10.25 is out"))
    as [_ [_ [F [S _]]]].
  pose proof (C7_prefix_rules (py "Roundcube 1.4") []) as [_ [_ [_ [_ [R _]]]]].
  pose proof (C7_prefix_rules (py "froxlor 0.10") [])
    as [_ [_ [_ [_ [_ X]]]]].
  split; [exact F|]. split; [now apply S|]. split; [now apply R | now apply X].
Defined.

(** ** The matcher *)

Lemma in_seq_caps (k : str -> list (captures * str)) (m1 : captures * str)
    (m : captures) (rest : str) :
  In (m, rest) (seq_caps k m1) <->
  exists m2, In (m2, rest) (k (snd m1)) /\ m = m2 ++ fst m1.
Proof.
  unfold seq_caps. rewrite in_map_iff. split.
  - intros [[m2 r] [[= <- <-] H]]. now exists m2.
  - intros [m2 [H ->]]. now exists (m2, rest).
Qed.

Lemma in_run_seq (r1 r2 : regex) (s : str) (m : captures) (rest : str) :
  In (m, rest) (run (Seq r1 r2) s) <->
  exists m1 mid m2,
    In (m1, mid) (run r1 s) /\ In (m2, rest) (run r2 mid) /\ m = m2 ++ m1.
Proof.
  cbn [run]. rewrite in_flat_map. split.
  - intros [[m1 mid] [H1 H2]]. apply in_seq_caps in H2 as [m2 [H2 ->]].
    now exists m1, mid, m2.
  - intros [m1 [mid [m2 [H1 [H2 ->]]]]]. exists (m1, mid). split; [assumption|].
    apply in_seq_caps. now exists m2.
Qed.

Lemma in_run_seq_intro (r1 r2 : regex) (s mid rest : str) (m1 m2 : captures) :
  In (m1, mid) (run r1 s) -> In (m2, rest) (run r2 mid) ->
  In (m2 ++ m1, rest) (run (Seq r1 r2) s).
Proof. intros H1 H2. apply in_run_seq. now exists m1, mid, m2. Qed.

Lemma in_run_seq_nil (r1 r2 : regex) (s mid rest : str) :
  In ([], mid) (run r1 s) -> In ([], rest) (run r2 mid) ->
  In ([], rest) (run (Seq r1 r2) s).
Proof. intros H1 H2. apply in_run_seq. now exists [], mid, []. Qed.

Lemma in_run_class (p : ascii -> bool) (s : str) (m : captures) (rest : str) :
  In (m, rest) (run (Class p) s) <->
  exists c, s = c :: rest /\ p c = true /\ m = [].
Proof.
  cbn [run]. destruct s as [|c s].
  - split; [intros [] | intros [c [H _]]; discriminate].
  - destruct (p c) eqn:E; simpl.
    + split.
      * intros [[= <- <-]|[]]. now exists c.
      * intros [c' [[= <- <-] [_ ->]]]. now left.
    + split; [intros [] | intros [c' [[= <- <-] [H _]]]; congruence].
Qed.

Lemma in_run_opt (r : regex) (s : str) (x : captures * str) :
  In x (run (Opt r) s) <-> In x (run r s) \/ x = ([], s).
Proof.
  cbn [run]. rewrite in_app_iff. simpl. intuition congruence.
Qed.

Lemma in_run_alt (r1 r2 : regex) (s : str) (x : captures * str) :
  In x (run (Alt r1 r2) s) <-> In x (run r1 s) \/ In x (run r2 s).
Proof. cbn [run]. apply in_app_iff. Qed.

Lemma in_run_group (g : group) (r : regex) (s : str) (m : captures)
    (rest : str) :
  In (m, rest) (run (Group g r) s) <->
  exists m1, In (m1, rest) (run r s) /\
             m = (g, firstn (length s - length rest) s) :: m1.
Proof.
  cbn [run]. rewrite in_map_iff. split.
  - intros [[m1 r1] [[= <- <-] H]]. now exists m1.
  - intros [m1 [H ->]]. now exists (m1, rest).
Qed.

Lemma in_run_eos (s : str) (m : captures) (rest : str) :
  In (m, rest) (run Eos s) <->
  m = [] /\ rest = s /\ (s = [] \/ s = ["010"%char]).
Proof.
  cbn [run]. destruct s as [|c [|d s]]; simpl.
  - split.
    + intros [[= <- <-]|[]]. auto.
    + intros [-> [-> _]]. now left.
  - destruct (Ascii.eqb c "010") eqn:E; simpl.
    + apply Ascii.eqb_eq in E as ->. split.
      * intros [[= <- <-]|[]]. auto.
      * intros [-> [-> _]]. now left.
    + apply Ascii.eqb_neq in E. split; [intros []|].
      intros [_ [_ [H|H]]]; congruence.
  - destruct (Ascii.eqb c "010"); simpl;
      (split; [intros []|]; intros [_ [_ [H|H]]]; discriminate).
Qed.

Lemma flat_map_all_nil {A B : Type} (f : A -> list B) (l : list A) :
  (forall a, In a l -> f a = []) -> flat_map f l = [].
Proof.
  induction l as [|a l IH]; simpl; intros H; [reflexivity|].
  rewrite (H a) by now left. apply IH. intros b Hb. apply H. now right.
Qed.

Lemma star_fuel (step : str -> list (captures * str)) (f1 : nat) :
  forall (f2 : nat) (s : str),
    length s <= f1 -> length s <= f2 -> star step f1 s = star step f2 s.
Proof.
  induction f1 as [|f1 IH]; intros f2 s H1 H2.
  - destruct s; [|simpl in H1; lia]. destruct f2; [reflexivity|].
    cbn [star]. now rewrite flat_map_all_nil.
  - destruct f2 as [|f2].
    + destruct s; [|simpl in H2; lia]. cbn [star].
      now rewrite flat_map_all_nil.
    + cbn [star]. f_equal. apply flat_map_ext. intros m.
      destruct (length (snd m) <? length s) eqn:E; [|reflexivity].
      apply Nat.ltb_lt in E. unfold seq_caps.
      assert (length (snd m) <= f1) by lia.
      assert (length (snd m) <= f2) by lia.
      rewrite (IH f2); auto.
Qed.

Lemma in_run_star (r : regex) (s : str) (m : captures) (rest : str) :
  In (m, rest) (run (Star r) s) <->
  (m = [] /\ rest = s) \/
  exists m1 mid m2,
    In (m1, mid) (run r s) /\ length mid < length s /\
    In (m2, rest) (run (Star r) mid) /\ m = m2 ++ m1.
Proof.
  cbn [run]. destruct (length s) as [|n] eqn:E.
  - simpl. split.
    + intros [[= <- <-]|[]]. now left.
    + intros [[-> ->]|[m1 [mid [m2 [_ [H _]]]]]]; [now left | lia].
  - cbn [star]. rewrite in_app_iff, in_flat_map. split.
    + cbn [In]. intros [[[m1 mid] [H1 H2]]|[[= <- <-]|[]]]; [|now left].
      cbn [snd] in H2. destruct (length mid <? length s) eqn:L; [|destruct H2].
      apply Nat.ltb_lt in L. apply in_seq_caps in H2 as [m2 [H2 ->]].
      right. exists m1, mid, m2. repeat split; try assumption; [lia|].
      cbn [snd] in H2. rewrite (star_fuel _ _ n); [assumption|lia|lia].
    + cbn [In].
      intros [[-> ->]|[m1 [mid [m2 [H1 [L [H2 ->]]]]]]]; [right; now left|].
      left. exists (m1, mid). split; [assumption|]. cbn [snd].
      assert (L' : (length mid <? length s) = true) by (apply Nat.ltb_lt; lia).
      rewrite L'. apply in_seq_caps.
      exists m2. split; [|reflexivity]. cbn [snd].
      rewrite (star_fuel _ _ (length mid)); [assumption|lia|lia].
Qed.

(** What a match leaves is a suffix of what it was given. *)
Lemma run_suffix (r : regex) :
  forall s m rest, In (m, rest) (run r s) -> exists w, s = w ++ rest.
Proof.
  induction r as [|p|r1 IH1 r2 IH2|r1 IH1 r2 IH2|r IH|r IH|g r IH|];
    intros s m rest H.
  - destruct H as [[= _ <-]|[]]. now exists [].
  - apply in_run_class in H as [c [-> _]]. now exists [c].
  - apply in_run_seq in H as [m1 [mid [m2 [H1 [H2 _]]]]].
    apply IH1 in H1 as [w1 ->]. apply IH2 in H2 as [w2 ->].
    exists (w1 ++ w2). now rewrite app_assoc.
  - apply in_run_alt in H as [H|H]; eauto.
  - apply in_run_opt in H as [H|[= _ <-]]; [eauto | now exists []].
  - remember (length s) as n eqn:E. revert s m rest E H.
    induction n as [n IHn] using lt_wf_ind. intros s m rest E H.
    apply in_run_star in H as [[_ ->]|[m1 [mid [m2 [H1 [L [H2 _]]]]]]].
    + now exists [].
    + apply IH in H1 as [w1 ->].
      apply (IHn (length mid)) in H2 as [w2 ->]; [|lia|reflexivity].
      exists (w1 ++ w2). now rewrite app_assoc.
  - apply in_run_group in H as [m1 [H _]]. eauto.
  - apply in_run_eos in H as [_ [-> _]]. now exists [].
Qed.

Lemma firstn_consumed (w rest : str) :
  firstn (length (w ++ rest) - length rest) (w ++ rest) = w.
Proof.
  rewrite length_app, Nat.add_sub. rewrite firstn_app, Nat.sub_diag.
  simpl. now rewrite firstn_all, app_nil_r.
Qed.

(** A starred class takes any run of characters of the class. *)
Lemma in_run_star_class (p : ascii -> bool) (s : str) (m : captures)
    (rest : str) :
  In (m, rest) (run (Star (Class p)) s) <->
  m = [] /\ exists w, s = w ++ rest /\ forallb p w = true.
Proof.
  split.
  - remember (length s) as n eqn:E. revert s m E.
    induction n as [n IHn] using lt_wf_ind. intros s m E H.
    apply in_run_star in H as [[-> ->]|[m1 [mid [m2 [H1 [L [H2 ->]]]]]]].
    + split; [reflexivity|]. now exists [].
    + apply in_run_class in H1 as [c [-> [Hc ->]]].
      apply (IHn (length mid)) in H2 as [-> [w [-> Hw]]];
        [|simpl in E; lia|reflexivity].
      split; [reflexivity|]. exists (c :: w). simpl. now rewrite Hc, Hw.
  - intros [-> [w [-> Hw]]]. induction w as [|c w IH]; cbn [forallb app] in *.
    + apply in_run_star. now left.
    + apply andb_true_iff in Hw as [Hc Hw]. apply in_run_star. right.
      exists [], (w ++ rest), []. repeat split.
      * apply in_run_class. now exists c.
      * simpl. lia.
      * now apply IH.
Qed.

Lemma in_run_plus_class (p : ascii -> bool) (s : str) (m : captures)
    (rest : str) :
  In (m, rest) (run (Plus (Class p)) s) <->
  m = [] /\ exists c w, s = c :: w ++ rest /\ p c = true /\ forallb p w = true.
Proof.
  unfold Plus. rewrite in_run_seq. split.
  - intros [m1 [mid [m2 [H1 [H2 ->]]]]].
    apply in_run_class in H1 as [c [-> [Hc ->]]].
    apply in_run_star_class in H2 as [-> [w [-> Hw]]].
    split; [reflexivity|]. now exists c, w.
  - intros [-> [c [w [-> [Hc Hw]]]]]. exists [], (w ++ rest), [].
    repeat split.
    + apply in_run_class. now exists c.
    + apply in_run_star_class. split; [reflexivity|]. now exists w.
Qed.

Lemma in_run_at_most (p : ascii -> bool) (n : nat) :
  forall s m rest,
    In (m, rest) (run (at_most n (Class p)) s) <->
    m = [] /\ exists w, s = w ++ rest /\ length w <= n /\ forallb p w = true.
Proof.
  induction n as [|n IH]; intros s m rest; cbn [at_most].
  - cbn [run In]. split.
    + intros [[= <- <-]|[]]. split; [reflexivity|]. now exists [].
    + intros [-> [w [-> [L _]]]]. destruct w; [now left | simpl in L; lia].
  - rewrite in_run_opt, in_run_seq. split.
    + intros [[m1 [mid [m2 [H1 [H2 ->]]]]]|[= -> ->]].
      * apply in_run_class in H1 as [c [-> [Hc ->]]].
        apply IH in H2 as [-> [w [-> [L Hw]]]]. split; [reflexivity|].
        exists (c :: w). simpl. rewrite Hc, Hw. repeat split. lia.
      * split; [reflexivity|]. exists []. repeat split. simpl. lia.
    + intros [-> [[|c w] [-> [L Hw]]]]; [now right|]. left.
      simpl in Hw, L. apply andb_true_iff in Hw as [Hc Hw].
      exists [], (w ++ rest), []. repeat split.
      * apply in_run_class. now exists c.
      * apply IH. split; [reflexivity|]. exists w. repeat split; [lia|assumption].
Qed.

Lemma in_run_repeat (p : ascii -> bool) (lo more : nat) :
  forall s m rest,
    In (m, rest) (run (Repeat lo more (Class p)) s) <->
    m = [] /\ exists w, s = w ++ rest /\ lo <= length w <= lo + more /\
                        forallb p w = true.
Proof.
  induction lo as [|lo IH]; intros s m rest; cbn [Repeat].
  - rewrite in_run_at_most. split.
    + intros [-> [w [-> [L Hw]]]]. split; [reflexivity|]. exists w.
      repeat split; [lia|lia|assumption].
    + intros [-> [w [-> [L Hw]]]]. split; [reflexivity|]. exists w.
      repeat split; [lia|assumption].
  - rewrite in_run_seq. split.
    + intros [m1 [mid [m2 [H1 [H2 ->]]]]].
      apply in_run_class in H1 as [c [-> [Hc ->]]].
      apply IH in H2 as [-> [w [-> [L Hw]]]]. split; [reflexivity|].
      exists (c :: w). simpl. rewrite Hc, Hw. repeat split; lia.
    + intros [-> [[|c w] [-> [L Hw]]]]; [simpl in L; lia|].
      simpl in Hw, L. apply andb_true_iff in Hw as [Hc Hw].
      exists [], (w ++ rest), []. repeat split.
      * apply in_run_class. now exists c.
      * apply IH. split; [reflexivity|]. exists w.
        repeat split; [lia|lia|assumption].
Qed.

Lemma in_run_chr (c : ascii) (s : str) (m : captures) (rest : str) :
  In (m, rest) (run (Chr c) s) <-> s = c :: rest /\ m = [].
Proof.
  unfold Chr. rewrite in_run_class. split.
  - intros [c' [-> [E ->]]]. apply Ascii.eqb_eq in E as ->. now split.
  - intros [-> ->]. exists c. repeat split. apply Ascii.eqb_refl.
Qed.

Lemma re_match_some (r : regex) (s : str) :
  (exists x, re_match r s = Some x) <-> exists x, In x (run r s).
Proof.
  unfold re_match. destruct (run r s) as [|y l]; simpl.
  - split; intros [x H]; [discriminate | destruct H].
  - split; intros _; exists y; [now left | reflexivity].
Qed.

(** The pattern of [semver_regex] is the pattern of the specification. *)
Lemma semver_regex_spec (t : str) :
  (exists x, re_match semver_regex t = Some x) <-> semver_at_start t.
Proof.
  rewrite re_match_some. unfold semver_regex, semver_at_start, digit_group.
  split.
  - intros [[m rest] H].
    apply in_run_seq in H as [m1 [s1 [m1' [Ha [H _]]]]].
    apply in_run_seq in H as [m2 [s2 [m2' [Hd1 [H _]]]]].
    apply in_run_seq in H as [m3 [s3 [m3' [Hb [H _]]]]].
    apply in_run_seq in H as [m4 [s4 [m4' [Hd2 [Hc _]]]]].
    apply in_run_repeat in Ha as [_ [a [-> [La Ha]]]].
    apply in_run_chr in Hd1 as [-> _].
    apply in_run_repeat in Hb as [_ [b [-> [Lb Hb]]]].
    apply in_run_chr in Hd2 as [-> _].
    apply in_run_repeat in Hc as [_ [c [-> [Lc Hc]]]].
    exists a, b, c, rest. repeat split; try assumption; lia.
  - intros [a [b [c [rest [-> [[La Ha] [[Lb Hb] [Lc Hc]]]]]]]].
    assert (G : forall w tl, 1 <= length w <= 4 -> forallb is_digit w = true ->
                In ([], tl) (run (Repeat 1 3 (Class is_digit)) (w ++ tl))).
    { intros w tl L H. apply in_run_repeat. split; [reflexivity|]. exists w.
      repeat split; [lia|lia|assumption]. }
    eexists. eapply in_run_seq_intro; [now apply G|].
    eapply in_run_seq_intro; [now apply in_run_chr|].
    eapply in_run_seq_intro; [now apply G|].
    eapply in_run_seq_intro; [now apply in_run_chr|]. now apply G.
Qed.

(** ** [strip] *)

Lemma lstrip_spec (p : ascii -> bool) (s : str) :
  exists w, s = w ++ lstrip p s /\ forallb p w = true /\
            match lstrip p s with
            | c :: _ => p c = false
            | [] => True
            end.
Proof.
  induction s as [|c s [w [E [Hw Hc]]]]; simpl.
  - now exists [].
  - destruct (p c) eqn:Pc.
    + exists (c :: w). simpl. rewrite Pc, Hw. repeat split; [congruence|assumption].
    + now exists [].
Qed.

Lemma forallb_rev {A : Type} (p : A -> bool) (l : list A) :
  forallb p (rev l) = forallb p l.
Proof.
  induction l as [|a l IH]; simpl; [reflexivity|].
  rewrite forallb_app, IH. simpl. rewrite andb_true_r. apply andb_comm.
Qed.

Lemma strip_spec (chars title : str) :
  let p c := existsb (Ascii.eqb c) chars in
  let t := strip chars title in
  exists before after,
    title = before ++ t ++ after /\
    forallb p before = true /\ forallb p after = true /\
    match t with c :: _ => p c = false | [] => True end /\
    match rev t with c :: _ => p c = false | [] => True end.
Proof.
  intros p t. subst t. unfold strip. fold p.
  destruct (lstrip_spec p title) as [w1 [E1 [H1 F1]]].
  destruct (lstrip_spec p (rev (lstrip p title))) as [w2 [E2 [H2 F2]]].
  unfold rstrip. set (l := lstrip p title) in *.
  set (t := lstrip p (rev l)) in *.
  assert (El : l = rev t ++ rev w2).
  { rewrite <- rev_app_distr, <- E2. now rewrite rev_involutive. }
  exists w1, (rev w2). repeat split.
  - now rewrite <- El.
  - assumption.
  - now rewrite forallb_rev.
  - destruct (rev t) as [|c r] eqn:Er; [exact I|].
    rewrite El in F1. exact F1.
  - rewrite rev_involutive. exact F2.
Qed.

(** ** The v-prefix rule *)

(** The reading of C3 fails twice: every leading and trailing [v] is
    stripped, not one leading [v], and the candidate is the whole stripped
    title, not the matched text. *)
Lemma C3_counterexample :
  version_from_title NextCloudPlugin (py "vv1.2.3") = Ok (Some (py "1.2.3")) /\
  spec_semver_rule (py "vv1.2.3") = None /\
  version_from_title NextCloudPlugin (py "v1.2.3-final")
  = Ok (Some (py "1.2.3-final")) /\
  spec_semver_rule (py "v1.2.3-final") = Some (py "1.2.3").
Proof. repeat split. Qed.

(** C3, amended: [version_from_title] of the v-prefix variant strips every
    leading and every trailing [v] of the title and requires the pattern
    D{1,4}.D{1,4}.D{1,4} at position 0 of what is left; when it is there,
    the whole stripped title is the candidate, and when it is not, there
    is no candidate. *)
Theorem C3_semver_title (title : str) :
  let stripped := strip (py "v") title in
  (exists before after,
      title = before ++ stripped ++ after /\
      forallb is_v before = true /\ forallb is_v after = true /\
      match stripped with c :: _ => is_v c = false | [] => True end /\
      match rev stripped with c :: _ => is_v c = false | [] => True end) /\
  (semver_at_start stripped ->
   semver_version_from_title title = Ok (Some stripped)) /\
  (~ semver_at_start stripped -> semver_version_from_title title = Ok None).
Proof.
  intros stripped. split; [apply (strip_spec (py "v") title)|].
  unfold semver_version_from_title. fold stripped.
  destruct (re_match semver_regex stripped) as [x|] eqn:E.
  - split; [reflexivity|]. intros H. exfalso. apply H.
    apply semver_regex_spec. now exists x.
  - split; [|reflexivity]. intros H. apply semver_regex_spec in H as [x H].
    congruence.
Qed.

Lemma C3_semver_title_witness :
  semver_version_from_title (py "vv25.0.4-hotfix")
  = Ok (Some (py "25.0.4-hotfix")) /\
  semver_version_from_title (py "release 25.0.4") = Ok None.
Proof.
  split.
  - apply (C3_semver_title (py "vv25.0.4-hotfix")).
    exists (py "25"), (py "0"), (py "4"), (py "-hotfix").
    unfold digit_group. simpl. repeat split; lia.
  - apply (C3_semver_title (py "release 25.0.4")).
    intros [a [b [c [rest [E [[La Ha] _]]]]]].
    destruct a as [|x a]; [simpl in La; lia|].
    injection E as <- _. discriminate Ha.
Defined.

(** ** The order of versions *)

Section Orders.
Context {A B : Type} (cmpA : A -> A -> comparison)
        (cmpB : B -> B -> comparison).
Hypothesis (HA : order cmpA) (HB : order cmpB).

Lemma order_refl (a : A) : cmpA a a = Eq.
Proof. now apply (ord_eq _ HA). Qed.

Lemma order_gt_lt (a b : A) : cmpA a b = Gt <-> cmpA b a = Lt.
Proof.
  rewrite (ord_opp _ HA a b). destruct (cmpA a b); simpl; split; congruence.
Qed.

Lemma order_le_trans (a b c : A) :
  cmpA a b <> Gt -> cmpA b c <> Gt -> cmpA a c <> Gt.
Proof.
  intros H1 H2. destruct (cmpA a b) eqn:E1; [| |congruence].
  - apply (ord_eq _ HA) in E1 as ->. assumption.
  - destruct (cmpA b c) eqn:E2; [| |congruence].
    + apply (ord_eq _ HA) in E2 as <-. congruence.
    + rewrite (ord_trans _ HA a b c E1 E2). discriminate.
Qed.

Lemma pair_compare_order : order (pair_compare cmpA cmpB).
Proof.
  split.
  - intros [a b] [a' b']. unfold pair_compare, lex. simpl.
    destruct (cmpA a a') eqn:E.
    + apply (ord_eq _ HA) in E as ->. rewrite (ord_eq _ HB).
      split; congruence.
    + split; [discriminate|]. intros [= -> _].
      now rewrite order_refl in E.
    + split; [discriminate|]. intros [= -> _].
      now rewrite order_refl in E.
  - intros [a b] [a' b']. unfold pair_compare, lex. simpl.
    rewrite (ord_opp _ HA a a'), (ord_opp _ HB b b').
    now destruct (cmpA a a').
  - intros [a b] [a' b'] [a'' b'']. unfold pair_compare, lex. simpl.
    destruct (cmpA a a') eqn:E1; [| |discriminate].
    + apply (ord_eq _ HA) in E1 as ->.
      destruct (cmpA a' a'') eqn:E2; [|reflexivity|discriminate].
      apply (ord_trans _ HB).
    + intros _. destruct (cmpA a' a'') eqn:E2; [| |discriminate]; intros _.
      * apply (ord_eq _ HA) in E2 as <-. now rewrite E1.
      * now rewrite (ord_trans _ HA a a' a'' E1 E2).
Qed.

Lemma list_compare_order : order (list_compare cmpA).
Proof.
  split.
  - induction a as [|x a IH]; intros [|y b]; simpl;
      try (split; [discriminate|congruence]); [tauto|].
    unfold lex. destruct (cmpA x y) eqn:E.
    + apply (ord_eq _ HA) in E as ->. rewrite IH. split; congruence.
    + split; [discriminate|]. intros [= -> _]. now rewrite order_refl in E.
    + split; [discriminate|]. intros [= -> _]. now rewrite order_refl in E.
  - induction a as [|x a IH]; intros [|y b]; simpl; try reflexivity.
    rewrite (ord_opp _ HA x y), (IH b). unfold lex.
    now destruct (cmpA x y).
  - induction a as [|x a IH]; intros [|y b] [|z c]; simpl;
      try discriminate; try reflexivity.
    unfold lex. destruct (cmpA x y) eqn:E1; [| |discriminate].
    + apply (ord_eq _ HA) in E1 as ->.
      destruct (cmpA y z) eqn:E2; [|reflexivity|discriminate]. apply IH.
    + intros _. destruct (cmpA y z) eqn:E2; [| |discriminate]; intros _.
      * apply (ord_eq _ HA) in E2 as <-. now rewrite E1.
      * now rewrite (ord_trans _ HA x y z E1 E2).
Qed.

Lemma ext_compare_order : order (ext_compare cmpA).
Proof.
  split.
  - intros [|a|] [|b|]; simpl; try (split; [discriminate|congruence]);
      try tauto.
    rewrite (ord_eq _ HA). split; congruence.
  - intros [|a|] [|b|]; simpl; try reflexivity. apply (ord_opp _ HA).
  - intros [|a|] [|b|] [|c|]; simpl; try discriminate; try reflexivity.
    apply (ord_trans _ HA).
Qed.

Lemma order_map (f : B -> A) :
  (forall x y, f x = f y -> x = y) ->
  order (fun x y => cmpA (f x) (f y)).
Proof.
  intros Hf. split.
  - intros x y. rewrite (ord_eq _ HA). split; [apply Hf | congruence].
  - intros x y. apply (ord_opp _ HA).
  - intros x y z. apply (ord_trans _ HA).
Qed.
End Orders.

Lemma N_compare_order : order N.compare.
Proof.
  split.
  - apply N.compare_eq_iff.
  - intros a b. apply N.compare_antisym.
  - intros a b c. rewrite !N.compare_lt_iff. lia.
Qed.

Lemma char_compare_order : order char_compare.
Proof.
  apply (order_map N.compare N_compare_order code).
  intros x y H. unfold code in H.
  rewrite <- (ascii_N_embedding x), <- (ascii_N_embedding y). now f_equal.
Qed.

Lemma str_compare_order : order str_compare.
Proof. apply list_compare_order, char_compare_order. Qed.

Lemma letter_compare_order : order letter_compare.
Proof. apply pair_compare_order; [apply str_compare_order|apply N_compare_order]. Qed.

Lemma key_compare_order : order key_compare.
Proof.
  pose proof N_compare_order as HN.
  pose proof letter_compare_order as HL.
  pose proof str_compare_order as HS.
  assert (H : order
           (pair_compare N.compare
           (pair_compare (list_compare N.compare)
           (pair_compare (ext_compare letter_compare)
           (pair_compare (ext_compare letter_compare)
           (pair_compare (ext_compare letter_compare)
              (ext_compare (list_compare (pair_compare (ext_compare N.compare)
                                                       str_compare))))))))).
  { repeat first [ assumption | apply pair_compare_order
                   | apply ext_compare_order | apply list_compare_order ]. }
  apply (order_map _ H key_tuple).
  intros [] []. unfold key_tuple. simpl. congruence.
Qed.

Lemma Version_gt_false_trans (a b c : Version) :
  Version_gt a b = false -> Version_gt b c = false -> Version_gt a c = false.
Proof.
  unfold Version_gt, Version_compare. intros H1 H2.
  pose proof (order_le_trans key_compare key_compare_order
                (_cmpkey a) (_cmpkey b) (_cmpkey c)) as T.
  destruct (key_compare (_cmpkey a) (_cmpkey b));
    destruct (key_compare (_cmpkey b) (_cmpkey c)); try discriminate;
    destruct (key_compare (_cmpkey a) (_cmpkey c)); try reflexivity;
    exfalso; apply T; congruence.
Qed.

Lemma Version_gt_true_false (a b : Version) :
  Version_gt a b = true -> Version_gt b a = false.
Proof.
  unfold Version_gt, Version_compare.
  rewrite (ord_opp _ key_compare_order (_cmpkey a) (_cmpkey b)).
  now destruct (key_compare (_cmpkey a) (_cmpkey b)).
Qed.

Lemma Version_gt_irrefl (a : Version) : Version_gt a a = false.
Proof.
  unfold Version_gt, Version_compare.
  now rewrite (order_refl key_compare key_compare_order).
Qed.

(** [max] returns an element of the list that none of the list exceeds. *)
Lemma max_version_spec (rest : list Version) :
  forall first,
    In (max_version first rest) (first :: rest) /\
    forall x, In x (first :: rest) ->
              Version_gt x (max_version first rest) = false.
Proof.
  unfold max_version. induction rest as [|y rest IH]; intros first.
  - simpl. split; [now left|]. intros x [<-|[]]. apply Version_gt_irrefl.
  - cbn [fold_left]. destruct (IH (if Version_gt y first then y else first))
      as [Hin Hmax].
    set (m := fold_left _ rest _) in *. split.
    + destruct Hin as [E|Hin]; [|right; now right].
      destruct (Version_gt y first); rewrite <- E; [right|]; now left.
    + intros x [<-|[<-|Hx]].
      * destruct (Version_gt y first) eqn:E.
        -- apply Version_gt_false_trans with y.
           ++ now apply Version_gt_true_false.
           ++ apply Hmax. now left.
        -- apply Hmax. now left.
      * destruct (Version_gt y first) eqn:E.
        -- apply Hmax. now left.
        -- apply Version_gt_false_trans with first; [assumption|].
           apply Hmax. now left.
      * apply Hmax. now right.
Qed.

(** ** The run of a feed-based plugin *)

Lemma feed_plugins_total (self : GithubReleases) (title : str) :
  In self feed_plugins -> exists o, version_from_title self title = Ok o.
Proof.
  intros H. simpl in H.
  repeat (destruct H as [<-|H]; [|]); try destruct H;
    cbn [version_from_title SignalCliPlugin NextCloudPlugin RoundcubePlugin
         DolibarrPlugin HumhubPlugin FroxlorPlugin RainloopPlugin
         CyberchefPlugin ArangoDBPlugin GithubReleasesWithVPrefixAndSemVer];
    try (unfold semver_version_from_title;
         destruct (re_match _ _); eauto; fail);
    try (destruct (startswith _ title) eqn:E; eauto; fail);
    eauto.
  destruct (startswith (py "Froxlor ") title) eqn:E; [|eauto].
  apply startswith_iff in E as [rest ->].
  pose proof (froxlor_title rest) as F.
  cbn [version_from_title FroxlorPlugin] in F.
  rewrite startswith_app in F. eauto.
Qed.

Lemma collect_spec (self : GithubReleases) (entries : list str) :
  (forall title, exists o, version_from_title self title = Ok o) ->
  forall versions,
    collect self entries versions =
    bind (parse_all (candidates self entries))
         (fun vs => Ok (versions ++ vs)).
Proof.
  intros T. induction entries as [|title rest IH]; intros versions;
    cbn [collect candidates].
  - simpl. now rewrite app_nil_r.
  - unfold candidate. destruct (blocked title); [apply IH|].
    destruct (T title) as [o ->]. cbn [bind].
    destruct o as [[|c s]|]; cbn [truthy]; try apply IH.
    cbn [parse_all]. destruct (parse (c :: s)) as [v|e]; cbn [bind];
      [|reflexivity].
    rewrite IH. destruct (parse_all (candidates self rest)) as [vs|e];
      cbn [bind]; [|reflexivity].
    now rewrite <- app_assoc.
Qed.

Lemma GithubReleases_call_spec (self : GithubReleases) (titles : list str) :
  In self feed_plugins ->
  GithubReleases_call self (feed_of titles) =
  bind (parse_all (candidates self titles)) (fun vs => Ok (newest vs)).
Proof.
  intros H. unfold GithubReleases_call, feed_of. cbn [bind raise_for_status
    status_ok feed_entries].
  rewrite collect_spec by (intros t; now apply feed_plugins_total).
  now destruct (parse_all _).
Qed.

Lemma parse_all_raises (cs : list str) (e : exn) :
  parse_all cs = Raise e -> e = InvalidVersion.
Proof.
  induction cs as [|c cs IH]; simpl; [discriminate|].
  unfold parse at 1, Version_init.
  destruct (re_match Version_regex c) as [[m r]|]; cbn [bind].
  - destruct (parse_all cs); cbn [bind]; [discriminate|].
    intros [= <-]. now apply IH.
  - congruence.
Qed.

(** Where C1 fails as it is worded: no entry of the feed both passes the
    filter and parses, and the run raises instead of returning [None]. *)
Lemma C1_counterexample :
  blocked (py "nightly") = false /\
  version_from_title HumhubPlugin (py "nightly") = Ok (Some (py "nightly")) /\
  parse (py "nightly") = Raise InvalidVersion /\
  GithubReleases_call HumhubPlugin (feed_of [py "nightly"])
  = Raise InvalidVersion.
Proof. repeat split. Qed.

(** C1, amended: a feed-based run that returns a version returns the
    greatest, in the order of versions, of the versions parsed from
    exactly the entries that pass the filter and give a non-empty
    candidate; the run returns [None] when there is no such entry; and it
    raises [InvalidVersion] when one of these candidates does not parse. *)
Theorem C1_newest_release (self : GithubReleases) (titles : list str) :
  In self feed_plugins ->
  (forall s,
      GithubReleases_call self (feed_of titles) = Ok (Some s) ->
      exists vs v,
        parse_all (candidates self titles) = Ok vs /\
        In v vs /\ (forall w, In w vs -> Version_gt w v = false) /\
        s = Version_str v) /\
  (candidates self titles = [] ->
   GithubReleases_call self (feed_of titles) = Ok None) /\
  (forall e,
      parse_all (candidates self titles) = Raise e ->
      e = InvalidVersion /\
      GithubReleases_call self (feed_of titles) = Raise InvalidVersion).
Proof.
  intros H. rewrite (GithubReleases_call_spec self titles H).
  split; [|split].
  - intros s. destruct (parse_all (candidates self titles)) as [vs|e];
      cbn [bind]; [|discriminate].
    destruct vs as [|v vs]; cbn [newest]; [discriminate|].
    intros [= <-]. exists (v :: vs), (max_version v vs).
    destruct (max_version_spec vs v) as [Hin Hmax]. auto.
  - now intros ->.
  - intros e E. pose proof (parse_all_raises _ _ E) as ->. now rewrite E.
Qed.

Lemma C1_newest_release_witness :
  GithubReleases_call SignalCliPlugin
    (feed_of [py "Version 1.2.3"; py "Version 1.3.0-beta"; py "Version 1.2.9"])
  = Ok (Some (py "1.2.9")) /\
  GithubReleases_call SignalCliPlugin (feed_of [py "v0.8.1"; py "Version 1 rc"])
  = Ok None.
Proof.
  split; [reflexivity|].
  apply (C1_newest_release SignalCliPlugin
           [py "v0.8.1"; py "Version 1 rc"]).
  - simpl. tauto.
  - reflexivity.
Defined.

(** ** Titles without digits *)

(** A version has a release, and a release starts with a digit. *)
Lemma Version_regex_digit (s : str) (m : captures) (rest : str) :
  In (m, rest) (run Version_regex s) ->
  exists c, In c s /\ is_digit c = true.
Proof.
  unfold Version_regex, VERSION_PATTERN. intros H.
  apply in_run_seq in H as [m0 [s0 [m0' [H0 [H _]]]]].
  apply in_run_seq in H as [m1 [s4 [m1' [H _]]]].
  apply in_run_seq in H as [m2 [s1 [m2' [H1 [H _]]]]].
  apply in_run_seq in H as [m3 [s2 [m3' [H2 [H _]]]]].
  apply in_run_seq in H as [m4 [s3 [m4' [H3 _]]]].
  apply in_run_group in H3 as [m5 [H3 _]].
  apply in_run_seq in H3 as [m6 [s5 [m6' [H3 _]]]].
  apply in_run_plus_class in H3 as [_ [c [w [-> [Hc _]]]]].
  apply run_suffix in H0 as [w0 ->], H1 as [w1 ->], H2 as [w2 ->].
  exists c. split; [|assumption].
  rewrite !in_app_iff. right. right. right. now left.
Qed.

Lemma parse_needs_digit (s : str) :
  no_digit s -> parse s = Raise InvalidVersion.
Proof.
  intros H. unfold parse, Version_init, re_match.
  destruct (run Version_regex s) as [|[m rest] l] eqn:E; [reflexivity|].
  exfalso. destruct (Version_regex_digit s m rest) as [c [Hin Hc]].
  - rewrite E. now left.
  - rewrite (H c Hin) in Hc. discriminate.
Qed.

Lemma semver_no_digit (title : str) :
  no_digit title -> semver_version_from_title title = Ok None.
Proof.
  intros H. destruct (strip_spec (py "v") title) as [b [a [E _]]].
  unfold semver_version_from_title.
  destruct (re_match semver_regex (strip (py "v") title)) as [x0|] eqn:M;
    [|reflexivity].
  exfalso. assert (S : semver_at_start (strip (py "v") title))
    by (apply semver_regex_spec; now exists x0).
  destruct S as [x [y [z [rest [E' [[L D] _]]]]]].
  destruct x as [|c x]; [simpl in L; lia|].
  simpl in D. apply andb_true_iff in D as [D _].
  rewrite (H c) in D; [discriminate|].
  rewrite E, E'. rewrite !in_app_iff. right. left. left. now left.
Qed.

Lemma incl_skipn {A : Type} (n : nat) (l : list A) : incl (skipn n l) l.
Proof.
  intros x H. rewrite <- (firstn_skipn n l). apply in_or_app. now right.
Qed.

Lemma incl_upto_space (s : str) : incl (upto_space s) s.
Proof.
  induction s as [|c s IH]; simpl; [easy|].
  destruct (Ascii.eqb " " c); [easy|].
  intros x [<-|H]; [now left | right; now apply IH].
Qed.

(** A candidate is made of characters of the title. *)
Lemma candidate_incl (self : GithubReleases) (title c : str) :
  In self feed_plugins -> candidate self title = Some c -> incl c title.
Proof.
  intros H. unfold candidate. destruct (blocked title); [discriminate|].
  assert (S : forall o, semver_version_from_title title = o ->
                        match o with Ok (Some (x :: s)) => Some (x :: s)
                                | _ => None end = Some c -> incl c title).
  { intros o <-. unfold semver_version_from_title.
    destruct (re_match _ _); [|discriminate].
    destruct (strip (py "v") title) as [|x s] eqn:E; [discriminate|].
    intros [= <-]. rewrite <- E.
    destruct (strip_spec (py "v") title) as [b [a [Et _]]].
    intros y Hy. rewrite Et. apply in_or_app. right. apply in_or_app.
    now left. }
  simpl in H.
  repeat (destruct H as [<-|H]; [|]); try destruct H;
    cbn [version_from_title SignalCliPlugin NextCloudPlugin RoundcubePlugin
         DolibarrPlugin HumhubPlugin FroxlorPlugin RainloopPlugin
         CyberchefPlugin ArangoDBPlugin GithubReleasesWithVPrefixAndSemVer];
    try (apply S; reflexivity).
  - destruct (startswith _ title); [|discriminate].
    destruct (skipn 8 title) as [|x s] eqn:E; [discriminate|].
    intros [= <-]. rewrite <- E. apply incl_skipn.
  - destruct (startswith _ title); [|discriminate].
    destruct (skipn 18 title) as [|x s] eqn:E; [discriminate|].
    intros [= <-]. rewrite <- E. apply incl_skipn.
  - destruct title; [discriminate|]. intros [= <-]. apply incl_refl.
  - destruct title; [discriminate|]. intros [= <-]. apply incl_refl.
  - destruct (startswith (py "Froxlor ") title) eqn:E; [|discriminate].
    apply startswith_iff in E as [rest ->].
    pose proof (froxlor_title rest) as F.
    cbn [version_from_title FroxlorPlugin] in F.
    rewrite startswith_app in F. rewrite F.
    destruct (upto_space rest) as [|x s] eqn:E; [discriminate|].
    intros [= <-]. rewrite <- E. intros y Hy. apply in_or_app. right.
    now apply incl_upto_space.
Qed.

Lemma semver_candidate_no_digit (self : GithubReleases) (title : str) :
  In self semver_plugins -> no_digit title -> candidate self title = None.
Proof.
  intros H N. unfold candidate. destruct (blocked title); [reflexivity|].
  simpl in H.
  repeat (destruct H as [<-|H]; [|]); try destruct H;
    cbn [version_from_title NextCloudPlugin RainloopPlugin CyberchefPlugin
         ArangoDBPlugin GithubReleasesWithVPrefixAndSemVer];
    now rewrite semver_no_digit.
Qed.

Lemma candidates_app (self : GithubReleases) (before after : list str) :
  candidates self (before ++ after)
  = candidates self before ++ candidates self after.
Proof.
  induction before as [|t before IH]; simpl; [reflexivity|].
  destruct (candidate self t); simpl; now rewrite IH.
Qed.

Lemma parse_all_app_raise (cb ca : list str) (c : str) :
  parse c = Raise InvalidVersion ->
  exists e, parse_all (cb ++ c :: ca) = Raise e.
Proof.
  intros H. induction cb as [|x cb [e IH]]; simpl.
  - rewrite H. now exists InvalidVersion.
  - destruct (parse x) as [v|e']; cbn [bind]; [|now exists e'].
    rewrite IH. now exists e.
Qed.

(** Where C2 fails: a title without digits that dolibarr takes as it is
    makes the run raise, where the run without it returns a version. *)
Lemma C2_counterexample :
  GithubReleases_call DolibarrPlugin (feed_of [py "13.0.1"; py "unstable"])
  = Raise InvalidVersion /\
  GithubReleases_call DolibarrPlugin (feed_of [py "13.0.1"])
  = Ok (Some (py "13.0.1")).
Proof. split; reflexivity. Qed.

(** C2, amended: a title without digits is left out of the selection,
    raising nothing, when it gives no candidate: always under the v-prefix
    rule, and under the other rules when the filter blocks it or the rule
    gives nothing or the empty string.  When it does give a candidate (the
    title itself for dolibarr and humhub, what follows the prefix for
    signal-cli, roundcube and froxlor), the candidate does not parse and
    the run raises [InvalidVersion]. *)
Theorem C2_digit_free_titles (self : GithubReleases) (title : str)
    (before after : list str) (versions : list Version) :
  In self feed_plugins -> no_digit title ->
  (In self semver_plugins -> candidate self title = None) /\
  (candidate self title = None ->
   collect self (before ++ title :: after) versions
   = collect self (before ++ after) versions) /\
  (forall c, candidate self title = Some c ->
             parse c = Raise InvalidVersion /\
             collect self (before ++ title :: after) versions
             = Raise InvalidVersion).
Proof.
  intros H N. split; [|split].
  - intros S. now apply semver_candidate_no_digit.
  - intros C. rewrite !collect_spec
      by (intros t; now apply feed_plugins_total).
    rewrite !candidates_app. cbn [candidates]. now rewrite C.
  - intros c C.
    assert (P : parse c = Raise InvalidVersion).
    { apply parse_needs_digit. intros x Hx. apply N.
      now apply (candidate_incl self title c H C). }
    split; [assumption|].
    rewrite collect_spec by (intros t; now apply feed_plugins_total).
    rewrite candidates_app. cbn [candidates]. rewrite C.
    destruct (parse_all_app_raise (candidates self before)
                (candidates self after) c P) as [e E].
    rewrite E. cbn [bind]. f_equal. now apply parse_all_raises in E.
Qed.

Lemma C2_digit_free_titles_witness :
  collect NextCloudPlugin ([py "v25.0.3"] ++ py "nightly" :: [py "v25.0.4"]) []
  = collect NextCloudPlugin ([py "v25.0.3"] ++ [py "v25.0.4"]) [] /\
  collect HumhubPlugin ([py "1.8.0"] ++ py "nightly" :: [py "1.8.1"]) []
  = Raise InvalidVersion.
Proof.
  assert (N : no_digit (py "nightly")).
  { intros c H. simpl in H.
    repeat (destruct H as [<-|H]; [reflexivity|]). destruct H. }
  split.
  - destruct (C2_digit_free_titles NextCloudPlugin (py "nightly")
                [py "v25.0.3"] [py "v25.0.4"] []) as [S [Skip _]];
      [simpl; tauto | exact N |].
    apply Skip, S. simpl. tauto.
  - destruct (C2_digit_free_titles HumhubPlugin (py "nightly")
                [py "1.8.0"] [py "1.8.1"] []) as [_ [_ R]];
      [simpl; tauto | exact N |].
    now apply (R (py "nightly")).
Defined.

(** ** The aggregation *)

Lemma dict_get_set {V : Type} (d : dict V) (k k' : str) (v : V) :
  dict_get (dict_set d k v) k' = if str_eqb k' k then Some v else dict_get d k'.
Proof.
  induction d as [|[k0 v0] d IH]; simpl.
  - reflexivity.
  - destruct (str_eqb k k0) eqn:E; simpl.
    + apply str_eqb_eq in E as ->. now destruct (str_eqb k' k0).
    + destruct (str_eqb k' k0) eqn:E'; [|apply IH].
      apply str_eqb_eq in E' as ->.
      destruct (str_eqb k0 k) eqn:E''; [|reflexivity].
      apply str_eqb_eq in E'' as ->. now rewrite str_eqb_refl in E.
Qed.

Lemma aggregate_ext (plugins : list VersionPlugin) (net1 net2 : Network) :
  (forall p, In p plugins -> call p net1 = call p net2) ->
  forall d, aggregate plugins net1 d = aggregate plugins net2 d.
Proof.
  induction plugins as [|p plugins IH]; intros H d; simpl; [reflexivity|].
  rewrite (H p) by now left. destruct (call p net2); simpl; [|reflexivity].
  apply IH. intros q Hq. apply H. now right.
Qed.

Lemma aggregate_ok (plugins : list VersionPlugin) (net : Network) :
  forall d,
    (exists d', aggregate plugins net d = Ok d') <->
    (forall p, In p plugins -> exists v, call p net = Ok v).
Proof.
  induction plugins as [|p plugins IH]; intros d; simpl.
  - split; [intros _ p [] | intros _; now exists d].
  - destruct (call p net) as [v|e] eqn:E; cbn [bind].
    + rewrite IH. split.
      * intros H q [<-|Hq]; [now exists v | now apply H].
      * intros H q Hq. apply H. now right.
    + split; [intros [d' H]; discriminate|].
      intros H. destruct (H p) as [v Hv]; [now left | congruence].
Qed.

Lemma aggregate_get (plugins : list VersionPlugin) (net : Network) :
  NoDup (map software_name plugins) ->
  forall d d' name,
    aggregate plugins net d = Ok d' ->
    (forall p, In p plugins -> software_name p = name ->
               call p net = Ok match dict_get d' name with
                               | Some v => v
                               | None => None
                               end /\ dict_get d' name <> None) /\
    ((forall p, In p plugins -> software_name p <> name) ->
     dict_get d' name = dict_get d name).
Proof.
  induction plugins as [|p0 plugins IH]; intros ND d d' name; simpl.
  - intros [= <-]. split; [intros p []|reflexivity].
  - inversion ND as [|? ? Hnotin ND']; subst.
    destruct (call p0 net) as [v0|e] eqn:E; cbn [bind]; [|discriminate].
    intros A. destruct (IH ND' _ d' name A) as [IH1 IH2]. split.
    + intros p [<-|Hp] Hname; [|now apply IH1].
      rewrite IH2.
      * subst name. rewrite dict_get_set, str_eqb_refl. split; congruence.
      * intros q Hq Eq. apply Hnotin. rewrite Hname, <- Eq.
        now apply in_map.
    + intros H. rewrite IH2.
      * rewrite dict_get_set. destruct (str_eqb name (software_name p0)) eqn:Eq;
          [|reflexivity].
        apply str_eqb_eq in Eq. exfalso. apply (H p0); [now left|congruence].
      * intros q Hq. apply H. now right.
Qed.

Lemma named_dec (plugins : list VersionPlugin) (name : str) :
  (exists p, In p plugins /\ software_name p = name) \/
  (forall p, In p plugins -> software_name p <> name).
Proof.
  induction plugins as [|p plugins [[q [Hq E]]|IH]].
  - right. intros p [].
  - left. exists q. split; [now right|assumption].
  - destruct (list_eq_dec ascii_dec (software_name p) name) as [E|E].
    + left. exists p. split; [now left|assumption].
    + right. intros q [<-|Hq]; [assumption|now apply IH].
Qed.

Lemma aggregate_permutation (plugins plugins' : list VersionPlugin)
    (net : Network) :
  NoDup (map software_name plugins) -> Permutation plugins plugins' ->
  same_outcome (aggregate plugins net []) (aggregate plugins' net []).
Proof.
  intros ND P. unfold same_outcome.
  assert (ND' : NoDup (map software_name plugins')).
  { eapply Permutation_NoDup; [|exact ND]. now apply Permutation_map. }
  destruct (aggregate plugins net []) as [d1|e1] eqn:E1;
    destruct (aggregate plugins' net []) as [d2|e2] eqn:E2; try exact I.
  - intros name.
    destruct (aggregate_get plugins net ND [] d1 name E1) as [A1 B1].
    destruct (aggregate_get plugins' net ND' [] d2 name E2) as [A2 B2].
    destruct (named_dec plugins name) as [[p [Hp Hn]]|H].
    + destruct (A1 p Hp Hn) as [C1 N1].
      destruct (A2 p (Permutation_in _ P Hp) Hn) as [C2 N2].
      rewrite C1 in C2. injection C2 as C2.
      destruct (dict_get d1 name), (dict_get d2 name); congruence.
    + rewrite B1, B2; [reflexivity| |assumption].
      intros p Hp. apply H. apply Permutation_in with plugins'; [|assumption].
      now apply Permutation_sym.
  - assert (O : exists d', aggregate plugins net [] = Ok d') by now exists d1.
    pose proof (proj1 (aggregate_ok plugins net []) O) as O1. clear O.
    rename O1 into O.
    assert (O' : exists d', aggregate plugins' net [] = Ok d').
    { apply (proj2 (aggregate_ok plugins' net [])). intros p Hp. apply O.
      apply Permutation_in with plugins'; [now apply Permutation_sym|assumption]. }
    destruct O' as [d' O']. congruence.
  - assert (O : exists d', aggregate plugins' net [] = Ok d') by now exists d2.
    pose proof (proj1 (aggregate_ok plugins' net []) O) as O1. clear O.
    rename O1 into O.
    assert (O' : exists d', aggregate plugins net [] = Ok d').
    { apply (proj2 (aggregate_ok plugins net [])). intros p Hp. apply O.
      now apply Permutation_in with plugins. }
    destruct O' as [d' O']. congruence.
Qed.

Lemma GithubReleases_call_ext (self : GithubReleases) (net1 net2 : Network) :
  net1 (releases_url self) = net2 (releases_url self) ->
  GithubReleases_call self net1 = GithubReleases_call self net2.
Proof. unfold GithubReleases_call. now intros ->. Qed.

Lemma registry_names : NoDup (map software_name registry).
Proof.
  repeat constructor; simpl;
    repeat (intros [H|H]; [discriminate H| revert H]); intros [].
Qed.

Lemma most_recent_ext (net1 net2 : Network) :
  (forall url, In url registry_urls -> net1 url = net2 url) ->
  most_recent net1 = most_recent net2.
Proof.
  intros H. unfold most_recent. apply aggregate_ext. intros p Hp.
  unfold registry in Hp. cbn [In] in Hp.
  repeat (destruct Hp as [<-|Hp];
          [try (apply GithubReleases_call_ext; apply H; simpl; tauto)|]).
  - cbn [call WordpressPlugin]. unfold WordpressPlugin_call.
    rewrite (H stable_check_url); [reflexivity | now left].
  - destruct Hp.
Qed.

(** C8: the aggregate is a function of the answers to the URLs of the
    registry and of nothing else: two runs against networks that answer
    these URLs alike give the same result, and calling the plugins in
    another order gives the same mapping (or fails as well). *)
Theorem C8_aggregate_deterministic (net1 net2 : Network)
    (plugins : list VersionPlugin) :
  (forall url, In url registry_urls -> net1 url = net2 url) ->
  Permutation registry plugins ->
  most_recent net1 = most_recent net2 /\
  same_outcome (most_recent net1) (aggregate plugins net2 []).
Proof.
  intros H P. split; [now apply most_recent_ext|].
  rewrite (most_recent_ext net1 net2 H). unfold most_recent.
  apply aggregate_permutation; [apply registry_names | assumption].
Qed.

Lemma C8_aggregate_deterministic_witness :
  most_recent sample_net = most_recent sample_net' /\
  same_outcome (most_recent sample_net)
               (aggregate (rev registry) sample_net' []).
Proof.
  apply (C8_aggregate_deterministic sample_net sample_net' (rev registry)).
  - intros url H. unfold sample_net, sample_net'.
    assert (E : existsb (str_eqb url) registry_urls = true).
    { apply existsb_exists. exists url. split; [assumption|].
      apply str_eqb_refl. }
    now rewrite E.
  - apply Permutation_rev.
Defined.

(** ** Decimal numbers *)

Lemma digit_cases (c : ascii) :
  is_digit c = true ->
  In c (py "0123456789").
Proof.
  destruct c as [[] [] [] [] [] [] [] []]; intros H;
    try discriminate H; simpl; tauto.
Qed.

Lemma string_of_uint_digits (d : Decimal.uint) :
  forallb is_digit
    (list_ascii_of_string (DecimalString.NilEmpty.string_of_uint d)) = true.
Proof. induction d; simpl; auto. Qed.

Lemma str_of_int_digits (n : N) : forallb is_digit (str_of_int n) = true.
Proof. apply string_of_uint_digits. Qed.

Lemma str_of_int_cons (n : N) :
  exists d ds, str_of_int n = d :: ds /\ is_digit d = true /\
               forallb is_digit ds = true.
Proof.
  pose proof (str_of_int_digits n) as H. unfold str_of_int in *.
  destruct (N.to_uint n) as [|u|u|u|u|u|u|u|u|u|u] eqn:E; simpl in *;
    try (eexists _, _; split; [reflexivity|]; split; [reflexivity|exact H]).
  exfalso. destruct n as [|p]; simpl in E; [discriminate|].
  now apply (DecimalPos.Unsigned.to_uint_nonnil p).
Qed.

Lemma int_str_of_int (n : N) : int (str_of_int n) = n.
Proof.
  unfold int, str_of_int. rewrite string_of_list_ascii_of_string.
  rewrite DecimalString.NilEmpty.usu. apply DecimalN.Unsigned.of_to.
Qed.

(** ** Matching a printed version *)

Lemma in_run_opt_some (r : regex) (s : str) (x : captures * str) :
  In x (run r s) -> In x (run (Opt r) s).
Proof. intros H. apply in_run_opt. now left. Qed.

Lemma in_run_opt_none (r : regex) (s : str) : In ([], s) (run (Opt r) s).
Proof. apply in_run_opt. now right. Qed.

Lemma in_run_group_intro (g : group) (r : regex) (w rest : str)
    (m : captures) :
  In (m, rest) (run r (w ++ rest)) ->
  In ((g, w) :: m, rest) (run (Group g r) (w ++ rest)).
Proof.
  intros H. apply in_run_group. exists m. split; [assumption|].
  now rewrite firstn_consumed.
Qed.

Lemma in_run_group_inv (g : group) (r : regex) (s : str) (m : captures)
    (rest : str) :
  In (m, rest) (run (Group g r) s) ->
  exists m1 w, In (m1, rest) (run r s) /\ s = w ++ rest /\ m = (g, w) :: m1.
Proof.
  intros H. apply in_run_group in H as [m1 [H ->]].
  destruct (run_suffix _ _ _ _ H) as [w ->]. exists m1, w.
  now rewrite firstn_consumed.
Qed.

Lemma no_groups_nil (r : regex) :
  no_groups r = true ->
  forall s m rest, In (m, rest) (run r s) -> m = [].
Proof.
  induction r as [|p|r1 IH1 r2 IH2|r1 IH1 r2 IH2|r IH|r IH|g r IH|];
    cbn [no_groups]; intros G s m rest H;
    try (apply andb_true_iff in G as [G1 G2]).
  - destruct H as [[= <- _]|[]]. reflexivity.
  - now apply in_run_class in H as [c [_ [_ ->]]].
  - apply in_run_seq in H as [m1 [mid [m2 [H1 [H2 ->]]]]].
    now rewrite (IH1 G1 _ _ _ H1), (IH2 G2 _ _ _ H2).
  - apply in_run_alt in H as [H|H]; eauto.
  - apply in_run_opt in H as [H|[= -> _]]; eauto.
  - remember (length s) as n eqn:E. revert s m rest E H.
    induction n as [n IHn] using lt_wf_ind. intros s m rest E H.
    apply in_run_star in H as [[-> _]|[m1 [mid [m2 [H1 [L [H2 ->]]]]]]];
      [reflexivity|].
    rewrite (IH G _ _ _ H1).
    rewrite (IHn (length mid)) with (s := mid) (m := m2) (rest := rest);
      [reflexivity|lia|reflexivity|assumption].
  - discriminate.
  - now apply in_run_eos in H as [-> _].
Qed.

Lemma in_run_digits (s : str) (m : captures) (rest : str) :
  In (m, rest) (run digits s) <->
  m = [] /\ exists ds, ds <> [] /\ s = ds ++ rest /\
                       forallb is_digit ds = true.
Proof.
  unfold digits. rewrite in_run_plus_class. split.
  - intros [-> [c [w [-> [Hc Hw]]]]]. split; [reflexivity|].
    exists (c :: w). repeat split; [discriminate|]. simpl. now rewrite Hc.
  - intros [-> [[|c w] [N [-> H]]]]; [congruence|]. simpl in H.
    apply andb_true_iff in H as [Hc Hw]. split; [reflexivity|].
    now exists c, w.
Qed.

Lemma span_eq (p : ascii -> bool) (ds1 : str) :
  forall ds2 t1 t2,
    ds1 ++ t1 = ds2 ++ t2 ->
    forallb p ds1 = true -> forallb p ds2 = true ->
    stops p t1 -> stops p t2 -> ds1 = ds2 /\ t1 = t2.
Proof.
  induction ds1 as [|c ds1 IH]; intros [|c' ds2] t1 t2 E H1 H2 S1 S2;
    simpl in *.
  - now split.
  - subst t1. simpl in S1. apply andb_true_iff in H2 as [H2 _]. congruence.
  - subst t2. simpl in S2. apply andb_true_iff in H1 as [H1 _]. congruence.
  - injection E as -> E. apply andb_true_iff in H1 as [_ H1].
    apply andb_true_iff in H2 as [_ H2].
    destruct (IH ds2 t1 t2 E H1 H2 S1 S2) as [-> ->]. now split.
Qed.

(** Re-bracketing a sequence changes neither the matches nor their order
    of captures. *)
Lemma in_run_seq_assoc (a b c : regex) (s : str) (x : captures * str) :
  In x (run (Seq (Seq a b) c) s) <-> In x (run (Seq a (Seq b c)) s).
Proof.
  destruct x as [m rest]. rewrite !in_run_seq. split.
  - intros [m1 [mid [m2 [H1 [H2 ->]]]]].
    apply in_run_seq in H1 as [ma [mid' [mb [Ha [Hb ->]]]]].
    exists ma, mid', (m2 ++ mb). repeat split; [assumption| |apply app_assoc].
    apply in_run_seq. now exists mb, mid, m2.
  - intros [ma [mid' [m2 [Ha [H2 ->]]]]].
    apply in_run_seq in H2 as [mb [mid [mc [Hb [Hc ->]]]]].
    exists (mb ++ ma), mid, mc. repeat split;
      [|assumption|symmetry; apply app_assoc].
    apply in_run_seq. now exists ma, mid', mb.
Qed.

Lemma in_run_seq_congr (a b b' : regex) :
  (forall s x, In x (run b s) <-> In x (run b' s)) ->
  forall s x, In x (run (Seq a b) s) <-> In x (run (Seq a b') s).
Proof.
  intros H s [m rest]. rewrite !in_run_seq.
  split; intros [m1 [mid [m2 [H1 [H2 ->]]]]]; exists m1, mid, m2;
    repeat split; try assumption; now apply H.
Qed.

Lemma Version_chain_iff (s : str) (x : captures * str) :
  In x (run Version_regex s) <-> In x (run Version_chain s).
Proof.
  unfold Version_regex, Version_chain, VERSION_PATTERN, tail_epoch,
    tail_release, tail_pre, tail_post, tail_dev, tail_local.
  fold End_re. revert s x.
  apply in_run_seq_congr. intros s x. rewrite in_run_seq_assoc. revert s x.
  apply in_run_seq_congr. intros s x. rewrite in_run_seq_assoc. revert s x.
  apply in_run_seq_congr. intros s x. rewrite in_run_seq_assoc. revert s x.
  apply in_run_seq_congr. intros s x. rewrite in_run_seq_assoc. revert s x.
  apply in_run_seq_congr. intros s x. rewrite in_run_seq_assoc. revert s x.
  apply in_run_seq_congr. intros s x. rewrite in_run_seq_assoc. revert s x.
  apply in_run_seq_congr. intros s x. reflexivity.
Qed.

(** Where the rest of the pattern cannot start. *)

Ltac dead := intros; vm_compute; reflexivity.

Ltac dead_digit :=
  let H := fresh in
  intros ? ? H; apply digit_cases in H; simpl in H;
  repeat (destruct H as [<-|H]; [vm_compute; reflexivity|]); destruct H.

Lemma End_dead (c : ascii) (y : str) :
  is_space c = false -> run End_re (c :: y) = [].
Proof.
  intros H. destruct c as [[] [] [] [] [] [] [] []]; try discriminate H;
    vm_compute; reflexivity.
Qed.

Lemma tail_local_digit c y : is_digit c = true -> run tail_local (c :: y) = [].
Proof. revert c y. dead_digit. Qed.

Lemma tail_dev_digit c y : is_digit c = true -> run tail_dev (c :: y) = [].
Proof. revert c y. dead_digit. Qed.

Lemma tail_post_digit c y : is_digit c = true -> run tail_post (c :: y) = [].
Proof. revert c y. dead_digit. Qed.

Lemma tail_pre_digit c y : is_digit c = true -> run tail_pre (c :: y) = [].
Proof. revert c y. dead_digit. Qed.

Lemma tail_pre_dot_digit c y :
  is_digit c = true -> run tail_pre ("."%char :: c :: y) = [].
Proof. revert c y. dead_digit. Qed.

Lemma tail_pre_bang y : run tail_pre ("!"%char :: y) = [].
Proof. dead. Qed.

Lemma End_plus y : run End_re ("+"%char :: y) = [].
Proof. dead. Qed.

Lemma tail_local_dot_d y : run tail_local ("."%char :: "d"%char :: y) = [].
Proof. dead. Qed.

Lemma tail_dev_dot_p y : run tail_dev ("."%char :: "p"%char :: y) = [].
Proof. dead. Qed.

Lemma tail_post_a y : run tail_post ("a"%char :: y) = [].
Proof. dead. Qed.

Lemma tail_post_b y : run tail_post ("b"%char :: y) = [].
Proof. dead. Qed.

Lemma tail_post_rc y : run tail_post ("r"%char :: "c"%char :: y) = [].
Proof. dead. Qed.

Lemma digit_not_sep c : is_digit c = true -> is_sep c = false.
Proof.
  intros H. apply digit_cases in H. simpl in H.
  repeat (destruct H as [<-|H]; [reflexivity|]). destruct H.
Qed.

Lemma digit_not_space c : is_digit c = true -> is_space c = false.
Proof.
  intros H. apply digit_cases in H. simpl in H.
  repeat (destruct H as [<-|H]; [reflexivity|]). destruct H.
Qed.

Lemma lower_alnum_not_space c : is_lower_alnum c = true -> is_space c = false.
Proof.
  destruct c as [[] [] [] [] [] [] [] []]; intros H; try discriminate H;
    reflexivity.
Qed.

(** A printed number, then [T] which cannot start with a digit. *)
Lemma number_printed (gn : group) (n : N) (X : str) (T : regex)
    (m1 : captures) (s' : str) (m2 : captures) (rest : str) :
  (forall d y, is_digit d = true -> run T (d :: y) = []) ->
  stops is_digit X ->
  In (m1, s') (run (Opt (Group gn digits)) (str_of_int n ++ X)) ->
  In (m2, rest) (run T s') ->
  m1 = [(gn, str_of_int n)] /\ s' = X.
Proof.
  intros HT SX H1 H2.
  assert (S' : stops is_digit s').
  { destruct s' as [|c y]; [exact I|]. simpl.
    destruct (is_digit c) eqn:E; [|reflexivity].
    rewrite (HT c y E) in H2. destruct H2. }
  apply in_run_opt in H1 as [H1|[= E1 E2]].
  2:{ subst m1 s'. destruct (str_of_int_cons n) as [d [ds [E [D _]]]].
      rewrite E in S'. simpl in S'. congruence. }
  - apply in_run_group_inv in H1 as [mi [w [H1 [E ->]]]].
    apply in_run_digits in H1 as [-> [ds [_ [E' D]]]].
    rewrite E' in E. apply app_inv_tail in E. subst w.
    destruct (span_eq is_digit (str_of_int n) ds X s' E'
                (str_of_int_digits n) D SX S') as [<- <-]. now split.
Qed.

(** A printed letter and number: an optional dot, the letters, the
    number.  [T] is what follows in the pattern. *)
Lemma letter_number_printed (gl gn : group) (letters : regex)
    (dot word : str) (n : N) (X : str) (T : regex)
    (m : captures) (s' : str) (m2 : captures) (rest : str) :
  no_groups letters = true ->
  (dot = [] /\ match word with c :: _ => is_sep c = false | [] => False end) \/
  (dot = py "." /\ forall y, run letters ("."%char :: y) = []) ->
  (forall d y, is_digit d = true ->
               run letters (word ++ d :: y) = [([], d :: y)]) ->
  (forall d y, is_digit d = true -> run T (d :: y) = []) ->
  stops is_digit X ->
  In (m, s') (run (letter_number gl letters gn)
                  (dot ++ word ++ str_of_int n ++ X)) ->
  In (m2, rest) (run T s') ->
  m = [(gn, str_of_int n); (gl, word)] /\ s' = X.
Proof.
  intros NG Hdot HL HT SX H H2. unfold letter_number in H.
  destruct (str_of_int_cons n) as [d [ds [En [Dd Dds]]]].
  apply in_run_seq in H as [ms1 [s1 [mr [Hs1 [H ->]]]]].
  apply in_run_seq in H as [ml [s2 [mr2 [Hl [H ->]]]]].
  apply in_run_seq in H as [ms2 [s3 [mn [Hs2 [Hn ->]]]]].
  apply in_run_group_inv in Hl as [mi [w [Hl [Ew ->]]]].
  assert (E1 : ms1 = [] /\ s1 = word ++ str_of_int n ++ X).
  { apply in_run_opt in Hs1 as [Hs1|[= E1 E2]].
    - apply in_run_class in Hs1 as [c [E [Hc ->]]].
      destruct Hdot as [[-> Hw]|[-> _]].
      + destruct word as [|c0 word]; [destruct Hw|]. simpl in E.
        injection E as <- _. congruence.
      + simpl in E. injection E as _ <-. now split.
    - subst ms1 s1. destruct Hdot as [[-> _]|[-> Hd]]; [now split|].
      simpl in Hl. rewrite Hd in Hl. destruct Hl. }
  destruct E1 as [-> ->]. rewrite En in Hl. simpl in Hl.
  rewrite (HL d (ds ++ X) Dd) in Hl. destruct Hl as [[= <- <-]|[]].
  rewrite En in Ew. simpl in Ew. apply app_inv_tail in Ew. subst w.
  assert (E2 : ms2 = [] /\ s3 = d :: ds ++ X).
  { apply in_run_opt in Hs2 as [Hs2|[= E1 E2]]; [|now subst].
    apply in_run_class in Hs2 as [c [[= <- _] [Hc _]]].
    rewrite (digit_not_sep d Dd) in Hc. discriminate. }
  destruct E2 as [-> ->].
  change (d :: ds ++ X) with ((d :: ds) ++ X) in Hn. rewrite <- En in Hn.
  destruct (number_printed gn n X T mn s' m2 rest HT SX Hn H2) as [-> ->].
  now split.
Qed.

Lemma in_join (sep : str) (parts : list str) (c : ascii) :
  In c (join sep parts) -> In c sep \/ exists p, In p parts /\ In c p.
Proof.
  induction parts as [|p [|q parts] IH]; cbn [join].
  - intros [].
  - intros H. right. exists p. split; [now left|assumption].
  - rewrite !in_app_iff. intros [H|[H|H]].
    + right. exists p. split; [now left|assumption].
    + now left.
    + destruct (IH H) as [H'|[p' [Hp Hc]]]; [now left|].
      right. exists p'. split; [now right|assumption].
Qed.

Lemma forallb_In {A : Type} (p : A -> bool) (l : list A) (a : A) :
  forallb p l = true -> In a l -> p a = true.
Proof. intros H. rewrite forallb_forall in H. apply H. Qed.

Lemma show_part_not_space (i : local_part) (c : ascii) :
  wf_part i -> In c (show_part i) -> is_space c = false.
Proof.
  destruct i as [n|s]; simpl.
  - intros _ H. apply digit_not_space.
    exact (forallb_In _ _ _ (str_of_int_digits n) H).
  - intros [A _] H. apply lower_alnum_not_space.
    exact (forallb_In _ _ _ A H).
Qed.

Lemma printed_local_not_space (ps : list local_part) (c : ascii) :
  Forall wf_part ps ->
  In c (join (py ".") (map show_part ps)) -> is_space c = false.
Proof.
  intros W H. apply in_join in H as [[<-|[]]|[p [Hp Hc]]]; [reflexivity|].
  apply in_map_iff in Hp as [i [<- Hi]].
  rewrite Forall_forall in W. exact (show_part_not_space i c (W i Hi) Hc).
Qed.

Lemma End_re_nil (m : captures) (rest : str) :
  In (m, rest) (run End_re []) -> m = [].
Proof. apply no_groups_nil. reflexivity. Qed.

Lemma print_local_some (p : local_part) (ps : list local_part) :
  print_local (Some (p :: ps))
  = "+"%char :: join (py ".") (map show_part (p :: ps)).
Proof. reflexivity. Qed.

Lemma tail_local_printed (l : option (list local_part)) (m : captures)
    (rest : str) :
  wf_local l ->
  In (m, rest) (run tail_local (print_local l)) -> m = caps_local l.
Proof.
  intros W H. unfold tail_local in H.
  apply in_run_seq in H as [m1 [s' [m2 [H1 [H2 ->]]]]].
  assert (M2 : m2 = []) by (revert H2; apply no_groups_nil; reflexivity).
  subst m2. cbn [app]. unfold local_re in H1.
  apply in_run_opt in H1 as [H1|[= E1 E2]].
  - apply in_run_seq in H1 as [ma [s1 [mb [Ha [Hb ->]]]]].
    apply in_run_chr in Ha as [E ->].
    apply in_run_group_inv in Hb as [mi [w [Hb [Ew ->]]]].
    assert (mi = []) by (revert Hb; apply no_groups_nil; reflexivity).
    subst mi. destruct l as [[|p ps]|]; try discriminate E.
    cbn [caps_local app]. rewrite print_local_some in E.
    remember (join (py ".") (map show_part (p :: ps))) as L eqn:EL.
    injection E as E. subst s1. destruct s' as [|c y].
    + rewrite app_nil_r in Ew. now subst w.
    + exfalso. rewrite End_dead in H2; [destruct H2|].
      destruct W as [_ W]. apply (printed_local_not_space (p :: ps)); auto.
      rewrite <- EL, Ew. apply in_or_app. right. now left.
  - subst m1 s'. destruct l as [[|p ps]|]; try reflexivity.
    cbn [print_local py list_ascii_of_string app] in H2.
    rewrite End_plus in H2. destruct H2.
Qed.

Lemma dev_inner_nil :
  run (letter_number g_dev_l (LitI (py "dev")) g_dev_n) [] = [].
Proof. dead. Qed.

Lemma dev_inner_plus y :
  run (letter_number g_dev_l (LitI (py "dev")) g_dev_n) ("+"%char :: y) = [].
Proof. dead. Qed.

Lemma print_local_cases (l : option (list local_part)) :
  print_local l = [] \/ exists y, print_local l = "+"%char :: y.
Proof. destruct l as [[|p ps]|]; simpl; eauto. Qed.

Lemma print_local_stops (l : option (list local_part)) :
  stops is_digit (print_local l).
Proof. destruct l as [[|p ps]|]; simpl; auto. Qed.

Lemma tail_dev_printed (d : option (str * N)) (l : option (list local_part))
    (m : captures) (rest : str) :
  wf_letter [py "dev"] d -> wf_local l ->
  In (m, rest) (run tail_dev (print_dev d ++ print_local l)) ->
  m = caps_local l ++ caps_dev d.
Proof.
  intros Wd Wl H. unfold tail_dev in H.
  apply in_run_seq in H as [m1 [s' [m2 [H1 [H2 ->]]]]].
  unfold dev_re in H1. destruct d as [[x n]|]; cbn [print_dev caps_dev] in *.
  - destruct Wd as [<-|[]].
    apply in_run_opt in H1 as [H1|[= E1 E2]].
    + rewrite <- app_assoc in H1.
      destruct (letter_number_printed g_dev_l g_dev_n (LitI (py "dev"))
                  (py ".") (py "dev") n (print_local l) tail_local
                  m1 s' m2 rest eq_refl
                  (or_intror (conj eq_refl (fun y => eq_refl)))
                  (fun d y _ => eq_refl) tail_local_digit
                  (print_local_stops l) H1 H2) as [-> ->].
      now rewrite (tail_local_printed l m2 rest Wl H2).
    + subst m1 s'. cbn [py list_ascii_of_string app] in H2.
      rewrite tail_local_dot_d in H2. destruct H2.
  - cbn [app] in H1. apply in_run_opt in H1 as [H1|[= E1 E2]].
    + exfalso. destruct (print_local_cases l) as [E|[y E]]; rewrite E in H1.
      * rewrite dev_inner_nil in H1. destruct H1.
      * rewrite dev_inner_plus in H1. destruct H1.
    + subst m1 s'. rewrite !app_nil_r. cbn [app] in H2.
      exact (tail_local_printed l m2 rest Wl H2).
Qed.

Lemma print_dev_local_cases (d : option (str * N))
    (l : option (list local_part)) :
  print_dev d ++ print_local l = [] \/
  (exists y, print_dev d ++ print_local l = "+"%char :: y) \/
  (exists y, print_dev d ++ print_local l = "."%char :: "d"%char :: y).
Proof.
  destruct d as [[x n]|]; simpl; [eauto|].
  destruct (print_local_cases l) as [->|[y ->]]; eauto.
Qed.

Lemma print_post_dev_local_cases (p d : option (str * N))
    (l : option (list local_part)) :
  print_post p ++ print_dev d ++ print_local l = [] \/
  (exists y, print_post p ++ print_dev d ++ print_local l = "+"%char :: y) \/
  (exists y, print_post p ++ print_dev d ++ print_local l
             = "."%char :: "d"%char :: y) \/
  (exists y, print_post p ++ print_dev d ++ print_local l
             = "."%char :: "p"%char :: "o"%char :: y).
Proof.
  destruct p as [[x n]|]; simpl; [eauto 6|].
  destruct (print_dev_local_cases d l) as [->|[[y ->]|[y ->]]]; eauto 6.
Qed.

Lemma print_dev_local_stops d l :
  stops is_digit (print_dev d ++ print_local l).
Proof.
  destruct (print_dev_local_cases d l) as [->|[[y ->]|[y ->]]]; simpl; auto.
Qed.

Lemma print_post_dev_local_stops p d l :
  stops is_digit (print_post p ++ print_dev d ++ print_local l).
Proof.
  destruct (print_post_dev_local_cases p d l)
    as [->|[[y ->]|[[y ->]|[y ->]]]]; simpl; auto.
Qed.

Lemma post_inner_nil : run post_inner [] = [].
Proof. dead. Qed.

Lemma post_inner_plus y : run post_inner ("+"%char :: y) = [].
Proof. dead. Qed.

Lemma post_inner_dot_d y : run post_inner ("."%char :: "d"%char :: y) = [].
Proof. dead. Qed.

Lemma pre_inner_nil : run pre_inner [] = [].
Proof. dead. Qed.

Lemma pre_inner_plus y : run pre_inner ("+"%char :: y) = [].
Proof. dead. Qed.

Lemma pre_inner_dot_d y : run pre_inner ("."%char :: "d"%char :: y) = [].
Proof. dead. Qed.

Lemma pre_inner_dot_po y :
  run pre_inner ("."%char :: "p"%char :: "o"%char :: y) = [].
Proof. dead. Qed.

Lemma pre_letters_a d y :
  is_digit d = true ->
  run pre_letters (py "a" ++ d :: y) = [([], d :: y)].
Proof. revert d y. dead_digit. Qed.

Lemma pre_letters_b d y :
  is_digit d = true ->
  run pre_letters (py "b" ++ d :: y) = [([], d :: y)].
Proof. revert d y. dead_digit. Qed.

Lemma pre_letters_rc d y :
  is_digit d = true ->
  run pre_letters (py "rc" ++ d :: y) = [([], d :: y)].
Proof. revert d y. dead_digit. Qed.

Lemma tail_post_printed (p d : option (str * N))
    (l : option (list local_part)) (m : captures) (rest : str) :
  wf_letter [py "post"] p -> wf_letter [py "dev"] d -> wf_local l ->
  In (m, rest) (run tail_post (print_post p ++ print_dev d ++ print_local l)) ->
  m = caps_local l ++ caps_dev d ++ caps_post p.
Proof.
  intros Wp Wd Wl H. unfold tail_post in H.
  apply in_run_seq in H as [m1 [s' [m2 [H1 [H2 ->]]]]].
  unfold post_re in H1. fold post_inner in H1.
  destruct p as [[x n]|]; cbn [print_post caps_post] in *.
  - destruct Wp as [<-|[]].
    apply in_run_opt in H1 as [H1|[= E1 E2]].
    + unfold post_inner in H1. apply in_run_alt in H1 as [H1|H1].
      { apply in_run_seq in H1 as [ma [s1 [mb [Ha _]]]].
        apply in_run_chr in Ha as [E _]. discriminate E. }
      rewrite <- app_assoc in H1.
      destruct (letter_number_printed g_post_l g_post_n2 post_letters
                  (py ".") (py "post") n (print_dev d ++ print_local l)
                  tail_dev m1 s' m2 rest eq_refl
                  (or_intror (conj eq_refl (fun y => eq_refl)))
                  (fun d y _ => eq_refl) tail_dev_digit
                  (print_dev_local_stops d l) H1 H2) as [-> ->].
      rewrite (tail_dev_printed d l m2 rest Wd Wl H2).
      now rewrite <- app_assoc.
    + subst m1 s'. cbn [py list_ascii_of_string app] in H2.
      rewrite tail_dev_dot_p in H2. destruct H2.
  - cbn [app] in H1. apply in_run_opt in H1 as [H1|[= E1 E2]].
    + exfalso.
      destruct (print_dev_local_cases d l) as [E|[[y E]|[y E]]];
        rewrite E in H1.
      * rewrite post_inner_nil in H1. destruct H1.
      * rewrite post_inner_plus in H1. destruct H1.
      * rewrite post_inner_dot_d in H1. destruct H1.
    + subst m1 s'. rewrite !app_nil_r. cbn [app] in H2.
      exact (tail_dev_printed d l m2 rest Wd Wl H2).
Qed.

Lemma tail_pre_printed (p q d : option (str * N))
    (l : option (list local_part)) (m : captures) (rest : str) :
  wf_letter [py "a"; py "b"; py "rc"] p ->
  wf_letter [py "post"] q -> wf_letter [py "dev"] d -> wf_local l ->
  In (m, rest) (run tail_pre (print_pre p ++ print_post q ++ print_dev d
                              ++ print_local l)) ->
  m = caps_local l ++ caps_dev d ++ caps_post q ++ caps_pre p.
Proof.
  intros Wp Wq Wd Wl H. unfold tail_pre in H.
  apply in_run_seq in H as [m1 [s' [m2 [H1 [H2 ->]]]]].
  unfold pre_re in H1. fold pre_inner in H1.
  set (Z := print_post q ++ print_dev d ++ print_local l) in *.
  assert (Done : s' = Z ->
                 m2 ++ caps_pre p
                 = caps_local l ++ caps_dev d ++ caps_post q ++ caps_pre p).
  { intros ->. rewrite (tail_post_printed q d l m2 rest Wq Wd Wl H2).
    now rewrite <- !app_assoc. }
  destruct p as [[x n]|]; cbn [print_pre caps_pre] in *.
  - apply in_run_opt in H1 as [H1|[= E1 E2]].
    + rewrite <- app_assoc in H1. unfold pre_inner in H1.
      assert (HL : forall d y, is_digit d = true ->
                               run pre_letters (x ++ d :: y) = [([], d :: y)]).
      { destruct Wp as [<-|[<-|[<-|[]]]];
          [apply pre_letters_a|apply pre_letters_b|apply pre_letters_rc]. }
      assert (Hx : match x with c :: _ => is_sep c = false | [] => False end).
      { destruct Wp as [<-|[<-|[<-|[]]]]; reflexivity. }
      destruct (letter_number_printed g_pre_l g_pre_n pre_letters
                  [] x n Z tail_post m1 s' m2 rest eq_refl
                  (or_introl (conj eq_refl Hx)) HL tail_post_digit
                  (print_post_dev_local_stops q d l) H1 H2) as [-> ->].
      now apply Done.
    + subst m1 s'. exfalso.
      destruct (str_of_int_cons n) as [c [cs [En _]]].
      destruct Wp as [<-|[<-|[<-|[]]]];
        cbn [py list_ascii_of_string app] in H2.
      * rewrite tail_post_a in H2. destruct H2.
      * rewrite tail_post_b in H2. destruct H2.
      * rewrite tail_post_rc in H2. destruct H2.
  - cbn [app] in H1. apply in_run_opt in H1 as [H1|[= E1 E2]].
    + exfalso.
      destruct (print_post_dev_local_cases q d l)
        as [E|[[y E]|[[y E]|[y E]]]]; fold Z in E; rewrite E in H1.
      * rewrite pre_inner_nil in H1. destruct H1.
      * rewrite pre_inner_plus in H1. destruct H1.
      * rewrite pre_inner_dot_d in H1. destruct H1.
      * rewrite pre_inner_dot_po in H1. destruct H1.
    + subst m1 s'. cbn [app] in *. now apply Done.
Qed.

(** The release. *)

Lemma dots_ok_digits_app (ds u : str) :
  forallb is_digit ds = true -> dots_ok u = true -> dots_ok (ds ++ u) = true.
Proof.
  induction ds as [|c ds IH]; simpl; [auto|]. intros H U.
  apply andb_true_iff in H as [Hc H]. now rewrite Hc, IH.
Qed.

Lemma dots_ok_dot (d : ascii) (u : str) :
  is_digit d = true -> dots_ok (d :: u) = true ->
  dots_ok ("."%char :: d :: u) = true.
Proof. intros Hd H. cbn [dots_ok] in *. now rewrite Hd, ?orb_true_r in *. Qed.

Lemma star_dots (n : nat) :
  forall s m rest,
    length s <= n ->
    In (m, rest) (run (Star (Seq (Chr ".") digits)) s) ->
    exists u, s = u ++ rest /\ dots_ok u = true /\
              match u with
              | [] => True
              | c :: u' => c = "."%char /\
                           match u' with
                           | d :: _ => is_digit d = true
                           | [] => False
                           end
              end.
Proof.
  induction n as [|n IH]; intros s m rest L H;
    apply in_run_star in H as [[_ ->]|[m1 [mid [m2 [H1 [L' [H2 _]]]]]]];
    try (now exists []); [lia|].
  apply in_run_seq in H1 as [ma [s1 [mb [Ha [Hb _]]]]].
  apply in_run_chr in Ha as [-> _].
  apply in_run_digits in Hb as [_ [ds [N [-> D]]]].
  apply IH in H2 as [u [-> [U _]]];
    [|simpl in L; rewrite length_app in L; lia].
  destruct ds as [|d ds]; [congruence|].
  exists ("."%char :: (d :: ds) ++ u). simpl in D.
  apply andb_true_iff in D as [Dd D]. repeat split.
  - simpl. now rewrite app_assoc.
  - apply dots_ok_dot; [assumption|].
    apply (dots_ok_digits_app (d :: ds)); [|assumption]. simpl.
    now rewrite Dd.
  - assumption.
Qed.

Lemma release_body_inv (s : str) (m : captures) (rest : str) :
  In (m, rest) (run release_body s) ->
  m = [] /\ exists w, s = w ++ rest /\ dots_ok w = true.
Proof.
  intros H. split; [revert H; apply no_groups_nil; reflexivity|].
  unfold release_body in H.
  apply in_run_seq in H as [m1 [s1 [m2 [H1 [H2 _]]]]].
  apply in_run_digits in H1 as [_ [ds [N [-> D]]]].
  apply (star_dots (length s1)) in H2 as [u [-> [U _]]]; [|lia].
  exists (ds ++ u). split; [now rewrite app_assoc|].
  now apply dots_ok_digits_app.
Qed.

Lemma munch_release (w : str) :
  forall R t1 t2,
    w ++ t1 = R ++ t2 -> dots_ok w = true -> dots_ok R = true ->
    blocks t1 -> blocks t2 -> w = R /\ t1 = t2.
Proof.
  assert (No : forall c R' t, dots_ok (c :: R') = true ->
                              blocks (c :: R' ++ t) -> False).
  { intros c R' t D [B1 B2]. cbn [dots_ok] in D.
    apply andb_true_iff in D as [D _]. rewrite B1 in D. simpl in D.
    apply andb_true_iff in D as [Ec D]. apply Ascii.eqb_eq in Ec.
    specialize (B2 Ec). destruct R' as [|d R']; [discriminate|].
    simpl in B2. congruence. }
  induction w as [|c w IH]; intros [|c' R] t1 t2 E Dw DR B1 B2;
    cbn [app] in E.
  - now split.
  - subst t1. exfalso. exact (No c' R t2 DR B1).
  - subst t2. exfalso. exact (No c w t1 Dw B2).
  - injection E as <- E. cbn [dots_ok] in Dw, DR.
    apply andb_true_iff in Dw as [_ Dw]. apply andb_true_iff in DR as [_ DR].
    destruct (IH R t1 t2 E Dw DR B1 B2) as [-> ->]. now split.
Qed.

Lemma tail_pre_blocks (s : str) (m : captures) (rest : str) :
  In (m, rest) (run tail_pre s) -> blocks s.
Proof.
  intros H. destruct s as [|c s]; [exact I|]. simpl. split.
  - destruct (is_digit c) eqn:E; [|reflexivity].
    rewrite tail_pre_digit in H by assumption. destruct H.
  - intros ->. destruct s as [|d y]; [exact I|].
    destruct (is_digit d) eqn:E; [|reflexivity].
    rewrite tail_pre_dot_digit in H by assumption. destruct H.
Qed.

Lemma printed_tail_cases (p q d : option (str * N))
    (l : option (list local_part)) :
  wf_letter [py "a"; py "b"; py "rc"] p ->
  let X := print_pre p ++ print_post q ++ print_dev d ++ print_local l in
  X = [] \/
  exists c y, X = c :: y /\
              (In c (py "abr+") \/
               c = "."%char /\ exists c' y', y = c' :: y' /\ In c' (py "dp")).
Proof.
  intros W X. subst X. destruct p as [[x n]|]; cbn [print_pre].
  - right. destruct W as [<-|[<-|[<-|[]]]]; simpl; eexists _, _;
      (split; [reflexivity|]); left; tauto.
  - cbn [app].
    destruct (print_post_dev_local_cases q d l)
      as [->|[[y ->]|[[y ->]|[y ->]]]]; [now left| | |]; right;
      eexists _, _; (split; [reflexivity|]); simpl;
      [left; tauto | right | right]; (split; [reflexivity|]);
      eexists _, _; (split; [reflexivity|]); tauto.
Qed.

Lemma printed_tail_blocks (p q d : option (str * N))
    (l : option (list local_part)) :
  wf_letter [py "a"; py "b"; py "rc"] p ->
  blocks (print_pre p ++ print_post q ++ print_dev d ++ print_local l).
Proof.
  intros W. destruct (printed_tail_cases p q d l W) as [->|[c [y [-> H]]]];
    [exact I|].
  destruct H as [H|[-> [c' [y' [-> H]]]]]; simpl in H.
  - repeat (destruct H as [<-|H]; [split; [reflexivity|discriminate]|]).
    destruct H.
  - split; [reflexivity|]. intros _.
    repeat (destruct H as [<-|H]; [reflexivity|]). destruct H.
Qed.

Lemma printed_tail_no_bang (p q d : option (str * N))
    (l : option (list local_part)) (y : str) :
  wf_letter [py "a"; py "b"; py "rc"] p ->
  print_pre p ++ print_post q ++ print_dev d ++ print_local l
  <> "!"%char :: y.
Proof.
  intros W E. destruct (printed_tail_cases p q d l W) as [E'|[c [y' [E' H]]]];
    rewrite E' in E; [discriminate|].
  injection E as -> _. destruct H as [H|[H _]]; [|discriminate].
  simpl in H. repeat (destruct H as [H|H]; [discriminate|]). destruct H.
Qed.

Lemma join_cons (sep p : str) (q : str) (parts : list str) :
  join sep (p :: q :: parts) = p ++ sep ++ join sep (q :: parts).
Proof. reflexivity. Qed.

Lemma print_release_dots (r : list N) : dots_ok (print_release r) = true.
Proof.
  unfold print_release. induction r as [|x [|y r] IH]; [reflexivity| |].
  - simpl. rewrite <- (app_nil_r (str_of_int x)).
    apply dots_ok_digits_app; [apply str_of_int_digits|reflexivity].
  - cbn [map] in *. rewrite join_cons.
    apply dots_ok_digits_app; [apply str_of_int_digits|].
    destruct (join (py ".") (str_of_int y :: map str_of_int r))
      as [|d u] eqn:E.
    + exfalso. destruct (str_of_int_cons y) as [c [cs [Ey _]]].
      rewrite Ey in E. destruct (map str_of_int r); discriminate E.
    + cbn [py list_ascii_of_string app]. apply dots_ok_dot; [|assumption].
      destruct (str_of_int_cons y) as [c [cs [Ey [Dc _]]]].
      rewrite Ey in E. destruct (map str_of_int r); injection E as <- _;
        assumption.
Qed.

Lemma tail_release_printed (r : list N) (p q d : option (str * N))
    (l : option (list local_part)) (m : captures) (rest : str) :
  wf_letter [py "a"; py "b"; py "rc"] p ->
  wf_letter [py "post"] q -> wf_letter [py "dev"] d -> wf_local l ->
  In (m, rest)
     (run tail_release
          (print_release r ++ print_pre p ++ print_post q ++ print_dev d
           ++ print_local l)) ->
  m = caps_local l ++ caps_dev d ++ caps_post q ++ caps_pre p
      ++ [(g_release, print_release r)].
Proof.
  intros Wp Wq Wd Wl H. unfold tail_release in H.
  apply in_run_seq in H as [m1 [s4 [m2 [H1 [H2 ->]]]]].
  unfold release_re in H1. fold release_body in H1.
  apply in_run_group_inv in H1 as [mi [w [H1 [E ->]]]].
  apply release_body_inv in H1 as [-> [w' [E' D]]].
  rewrite E' in E. apply app_inv_tail in E. subst w'.
  destruct (munch_release w (print_release r) s4 _ (eq_sym E') D
              (print_release_dots r) (tail_pre_blocks _ _ _ H2)
              (printed_tail_blocks p q d l Wp)) as [-> ->].
  rewrite (tail_pre_printed p q d l m2 rest Wp Wq Wd Wl H2).
  now rewrite <- !app_assoc.
Qed.

(** The epoch. *)

Lemma print_release_head (x : N) (rs : list N) :
  exists R', print_release (x :: rs) = str_of_int x ++ R' /\
             (R' = [] \/ exists y, R' = "."%char :: y).
Proof.
  unfold print_release. destruct rs as [|y rs]; cbn [map].
  - exists []. simpl. rewrite app_nil_r. auto.
  - rewrite join_cons. eexists. split; [reflexivity|]. right.
    now eexists.
Qed.

Lemma str_of_int_dots (n : N) : dots_ok (str_of_int n) = true.
Proof.
  rewrite <- (app_nil_r (str_of_int n)).
  apply dots_ok_digits_app; [apply str_of_int_digits|reflexivity].
Qed.

Lemma tail_epoch_printed (e : N) (r : list N) (p q d : option (str * N))
    (l : option (list local_part)) (m : captures) (rest : str) :
  r <> [] ->
  wf_letter [py "a"; py "b"; py "rc"] p ->
  wf_letter [py "post"] q -> wf_letter [py "dev"] d -> wf_local l ->
  In (m, rest)
     (run tail_epoch
          (print_epoch e ++ print_release r ++ print_pre p ++ print_post q
           ++ print_dev d ++ print_local l)) ->
  m = caps_local l ++ caps_dev d ++ caps_post q ++ caps_pre p
      ++ [(g_release, print_release r)] ++ caps_epoch e.
Proof.
  intros Nr Wp Wq Wd Wl H. unfold tail_epoch in H.
  apply in_run_seq in H as [m1 [s3 [m2 [H1 [H2 ->]]]]].
  set (X := print_pre p ++ print_post q ++ print_dev d ++ print_local l) in *.
  assert (Done : s3 = print_release r ++ X ->
                 m2 ++ caps_epoch e
                 = caps_local l ++ caps_dev d ++ caps_post q ++ caps_pre p
                   ++ [(g_release, print_release r)] ++ caps_epoch e).
  { intros ->. rewrite (tail_release_printed r p q d l m2 rest Wp Wq Wd Wl H2).
    now rewrite <- !app_assoc. }
  unfold epoch_re in H1. unfold print_epoch, caps_epoch in *.
  destruct (e =? 0)%N.
  - cbn [app] in H1. apply in_run_opt in H1 as [H1|[= E1 E2]].
    + exfalso. apply in_run_seq in H1 as [ma [s1 [mb [Ha [Hb _]]]]].
      apply in_run_group_inv in Ha as [mi [w [Ha _]]].
      apply in_run_digits in Ha as [_ [ds [_ [E D]]]].
      apply in_run_chr in Hb as [-> _].
      destruct r as [|x rs]; [congruence|].
      destruct (print_release_head x rs) as [R' [ER HR]].
      rewrite ER, <- app_assoc in E.
      destruct (span_eq is_digit (str_of_int x) ds (R' ++ X)
                  ("!"%char :: s3) E (str_of_int_digits x) D) as [_ E'].
      * destruct HR as [->|[y ->]]; [|reflexivity]. cbn [app].
        pose proof (printed_tail_blocks p q d l Wp) as B. fold X in B.
        destruct X; [exact I|]. exact (proj1 B).
      * reflexivity.
      * destruct HR as [->|[y ->]]; [|discriminate E'].
        exact (printed_tail_no_bang p q d l s3 Wp E').
    + subst m1 s3. now apply Done.
  - rewrite <- !app_assoc in H1. cbn [py list_ascii_of_string app] in H1.
    apply in_run_opt in H1 as [H1|[= E1 E2]].
    + apply in_run_seq in H1 as [ma [s1 [mb [Ha [Hb ->]]]]].
      apply in_run_group_inv in Ha as [mi [w [Ha [Ew ->]]]].
      apply in_run_digits in Ha as [-> [ds [_ [E D]]]].
      apply in_run_chr in Hb as [-> ->].
      rewrite E in Ew. apply app_inv_tail in Ew. subst w.
      destruct (span_eq is_digit (str_of_int e) ds _ _ E
                  (str_of_int_digits e) D eq_refl eq_refl) as [<- E'].
      injection E' as E'. cbn [app]. apply Done. now symmetry.
    + subst m1 s3. exfalso. unfold tail_release in H2.
      apply in_run_seq in H2 as [mr [s4 [mt [Hr [Ht _]]]]].
      unfold release_re in Hr. fold release_body in Hr.
      apply in_run_group_inv in Hr as [mi [w [Hr [E _]]]].
      apply release_body_inv in Hr as [_ [w' [E' D]]].
      rewrite E' in E. apply app_inv_tail in E. subst w'.
      destruct (munch_release w (str_of_int e) s4 _ (eq_sym E') D
                  (str_of_int_dots e) (tail_pre_blocks _ _ _ Ht))
        as [_ ->].
      * split; [reflexivity|discriminate].
      * rewrite tail_pre_bang in Ht. destruct Ht.
Qed.

Lemma digit_not_v (c : ascii) :
  is_digit c = true -> Ascii.eqb (lower_char c) "v" = false.
Proof.
  intros H. apply digit_cases in H. simpl in H.
  repeat (destruct H as [<-|H]; [reflexivity|]). destruct H.
Qed.

Lemma Version_str_head (v : Version) :
  release v <> [] ->
  exists c y, Version_str v = c :: y /\ is_digit c = true.
Proof.
  intros Nr. unfold Version_str, print_epoch.
  destruct (epoch v =? 0)%N.
  - destruct (release v) as [|x rs]; [congruence|].
    destruct (print_release_head x rs) as [R' [-> _]].
    destruct (str_of_int_cons x) as [c [cs [-> [D _]]]].
    cbn [app]. now eexists _, _.
  - destruct (str_of_int_cons (epoch v)) as [c [cs [-> [D _]]]].
    cbn [app]. now eexists _, _.
Qed.

(** Every way the pattern matches a printed version captures the same
    groups. *)
Lemma Version_regex_printed (v : Version) (m : captures) (rest : str) :
  wf v -> In (m, rest) (run Version_regex (Version_str v)) -> m = caps_of v.
Proof.
  intros [Nr Wp Wq Wd Wl] H. apply Version_chain_iff in H.
  destruct (Version_str_head v Nr) as [c [y [E Dc]]].
  unfold Version_chain in H.
  apply in_run_seq in H as [m0 [s1 [m' [H0 [H ->]]]]].
  apply in_run_seq in H as [m1 [s2 [m2 [H1 [H2 ->]]]]].
  apply in_run_star_class in H0 as [-> [w [E0 Hw]]].
  assert (w = []).
  { destruct w as [|c' w]; [reflexivity|]. rewrite E in E0.
    injection E0 as <- _. simpl in Hw.
    rewrite (digit_not_space c Dc) in Hw. discriminate. }
  subst w. cbn [app] in E0. subst s1.
  assert (m1 = [] /\ s2 = Version_str v) as [-> ->].
  { apply in_run_opt in H1 as [H1|[= E1 E2]]; [|now subst].
    apply in_run_class in H1 as [c' [E1 [Hc _]]]. rewrite E in E1.
    injection E1 as <- _. rewrite (digit_not_v c Dc) in Hc. discriminate. }
  rewrite !app_nil_r. unfold Version_str in H2.
  exact (tail_epoch_printed _ _ _ _ _ _ m2 rest Nr Wp Wq Wd Wl H2).
Qed.

(** ** A printed version matches *)

Lemma join_concat (p : str) (parts : list str) :
  join (py ".") (p :: parts)
  = p ++ concat (map (fun q => "."%char :: q) parts).
Proof.
  revert p. induction parts as [|q parts IH]; intros p.
  - simpl. now rewrite app_nil_r.
  - rewrite join_cons, IH. reflexivity.
Qed.

Lemma in_run_plus_class_intro (cls : ascii -> bool) (p rest : str) :
  p <> [] -> forallb cls p = true ->
  In ([], rest) (run (Plus (Class cls)) (p ++ rest)).
Proof.
  intros N H. destruct p as [|c w]; [congruence|]. simpl in H.
  apply andb_true_iff in H as [Hc Hw]. apply in_run_plus_class.
  split; [reflexivity|]. now exists c, w.
Qed.

Lemma star_words (cls : ascii -> bool) (sepR : regex) (rest : str) :
  (forall y, In ([], y) (run sepR ("."%char :: y))) ->
  forall parts,
    (forall p, In p parts -> p <> [] /\ forallb cls p = true) ->
    In ([], rest)
       (run (Star (Seq sepR (Plus (Class cls))))
            (concat (map (fun q => "."%char :: q) parts) ++ rest)).
Proof.
  intros Hsep. induction parts as [|p parts IH]; intros H.
  - apply in_run_star. now left.
  - apply in_run_star. right. cbn [map concat].
    exists [], (concat (map (fun q => "."%char :: q) parts) ++ rest), [].
    destruct (H p (or_introl eq_refl)) as [Np Hp]. repeat split.
    + rewrite <- !app_assoc. cbn [app].
      eapply in_run_seq_nil; [apply Hsep|].
      now apply in_run_plus_class_intro.
    + rewrite <- app_assoc. cbn [app length]. rewrite !length_app. lia.
    + apply IH. intros q Hq. apply H. now right.
Qed.

Lemma words_match (cls : ascii -> bool) (sepR : regex) (rest : str)
    (p : str) (parts : list str) :
  (forall y, In ([], y) (run sepR ("."%char :: y))) ->
  (forall q, In q (p :: parts) -> q <> [] /\ forallb cls q = true) ->
  In ([], rest)
     (run (Seq (Plus (Class cls)) (Star (Seq sepR (Plus (Class cls)))))
          (join (py ".") (p :: parts) ++ rest)).
Proof.
  intros Hsep H. rewrite join_concat, <- app_assoc.
  destruct (H p (or_introl eq_refl)) as [Np Hp].
  eapply in_run_seq_nil.
  - now apply in_run_plus_class_intro.
  - apply star_words; [assumption|]. intros q Hq. apply H. now right.
Qed.

Lemma str_of_int_nonempty (n : N) : str_of_int n <> [].
Proof. destruct (str_of_int_cons n) as [c [cs [-> _]]]. discriminate. Qed.

Lemma in_run_digits_intro (n : N) (rest : str) :
  In ([], rest) (run digits (str_of_int n ++ rest)).
Proof.
  apply in_run_plus_class_intro;
    [apply str_of_int_nonempty | apply str_of_int_digits].
Qed.

Lemma lower_alnum_is_alnum (c : ascii) :
  is_lower_alnum c = true -> is_alnum c = true.
Proof.
  destruct c as [[] [] [] [] [] [] [] []]; intros H; try discriminate H;
    reflexivity.
Qed.

Lemma digit_is_alnum (c : ascii) : is_digit c = true -> is_alnum c = true.
Proof. intros H. unfold is_alnum. rewrite H. apply orb_true_r. Qed.

Lemma forallb_impl {A : Type} (p q : A -> bool) (l : list A) :
  (forall a, p a = true -> q a = true) ->
  forallb p l = true -> forallb q l = true.
Proof.
  intros I. induction l as [|a l IH]; simpl; [auto|]. intros H.
  apply andb_true_iff in H as [Ha H]. now rewrite (I a Ha), IH.
Qed.

Lemma show_part_alnum (i : local_part) :
  wf_part i -> show_part i <> [] /\ forallb is_alnum (show_part i) = true.
Proof.
  destruct i as [n|s]; simpl.
  - intros _. split; [apply str_of_int_nonempty|].
    apply (forallb_impl is_digit); [apply digit_is_alnum|].
    apply str_of_int_digits.
  - intros [A [_ N]]. split; [assumption|].
    now apply (forallb_impl is_lower_alnum); [apply lower_alnum_is_alnum|].
Qed.

Lemma tail_local_matches (l : option (list local_part)) :
  wf_local l -> exists m, In (m, []) (run tail_local (print_local l)).
Proof.
  intros W. unfold tail_local.
  assert (E : In ([], []) (run End_re [])) by now left.
  destruct l as [[|p ps]|]; cbn [print_local];
    try (eexists; eapply in_run_seq_intro; [apply in_run_opt_none|exact E]).
  destruct W as [_ W]. eexists. eapply in_run_seq_intro; [|exact E].
  unfold local_re. apply in_run_opt_some.
  cbn [py list_ascii_of_string app].
  eapply in_run_seq_intro; [now apply in_run_chr|].
  rewrite <- (app_nil_r (join _ _)). apply in_run_group_intro.
  cbn [map]. apply words_match.
  - intros y. apply in_run_class. now exists "."%char.
  - intros q Hq. change (In q (map show_part (p :: ps))) in Hq.
    apply in_map_iff in Hq as [i [<- Hi]]. apply show_part_alnum.
    rewrite Forall_forall in W. now apply W.
Qed.

Lemma letter_number_intro (gl gn : group) (letters : regex)
    (dot word : str) (n : N) (Y : str) :
  In ([], word ++ str_of_int n ++ Y)
     (run (Opt (Class is_sep)) (dot ++ word ++ str_of_int n ++ Y)) ->
  In ([], str_of_int n ++ Y) (run letters (word ++ str_of_int n ++ Y)) ->
  In ([(gn, str_of_int n); (gl, word)], Y)
     (run (letter_number gl letters gn) (dot ++ word ++ str_of_int n ++ Y)).
Proof.
  intros Hs Hl. unfold letter_number.
  change [(gn, str_of_int n); (gl, word)]
    with ([(gn, str_of_int n); (gl, word)] ++ []).
  eapply in_run_seq_intro; [exact Hs|].
  change [(gn, str_of_int n); (gl, word)]
    with ([(gn, str_of_int n)] ++ [(gl, word)]).
  eapply in_run_seq_intro.
  - apply in_run_group_intro. exact Hl.
  - change [(gn, str_of_int n)] with ([(gn, str_of_int n)] ++ []).
    eapply in_run_seq_intro; [apply in_run_opt_none|].
    apply in_run_opt_some. apply in_run_group_intro.
    apply in_run_digits_intro.
Qed.

Lemma opt_sep_dot (y : str) :
  In ([], y) (run (Opt (Class is_sep)) (py "." ++ y)).
Proof. apply in_run_opt_some. apply in_run_class. now exists "."%char. Qed.

Lemma tail_dev_matches (d : option (str * N)) (l : option (list local_part)) :
  wf_letter [py "dev"] d -> wf_local l ->
  exists m, In (m, []) (run tail_dev (print_dev d ++ print_local l)).
Proof.
  intros Wd Wl. destruct (tail_local_matches l Wl) as [m2 H2].
  unfold tail_dev, dev_re. destruct d as [[x n]|]; cbn [print_dev].
  - eexists. eapply in_run_seq_intro; [|exact H2]. apply in_run_opt_some.
    rewrite <- app_assoc.
    apply (letter_number_intro g_dev_l g_dev_n _ (py ".") (py "dev"));
      [apply opt_sep_dot | now left].
  - eexists. eapply in_run_seq_intro; [apply in_run_opt_none|exact H2].
Qed.

Lemma tail_post_matches (p d : option (str * N))
    (l : option (list local_part)) :
  wf_letter [py "post"] p -> wf_letter [py "dev"] d -> wf_local l ->
  exists m, In (m, [])
               (run tail_post (print_post p ++ print_dev d ++ print_local l)).
Proof.
  intros Wp Wd Wl. destruct (tail_dev_matches d l Wd Wl) as [m2 H2].
  unfold tail_post, post_re. destruct p as [[x n]|]; cbn [print_post].
  - eexists. eapply in_run_seq_intro; [|exact H2]. apply in_run_opt_some.
    apply in_run_alt. right. rewrite <- app_assoc.
    apply (letter_number_intro g_post_l g_post_n2 _ (py ".") (py "post"));
      [apply opt_sep_dot | now left].
  - eexists. eapply in_run_seq_intro; [apply in_run_opt_none|exact H2].
Qed.

Lemma pre_letters_matches (x : str) (y : str) :
  In x [py "a"; py "b"; py "rc"] -> In ([], y) (run pre_letters (x ++ y)).
Proof.
  unfold pre_letters. intros [<-|[<-|[<-|[]]]].
  - apply in_run_alt. right. apply in_run_alt. left. now left.
  - do 3 (apply in_run_alt; right). apply in_run_alt. left. now left.
  - do 7 (apply in_run_alt; right). now left.
Qed.

Lemma tail_pre_matches (p q d : option (str * N))
    (l : option (list local_part)) :
  wf_letter [py "a"; py "b"; py "rc"] p ->
  wf_letter [py "post"] q -> wf_letter [py "dev"] d -> wf_local l ->
  exists m, In (m, [])
               (run tail_pre (print_pre p ++ print_post q ++ print_dev d
                              ++ print_local l)).
Proof.
  intros Wp Wq Wd Wl. destruct (tail_post_matches q d l Wq Wd Wl) as [m2 H2].
  unfold tail_pre, pre_re. destruct p as [[x n]|]; cbn [print_pre].
  - eexists. eapply in_run_seq_intro; [|exact H2]. apply in_run_opt_some.
    rewrite <- app_assoc.
    apply (letter_number_intro g_pre_l g_pre_n _ [] x);
      [apply in_run_opt_none | now apply pre_letters_matches].
  - eexists. eapply in_run_seq_intro; [apply in_run_opt_none|exact H2].
Qed.

Lemma Version_regex_matches (v : Version) :
  wf v -> exists m, In (m, []) (run Version_regex (Version_str v)).
Proof.
  intros [Nr Wp Wq Wd Wl].
  destruct (tail_pre_matches _ _ _ _ Wp Wq Wd Wl) as [m4 H4].
  assert (H3 : exists m, In (m, []) (run tail_release
              (print_release (release v) ++ print_pre (pre v)
               ++ print_post (post v) ++ print_dev (dev v)
               ++ print_local (local v)))).
  { eexists. unfold tail_release. eapply in_run_seq_intro; [|exact H4].
    unfold release_re. apply in_run_group_intro.
    destruct (release v) as [|x rs]; [congruence|].
    unfold print_release. cbn [map]. apply words_match.
    - intros y. now apply in_run_chr.
    - intros q Hq. change (In q (map str_of_int (x :: rs))) in Hq.
      apply in_map_iff in Hq as [n [<- _]].
      split; [apply str_of_int_nonempty|apply str_of_int_digits]. }
  destruct H3 as [m3 H3].
  assert (H2 : exists m, In (m, []) (run tail_epoch (Version_str v))).
  { unfold tail_epoch, Version_str, print_epoch, epoch_re.
    destruct (epoch v =? 0)%N.
    - eexists. eapply in_run_seq_intro; [apply in_run_opt_none|exact H3].
    - eexists. eapply in_run_seq_intro; [|exact H3]. apply in_run_opt_some.
      rewrite <- !app_assoc.
      eapply in_run_seq_intro;
        [apply in_run_group_intro; apply in_run_digits_intro|].
      now apply in_run_chr. }
  destruct H2 as [m2 H2]. eexists. apply Version_chain_iff.
  unfold Version_chain.
  eapply in_run_seq_intro;
    [apply in_run_star_class; split; [reflexivity|]; now exists []|].
  eapply in_run_seq_intro; [apply in_run_opt_none|exact H2].
Qed.

(** ** From the groups of a printed version back to the version *)

Lemma split_on_app (p : ascii -> bool) (q rest : str) :
  forallb (fun c => negb (p c)) q = true ->
  split_on p (q ++ rest)
  = match split_on p rest with
    | h :: t => (q ++ h) :: t
    | [] => [q]
    end.
Proof.
  destruct (split_on_hd p rest) as [h [t E]].
  induction q as [|c q IH]; simpl; intros H.
  - now rewrite E.
  - apply andb_true_iff in H as [Hc H]. apply negb_true_iff in Hc.
    rewrite Hc, (IH H). now rewrite E.
Qed.

Lemma split_on_join (p : ascii -> bool) (parts : list str) :
  parts <> [] -> p "."%char = true ->
  (forall q, In q parts -> forallb (fun c => negb (p c)) q = true) ->
  split_on p (join (py ".") parts) = parts.
Proof.
  intros N Hdot. induction parts as [|q [|q' parts] IH]; intros H;
    [congruence| |].
  - cbn [join]. rewrite <- (app_nil_r q) at 1.
    rewrite split_on_app by (apply H; now left). simpl.
    now rewrite app_nil_r.
  - rewrite join_cons. rewrite split_on_app by (apply H; now left).
    change (py "." ++ join (py ".") (q' :: parts))
      with ("."%char :: join (py ".") (q' :: parts)).
    cbn [split_on]. rewrite Hdot.
    rewrite IH; [now rewrite app_nil_r|discriminate|].
    intros x Hx. apply H. now right.
Qed.

Lemma digit_not_dot (c : ascii) :
  is_digit c = true -> negb (Ascii.eqb "." c) = true.
Proof.
  intros H. apply digit_cases in H. simpl in H.
  repeat (destruct H as [<-|H]; [reflexivity|]). destruct H.
Qed.

Lemma alnum_not_sep (c : ascii) : is_alnum c = true -> negb (is_sep c) = true.
Proof.
  destruct c as [[] [] [] [] [] [] [] []]; intros H; try discriminate H;
    reflexivity.
Qed.

Lemma lower_alnum_lower (c : ascii) :
  is_lower_alnum c = true -> lower_char c = c.
Proof.
  destruct c as [[] [] [] [] [] [] [] []]; intros H; try discriminate H;
    reflexivity.
Qed.

Lemma split_print_release (r : list N) :
  r <> [] -> map int (split "." (print_release r)) = r.
Proof.
  intros N. unfold split, print_release. rewrite split_on_join.
  - rewrite map_map. rewrite <- (map_id r) at 2. apply map_ext.
    apply int_str_of_int.
  - now destruct r.
  - reflexivity.
  - intros q Hq. apply in_map_iff in Hq as [n [<- _]].
    apply (forallb_impl is_digit); [apply digit_not_dot|].
    apply str_of_int_digits.
Qed.

Lemma classify_show_part (i : local_part) :
  wf_part i ->
  (if negb (isdigit (show_part i)) then LStr (lower (show_part i))
   else LInt (int (show_part i))) = i.
Proof.
  destruct i as [n|s]; simpl.
  - intros _. unfold isdigit.
    destruct (str_of_int_cons n) as [c [cs [E _]]].
    pose proof (str_of_int_digits n) as D. rewrite E in *. rewrite D.
    simpl. rewrite <- E. now rewrite int_str_of_int.
  - intros [A [B _]]. rewrite B. simpl. f_equal. unfold lower.
    rewrite <- (map_id s) at 2. apply map_ext_in. intros c Hc.
    apply lower_alnum_lower. exact (forallb_In _ _ _ A Hc).
Qed.

Lemma parse_local_printed (p : local_part) (ps : list local_part) :
  Forall wf_part (p :: ps) ->
  _parse_local_version (Some (join (py ".") (map show_part (p :: ps))))
  = Some (p :: ps).
Proof.
  intros W. unfold _parse_local_version. f_equal.
  rewrite split_on_join.
  - rewrite map_map. rewrite <- (map_id (p :: ps)) at 2.
    apply map_ext_in. intros i Hi. apply classify_show_part.
    rewrite Forall_forall in W. now apply W.
  - discriminate.
  - reflexivity.
  - intros q Hq. apply in_map_iff in Hq as [i [<- Hi]].
    rewrite Forall_forall in W.
    destruct (show_part_alnum i (W i Hi)) as [_ A].
    exact (forallb_impl _ _ _ alnum_not_sep A).
Qed.

Lemma truthy_str_of_int (n : N) : truthy (Some (str_of_int n)) = true.
Proof. destruct (str_of_int_cons n) as [c [cs [-> _]]]. reflexivity. Qed.

Lemma Version_of_caps (v : Version) :
  wf v -> Version_of_match (caps_of v) = v.
Proof.
  intros [Nr Wp Wq Wd Wl]. destruct v as [e r p q d l]. cbn [epoch release
    pre post dev local] in *. unfold caps_of, Version_of_match.
  cbn [epoch release pre post dev local].
  assert (Ge : group_of g_epoch
                 (caps_local l ++ caps_dev d ++ caps_post q ++ caps_pre p
                  ++ [(g_release, print_release r)] ++ caps_epoch e)
               = if (e =? 0)%N then None else Some (str_of_int e)).
  { unfold caps_epoch.
    destruct l as [[|? ?]|], d as [[? ?]|], q as [[? ?]|], p as [[? ?]|],
      (e =? 0)%N; reflexivity. }
  assert (Gr : group_of g_release
                 (caps_local l ++ caps_dev d ++ caps_post q ++ caps_pre p
                  ++ [(g_release, print_release r)] ++ caps_epoch e)
               = Some (print_release r)).
  { destruct l as [[|? ?]|], d as [[? ?]|], q as [[? ?]|], p as [[? ?]|];
      reflexivity. }
  assert (Gp : _parse_letter_version
                 (group_of g_pre_l
                    (caps_local l ++ caps_dev d ++ caps_post q ++ caps_pre p
                     ++ [(g_release, print_release r)] ++ caps_epoch e))
                 (group_of g_pre_n
                    (caps_local l ++ caps_dev d ++ caps_post q ++ caps_pre p
                     ++ [(g_release, print_release r)] ++ caps_epoch e))
               = p).
  { unfold caps_epoch.
    destruct p as [[x n]|];
      [destruct Wp as [<-|[<-|[<-|[]]]]|];
      destruct l as [[|? ?]|], d as [[? ?]|], q as [[? ?]|], (e =? 0)%N;
      cbn [caps_local caps_dev caps_post caps_pre app group_of group_eqb];
      try reflexivity;
      unfold _parse_letter_version; cbn [truthy py list_ascii_of_string];
      rewrite int_str_of_int; reflexivity. }
  assert (Gq : _parse_letter_version
                 (group_of g_post_l
                    (caps_local l ++ caps_dev d ++ caps_post q ++ caps_pre p
                     ++ [(g_release, print_release r)] ++ caps_epoch e))
                 (or_else
                    (group_of g_post_n1
                       (caps_local l ++ caps_dev d ++ caps_post q
                        ++ caps_pre p ++ [(g_release, print_release r)]
                        ++ caps_epoch e))
                    (group_of g_post_n2
                       (caps_local l ++ caps_dev d ++ caps_post q
                        ++ caps_pre p ++ [(g_release, print_release r)]
                        ++ caps_epoch e)))
               = q).
  { unfold caps_epoch.
    destruct q as [[x n]|]; [destruct Wq as [<-|[]]|];
      destruct l as [[|? ?]|], d as [[? ?]|], p as [[? ?]|], (e =? 0)%N;
      cbn [caps_local caps_dev caps_post caps_pre app group_of group_eqb
           or_else truthy];
      try reflexivity;
      unfold _parse_letter_version; cbn [truthy py list_ascii_of_string];
      rewrite int_str_of_int; reflexivity. }
  assert (Gd : _parse_letter_version
                 (group_of g_dev_l
                    (caps_local l ++ caps_dev d ++ caps_post q ++ caps_pre p
                     ++ [(g_release, print_release r)] ++ caps_epoch e))
                 (group_of g_dev_n
                    (caps_local l ++ caps_dev d ++ caps_post q ++ caps_pre p
                     ++ [(g_release, print_release r)] ++ caps_epoch e))
               = d).
  { unfold caps_epoch.
    destruct d as [[x n]|]; [destruct Wd as [<-|[]]|];
      destruct l as [[|? ?]|], q as [[? ?]|], p as [[? ?]|], (e =? 0)%N;
      cbn [caps_local caps_dev caps_post caps_pre app group_of group_eqb];
      try reflexivity;
      unfold _parse_letter_version; cbn [truthy py list_ascii_of_string];
      rewrite int_str_of_int; reflexivity. }
  assert (Gl : _parse_local_version
                 (group_of g_local
                    (caps_local l ++ caps_dev d ++ caps_post q ++ caps_pre p
                     ++ [(g_release, print_release r)] ++ caps_epoch e))
               = l).
  { unfold caps_epoch.
    destruct l as [[|i ps]|].
    - destruct Wl as [Wl _]. congruence.
    - destruct Wl as [_ Wl]. cbn [caps_local app group_of group_eqb].
      now apply parse_local_printed.
    - destruct d as [[? ?]|], q as [[? ?]|], p as [[? ?]|], (e =? 0)%N;
        reflexivity. }
  rewrite Ge, Gr, Gp, Gq, Gd, Gl, split_print_release by assumption.
  f_equal. destruct (e =? 0)%N eqn:E.
  - apply N.eqb_eq in E. now subst e.
  - rewrite truthy_str_of_int. apply int_str_of_int.
Qed.

(** Parsing what [str] printed gives the version back. *)
Lemma parse_Version_str (v : Version) :
  wf v -> parse (Version_str v) = Ok v.
Proof.
  intros W. unfold parse, Version_init, re_match.
  destruct (run Version_regex (Version_str v)) as [|[m rest] tl] eqn:E.
  - destruct (Version_regex_matches v W) as [m H]. rewrite E in H.
    destruct H.
  - cbn [hd_error]. f_equal.
    rewrite (Version_regex_printed v m rest W); [now apply Version_of_caps|].
    rewrite E. now left.
Qed.

(** ** Numeric order of releases *)

Lemma strip_trailing_zeros_cons (a : N) (x : list N) :
  strip_trailing_zeros (a :: x)
  = match strip_trailing_zeros x with
    | [] => if (a =? 0)%N then [] else [a]
    | s => a :: s
    end.
Proof.
  unfold strip_trailing_zeros. cbn [rev].
  set (dw := fix dropwhile (l : list N) : list N :=
               match l with
               | [] => []
               | x :: l' => if (x =? 0)%N then dropwhile l' else l
               end).
  assert (A : forall l, dw (l ++ [a])
                        = match dw l with
                          | [] => if (a =? 0)%N then [] else [a]
                          | s => s ++ [a]
                          end).
  { induction l as [|y l IH]; simpl.
    - now destruct (a =? 0)%N.
    - destruct (y =? 0)%N; [apply IH|reflexivity]. }
  rewrite A. destruct (dw (rev x)) as [|y l] eqn:E.
  - now destruct (a =? 0)%N.
  - cbn [rev]. rewrite rev_app_distr. simpl.
    destruct (rev l ++ [y]) eqn:E'; [|reflexivity].
    now destruct (rev l).
Qed.

Lemma compare_stripped (x : list N) :
  forall y, length x = length y ->
            list_compare N.compare (strip_trailing_zeros x)
                         (strip_trailing_zeros y)
            = list_compare N.compare x y.
Proof.
  induction x as [|a x IH]; intros [|d y] L; try discriminate L;
    [reflexivity|].
  injection L as L. specialize (IH y L).
  rewrite !strip_trailing_zeros_cons. cbn [list_compare].
  destruct (strip_trailing_zeros x) as [|h t],
           (strip_trailing_zeros y) as [|h' t'];
    cbn [list_compare] in IH; rewrite <- IH.
  - destruct (N.eqb_spec a 0) as [->|Na], (N.eqb_spec d 0) as [->|Nd];
      cbn [list_compare lex].
    + reflexivity.
    + assert (H : (0 ?= d)%N = Lt) by (apply N.compare_lt_iff; lia).
      now rewrite H.
    + assert (H : (a ?= 0)%N = Gt) by (apply N.compare_gt_iff; lia).
      now rewrite H.
    + now destruct (a ?= d)%N.
  - destruct (N.eqb_spec a 0) as [->|Na]; cbn [list_compare lex].
    + destruct (0 ?= d)%N eqn:E; try reflexivity.
      apply N.compare_gt_iff in E. exfalso. lia.
    + reflexivity.
  - destruct (N.eqb_spec d 0) as [->|Nd]; cbn [list_compare lex].
    + destruct (a ?= 0)%N eqn:E; try reflexivity.
      apply N.compare_lt_iff in E. exfalso. exact (N.nlt_0_r _ E).
    + reflexivity.
  - reflexivity.
Qed.

Lemma semver_wf (a b c : N) : wf (semver a b c).
Proof. split; simpl; auto. discriminate. Qed.

Lemma semver_string_str (a b c : N) :
  semver_string a b c = Version_str (semver a b c).
Proof.
  unfold Version_str, semver_string. simpl. now rewrite !app_nil_r.
Qed.

Lemma parse_semver_string (a b c : N) :
  parse (semver_string a b c) = Ok (semver a b c).
Proof.
  rewrite semver_string_str. apply parse_Version_str, semver_wf.
Qed.

Lemma semver_compare (a b c d e f : N) :
  Version_compare (semver a b c) (semver d e f)
  = lex (a ?= d)%N (lex (b ?= e)%N (c ?= f)%N).
Proof.
  unfold Version_compare, key_compare. cbn [_cmpkey semver k_epoch k_release
    k_pre k_post k_dev k_local epoch release pre post dev local].
  rewrite compare_stripped by reflexivity.
  cbn [N.compare ext_compare lex list_compare].
  destruct (a ?= d)%N, (b ?= e)%N, (c ?= f)%N; reflexivity.
Qed.

(** C4: two version strings "a.b.c" and "d.e.f" parse to versions that
    compare as the triples (a, b, c) and (d, e, f) of numbers do, first
    difference first; "2.10.0" is greater than "2.9.0", which the
    comparison of the strings would put the other way round, and [max]
    selects it. *)
Theorem C4_numeric_order (a b c d e f : N) :
  parse (semver_string a b c) = Ok (semver a b c) /\
  parse (semver_string d e f) = Ok (semver d e f) /\
  Version_compare (semver a b c) (semver d e f)
  = lex (a ?= d)%N (lex (b ?= e)%N (c ?= f)%N) /\
  semver_string 2 10 0 = py "2.10.0" /\
  semver_string 2 9 0 = py "2.9.0" /\
  Version_gt (semver a b c) (semver d e f)
  = match lex (a ?= d)%N (lex (b ?= e)%N (c ?= f)%N) with
    | Gt => true
    | _ => false
    end /\
  Version_gt (semver 2 10 0) (semver 2 9 0) = true /\
  str_compare (py "2.10.0") (py "2.9.0") = Lt /\
  GithubReleases_call DolibarrPlugin (feed_of [py "2.10.0"; py "2.9.0"])
  = Ok (Some (py "2.10.0")).
Proof.
  split; [apply parse_semver_string|]. split; [apply parse_semver_string|].
  split; [apply semver_compare|].
  split; [reflexivity|]. split; [reflexivity|].
  split; [unfold Version_gt; now rewrite semver_compare|].
  repeat split.
Qed.

(** ** What a match captures, on any string *)

Lemma in_run_LitI (w : str) :
  forall s m rest,
    In (m, rest) (run (LitI w) s) ->
    m = [] /\ exists u, s = u ++ rest /\ lower u = w.
Proof.
  induction w as [|c w IH]; intros s m rest H.
  - destruct H as [[= <- <-]|[]]. split; [reflexivity|]. now exists [].
  - destruct w as [|c' w].
    + apply in_run_class in H as [x [-> [Hx ->]]].
      apply Ascii.eqb_eq in Hx. split; [reflexivity|]. exists [x].
      simpl. now rewrite Hx.
    + change (LitI (c :: c' :: w)) with (Seq (ChrI c) (LitI (c' :: w))) in H.
      apply in_run_seq in H as [m1 [mid [m2 [H1 [H2 ->]]]]].
      apply in_run_class in H1 as [x [-> [Hx ->]]].
      apply Ascii.eqb_eq in Hx.
      apply IH in H2 as [-> [u [-> Hu]]]. split; [reflexivity|].
      exists (x :: u). split; [reflexivity|].
      change (lower (x :: u)) with (lower_char x :: lower u).
      now rewrite Hx, Hu.
Qed.

Lemma pre_letters_inv (s : str) (m : captures) (rest : str) :
  In (m, rest) (run pre_letters s) ->
  m = [] /\
  exists u, s = u ++ rest /\
            In (lower u) [py "alpha"; py "a"; py "beta"; py "b";
                          py "preview"; py "pre"; py "c"; py "rc"].
Proof.
  unfold pre_letters. intros H.
  repeat (apply in_run_alt in H as [H|H];
          [apply in_run_LitI in H as [-> [u [-> <-]]];
           split; [reflexivity|]; exists u; split; [reflexivity|];
           simpl; tauto|]).
  apply in_run_LitI in H as [-> [u [-> <-]]].
  split; [reflexivity|]. exists u. split; [reflexivity|]. simpl. tauto.
Qed.

Lemma post_letters_inv (s : str) (m : captures) (rest : str) :
  In (m, rest) (run post_letters s) ->
  m = [] /\
  exists u, s = u ++ rest /\ In (lower u) [py "post"; py "rev"; py "r"].
Proof.
  unfold post_letters. intros H.
  repeat (apply in_run_alt in H as [H|H];
          [apply in_run_LitI in H as [-> [u [-> <-]]];
           split; [reflexivity|]; exists u; split; [reflexivity|];
           simpl; tauto|]).
  apply in_run_LitI in H as [-> [u [-> <-]]].
  split; [reflexivity|]. exists u. split; [reflexivity|]. simpl. tauto.
Qed.

Lemma dev_letters_inv (s : str) (m : captures) (rest : str) :
  In (m, rest) (run (LitI (py "dev")) s) ->
  m = [] /\ exists u, s = u ++ rest /\ In (lower u) [py "dev"].
Proof.
  intros H. apply in_run_LitI in H as [-> [u [-> <-]]].
  split; [reflexivity|]. exists u. split; [reflexivity|]. now left.
Qed.

Lemma opt_number_shape (gn : group) (s : str) (m : captures) (rest : str) :
  In (m, rest) (run (Opt (Group gn digits)) s) ->
  m = [] \/ exists ds, ds <> [] /\ m = [(gn, ds)].
Proof.
  intros H. apply in_run_opt in H as [H|[= E _]]; [|now left].
  apply in_run_group_inv in H as [mi [w [H [E ->]]]].
  apply in_run_digits in H as [-> [ds [N [E' _]]]].
  rewrite E' in E. apply app_inv_tail in E. subst w.
  right. now exists ds.
Qed.

Lemma letter_number_shape (gl gn : group) (letters : regex)
    (allowed : list str) (s : str) (m : captures) (rest : str) :
  (forall s m rest,
      In (m, rest) (run letters s) ->
      m = [] /\ exists u, s = u ++ rest /\ In (lower u) allowed) ->
  In (m, rest) (run (letter_number gl letters gn) s) ->
  exists u, In (lower u) allowed /\
            (m = [(gl, u)] \/ exists ds, ds <> [] /\ m = [(gn, ds); (gl, u)]).
Proof.
  intros HL H. unfold letter_number in H.
  apply in_run_seq in H as [ms1 [s1 [mr [Hs1 [H ->]]]]].
  apply in_run_seq in H as [ml [s2 [mr2 [Hl [H ->]]]]].
  apply in_run_seq in H as [ms2 [s3 [mn [Hs2 [Hn ->]]]]].
  assert (ms1 = []) by (revert Hs1; apply no_groups_nil; reflexivity).
  assert (ms2 = []) by (revert Hs2; apply no_groups_nil; reflexivity).
  subst ms1 ms2.
  apply in_run_group_inv in Hl as [mi [w [Hl [Ew ->]]]].
  apply HL in Hl as [-> [u [Eu Hu]]].
  rewrite Eu in Ew. apply app_inv_tail in Ew. subst w.
  exists u. split; [assumption|]. rewrite !app_nil_r.
  apply opt_number_shape in Hn as [->|[ds [N ->]]]; [now left|].
  right. now exists ds.
Qed.

Lemma epoch_re_shape (s : str) (m : captures) (rest : str) :
  In (m, rest) (run epoch_re s) -> epoch_shape m.
Proof.
  unfold epoch_re, epoch_shape. intros H.
  apply in_run_opt in H as [H|[= E _]]; [|now left].
  apply in_run_seq in H as [ma [s1 [mb [Ha [Hb ->]]]]].
  apply in_run_chr in Hb as [_ ->].
  apply in_run_group_inv in Ha as [mi [w [Ha [E ->]]]].
  apply in_run_digits in Ha as [-> [ds [N [E' _]]]].
  rewrite E' in E. apply app_inv_tail in E. subst w.
  right. now exists ds.
Qed.

Lemma release_re_shape (s : str) (m : captures) (rest : str) :
  In (m, rest) (run release_re s) -> release_shape m.
Proof.
  unfold release_re, release_shape. intros H.
  apply in_run_group_inv in H as [mi [w [H [E ->]]]]. exists w.
  f_equal. revert H. apply no_groups_nil. reflexivity.
Qed.

Lemma pre_re_shape (s : str) (m : captures) (rest : str) :
  In (m, rest) (run pre_re s) ->
  letter_shape g_pre_l g_pre_n
               [py "alpha"; py "a"; py "beta"; py "b";
                py "preview"; py "pre"; py "c"; py "rc"] m.
Proof.
  unfold pre_re, letter_shape. intros H.
  apply in_run_opt in H as [H|[= E _]]; [|now left]. right.
  exact (letter_number_shape _ _ _ _ _ _ _ pre_letters_inv H).
Qed.

Lemma dev_re_shape (s : str) (m : captures) (rest : str) :
  In (m, rest) (run dev_re s) ->
  letter_shape g_dev_l g_dev_n [py "dev"] m.
Proof.
  unfold dev_re, letter_shape. intros H.
  apply in_run_opt in H as [H|[= E _]]; [|now left]. right.
  exact (letter_number_shape _ _ _ _ _ _ _ dev_letters_inv H).
Qed.

Lemma post_re_shape (s : str) (m : captures) (rest : str) :
  In (m, rest) (run post_re s) -> post_shape m.
Proof.
  unfold post_re, post_shape, letter_shape. intros H.
  apply in_run_opt in H as [H|[= E _]]; [|right; now left].
  apply in_run_alt in H as [H|H].
  - left. apply in_run_seq in H as [ma [s1 [mb [Ha [Hb ->]]]]].
    apply in_run_chr in Ha as [_ ->].
    apply in_run_group_inv in Hb as [mi [w [Hb [E ->]]]].
    apply in_run_digits in Hb as [-> [ds [N [E' _]]]].
    rewrite E' in E. apply app_inv_tail in E. subst w. now exists ds.
  - right. right.
    exact (letter_number_shape _ _ _ _ _ _ _ post_letters_inv H).
Qed.

Lemma split_word_then (p u : str) :
  word_ok p ->
  u = [] \/ (exists c u', u = c :: u' /\ is_sep c = true /\
                          Forall word_ok (split_on is_sep u')) ->
  Forall word_ok (split_on is_sep (p ++ u)).
Proof.
  intros [Np Hp] Hu.
  assert (NS : forallb (fun c => negb (is_sep c)) p = true)
    by exact (forallb_impl _ _ _ alnum_not_sep Hp).
  rewrite (split_on_app is_sep p u NS).
  destruct Hu as [->|[c [u' [-> [Hc F]]]]].
  - simpl. rewrite app_nil_r. constructor; [now split|constructor].
  - cbn [split_on]. rewrite Hc, app_nil_r. constructor; [now split|assumption].
Qed.

Lemma star_sep_words (n : nat) :
  forall s m rest,
    length s <= n ->
    In (m, rest)
       (run (Star (Seq (Class is_sep) (Plus (Class is_alnum)))) s) ->
    exists u, s = u ++ rest /\
              (u = [] \/ exists c u', u = c :: u' /\ is_sep c = true /\
                                      Forall word_ok (split_on is_sep u')).
Proof.
  induction n as [|n IH]; intros s m rest L H;
    apply in_run_star in H as [[_ ->]|[m1 [mid [m2 [H1 [L' [H2 _]]]]]]];
    try (exists []; split; [reflexivity|now left]); [lia|].
  apply in_run_seq in H1 as [ma [s1 [mb [Ha [Hb _]]]]].
  apply in_run_class in Ha as [c [-> [Hc _]]].
  apply in_run_plus_class in Hb as [_ [x [w [-> [Hx Hw]]]]].
  apply IH in H2 as [u [-> Hu]];
    [|simpl in L; rewrite length_app in L; lia].
  exists (c :: (x :: w) ++ u). split.
  - simpl. now rewrite app_assoc.
  - right. exists c, ((x :: w) ++ u). repeat split; [assumption|].
    apply split_word_then; [|assumption].
    split; [discriminate|]. simpl. now rewrite Hx.
Qed.

Lemma local_re_shape (s : str) (m : captures) (rest : str) :
  In (m, rest) (run local_re s) -> local_shape m.
Proof.
  unfold local_re, local_shape. intros H.
  apply in_run_opt in H as [H|[= E _]]; [|now left]. right.
  apply in_run_seq in H as [ma [s1 [mb [Ha [Hb ->]]]]].
  apply in_run_chr in Ha as [_ ->].
  apply in_run_group_inv in Hb as [mi [w [Hb [E ->]]]].
  assert (mi = []) by (revert Hb; apply no_groups_nil; reflexivity).
  subst mi. exists w. split; [reflexivity|].
  apply in_run_seq in Hb as [m1 [s2 [m2 [H1 [H2 _]]]]].
  apply in_run_plus_class in H1 as [_ [x [p [E1 [Hx Hp]]]]].
  apply (star_sep_words (length s2)) in H2 as [u [E2 Hu]]; [|lia].
  subst s2. rewrite E1 in E.
  change (x :: p ++ u ++ rest) with ((x :: p) ++ u ++ rest) in E.
  rewrite app_assoc in E. apply app_inv_tail in E. subst w.
  apply split_word_then; [|assumption].
  split; [discriminate|]. simpl. now rewrite Hx.
Qed.

Lemma chain_shape (s : str) (m : captures) (rest : str) :
  In (m, rest) (run Version_chain s) ->
  exists ml md mq mp mr me,
    m = ml ++ md ++ mq ++ mp ++ mr ++ me /\
    local_shape ml /\
    letter_shape g_dev_l g_dev_n [py "dev"] md /\
    post_shape mq /\
    letter_shape g_pre_l g_pre_n
                 [py "alpha"; py "a"; py "beta"; py "b";
                  py "preview"; py "pre"; py "c"; py "rc"] mp /\
    release_shape mr /\ epoch_shape me.
Proof.
  unfold Version_chain, tail_epoch, tail_release, tail_pre, tail_post,
    tail_dev, tail_local. intros H.
  apply in_run_seq in H as [m0 [s0 [m0' [H0 [H ->]]]]].
  apply in_run_seq in H as [m1 [s1 [m1' [H1 [H ->]]]]].
  apply in_run_seq in H as [me [s2 [m2' [He [H ->]]]]].
  apply in_run_seq in H as [mr [s3 [m3' [Hr [H ->]]]]].
  apply in_run_seq in H as [mp [s4 [m4' [Hp [H ->]]]]].
  apply in_run_seq in H as [mq [s5 [m5' [Hq [H ->]]]]].
  apply in_run_seq in H as [md [s6 [m6' [Hd [H ->]]]]].
  apply in_run_seq in H as [ml [s7 [m7' [Hl [H ->]]]]].
  assert (m0 = []) by (revert H0; apply no_groups_nil; reflexivity).
  assert (m1 = []) by (revert H1; apply no_groups_nil; reflexivity).
  assert (m7' = []) by (revert H; apply no_groups_nil; reflexivity).
  subst m0 m1 m7'. exists ml, md, mq, mp, mr, me. repeat split.
  - rewrite !app_nil_r. cbn [app]. now rewrite <- !app_assoc.
  - now apply local_re_shape in Hl.
  - now apply dev_re_shape in Hd.
  - now apply post_re_shape in Hq.
  - now apply pre_re_shape in Hp.
  - now apply release_re_shape in Hr.
  - now apply epoch_re_shape in He.
Qed.

(** ** Every parsed version is well formed *)

Lemma group_eqb_eq (a b : group) : group_eqb a b = true -> a = b.
Proof. destruct a, b; simpl; congruence. Qed.

Lemma group_of_app (g : group) (a b : captures) :
  group_of g (a ++ b)
  = match group_of g a with
    | Some t => Some t
    | None => group_of g b
    end.
Proof.
  induction a as [|[g' t] a IH]; simpl; [reflexivity|].
  now destruct (group_eqb g g').
Qed.

Lemma group_of_within (gs : list group) (a : captures) (g : group) :
  groups_within gs a -> ~ In g gs -> group_of g a = None.
Proof.
  intros W N. induction a as [|[g' t] a IH]; simpl; [reflexivity|].
  destruct (group_eqb g g') eqn:E.
  - apply group_eqb_eq in E. subst g'. exfalso. apply N.
    apply (W (g, t)). now left.
  - apply IH. intros x Hx. apply W. now right.
Qed.

Lemma local_shape_within (m : captures) :
  local_shape m -> groups_within [g_local] m.
Proof.
  intros [->|[w [-> _]]] x H; simpl in H; [destruct H|].
  destruct H as [<-|[]]. now left.
Qed.

Lemma letter_shape_within (gl gn : group) (allowed : list str)
    (m : captures) :
  letter_shape gl gn allowed m -> groups_within [gl; gn] m.
Proof.
  intros [->|[u [_ [->|[ds [_ ->]]]]]] x H; simpl in H.
  - destruct H.
  - destruct H as [<-|[]]. now left.
  - destruct H as [<-|[<-|[]]]; simpl; tauto.
Qed.

Lemma post_shape_within (m : captures) :
  post_shape m -> groups_within [g_post_n1; g_post_l; g_post_n2] m.
Proof.
  intros [[ds [_ ->]]|H] x Hx.
  - destruct Hx as [<-|[]]. now left.
  - apply letter_shape_within in H. specialize (H x Hx). simpl in *. tauto.
Qed.

Lemma release_shape_within (m : captures) :
  release_shape m -> groups_within [g_release] m.
Proof. intros [w ->] x [<-|[]]. now left. Qed.

Lemma epoch_shape_within (m : captures) :
  epoch_shape m -> groups_within [g_epoch] m.
Proof.
  intros [->|[ds [_ ->]]] x H; simpl in H; [destruct H|].
  destruct H as [<-|[]]. now left.
Qed.

Lemma chain_group (g : group) (ml md mq mp mr me : captures) :
  groups_within [g_local] ml ->
  groups_within [g_dev_l; g_dev_n] md ->
  groups_within [g_post_n1; g_post_l; g_post_n2] mq ->
  groups_within [g_pre_l; g_pre_n] mp ->
  groups_within [g_release] mr ->
  groups_within [g_epoch] me ->
  group_of g (ml ++ md ++ mq ++ mp ++ mr ++ me)
  = match g with
    | g_local => group_of g ml
    | g_dev_l | g_dev_n => group_of g md
    | g_post_n1 | g_post_l | g_post_n2 => group_of g mq
    | g_pre_l | g_pre_n => group_of g mp
    | g_release => group_of g mr
    | g_epoch => group_of g me
    end.
Proof.
  intros Wl Wd Wq Wp Wr We. rewrite !group_of_app.
  destruct g;
    rewrite ?(group_of_within _ ml _ Wl), ?(group_of_within _ md _ Wd),
      ?(group_of_within _ mq _ Wq), ?(group_of_within _ mp _ Wp),
      ?(group_of_within _ mr _ Wr), ?(group_of_within _ me _ We)
      by (simpl; intuition discriminate);
    repeat match goal with
           | |- context [match group_of ?g ?m with _ => _ end] =>
               destruct (group_of g m)
           end; reflexivity.
Qed.

Lemma parse_letter_some (u : str) (n : option str) :
  u <> [] ->
  _parse_letter_version (Some u) n
  = Some (normalize_letter (lower u),
          match n with Some x => int x | None => 0%N end).
Proof. destruct u; [congruence|reflexivity]. Qed.

Lemma lower_nonempty (u : str) (allowed : list str) :
  In (lower u) allowed -> ~ In [] allowed -> u <> [].
Proof. intros H N ->. now apply N. Qed.

Lemma letter_shape_wf (gl gn : group) (allowed out : list str)
    (m : captures) :
  gl <> gn ->
  ~ In [] allowed ->
  (forall w, In w allowed -> In (normalize_letter w) out) ->
  letter_shape gl gn allowed m ->
  wf_letter out (_parse_letter_version (group_of gl m) (group_of gn m)).
Proof.
  intros Ng N0 Hn [->|[u [Hu [->|[ds [_ ->]]]]]].
  - exact I.
  - cbn [group_of]. replace (group_eqb gl gl) with true
      by (now destruct gl).
    replace (group_eqb gn gl) with false
      by (destruct gl, gn; try reflexivity; congruence).
    rewrite parse_letter_some by (now apply (lower_nonempty u allowed)).
    now apply Hn.
  - cbn [group_of]. replace (group_eqb gl gl) with true
      by (now destruct gl).
    replace (group_eqb gl gn) with false
      by (destruct gl, gn; try reflexivity; congruence).
    replace (group_eqb gn gn) with true by (now destruct gn).
    rewrite parse_letter_some by (now apply (lower_nonempty u allowed)).
    now apply Hn.
Qed.

Lemma alnum_lower_alnum (c : ascii) :
  is_alnum c = true -> is_lower_alnum (lower_char c) = true.
Proof.
  destruct c as [[] [] [] [] [] [] [] []]; intros H; try discriminate H;
    reflexivity.
Qed.

Lemma lower_char_digit (c : ascii) : is_digit (lower_char c) = is_digit c.
Proof. destruct c as [[] [] [] [] [] [] [] []]; reflexivity. Qed.

Lemma forallb_map_lower (p : ascii -> bool) (q : str) :
  forallb p (lower q) = forallb (fun c => p (lower_char c)) q.
Proof.
  induction q as [|c q IH]; simpl; [reflexivity|]. now rewrite IH.
Qed.

Lemma forallb_same {A : Type} (p q : A -> bool) (l : list A) :
  (forall a, p a = q a) -> forallb p l = forallb q l.
Proof.
  intros E. induction l as [|a l IH]; simpl; [reflexivity|].
  now rewrite E, IH.
Qed.

Lemma classify_wf (q : str) :
  word_ok q ->
  wf_part (if negb (isdigit q) then LStr (lower q) else LInt (int q)).
Proof.
  intros [Nq Hq]. destruct (isdigit q) eqn:E; [exact I|]. cbn [negb wf_part].
  repeat split.
  - rewrite forallb_map_lower. revert Hq. apply forallb_impl.
    apply alnum_lower_alnum.
  - destruct q as [|c q]; [congruence|]. unfold isdigit in *.
    change (lower (c :: q)) with (lower_char c :: lower q).
    change (lower_char c :: lower q) with (lower (c :: q)).
    rewrite <- E, forallb_map_lower. apply forallb_same.
    apply lower_char_digit.
  - destruct q; [congruence|discriminate].
Qed.

Lemma local_shape_wf (m : captures) :
  local_shape m -> wf_local (_parse_local_version (group_of g_local m)).
Proof.
  intros [->|[w [-> F]]]; [exact I|]. cbn [group_of group_eqb
    _parse_local_version wf_local]. split.
  - destruct (split_on_hd is_sep w) as [h [t ->]]. discriminate.
  - apply Forall_map. revert F. apply Forall_impl. apply classify_wf.
Qed.

Lemma Version_of_match_wf (s : str) (m : captures) (rest : str) :
  In (m, rest) (run Version_regex s) -> wf (Version_of_match m).
Proof.
  intros H. apply Version_chain_iff, chain_shape in H.
  destruct H as [ml [md [mq [mp [mr [me [-> [Sl [Sd [Sq [Sp [Sr Se]]]]]]]]]]]].
  pose proof (local_shape_within _ Sl) as Wl.
  pose proof (letter_shape_within _ _ _ _ Sd) as Wd.
  pose proof (post_shape_within _ Sq) as Wq.
  pose proof (letter_shape_within _ _ _ _ Sp) as Wp.
  pose proof (release_shape_within _ Sr) as Wr.
  pose proof (epoch_shape_within _ Se) as We.
  unfold Version_of_match.
  rewrite !(chain_group _ ml md mq mp mr me Wl Wd Wq Wp Wr We).
  split; cbn [epoch release pre post dev local].
  - destruct Sr as [w ->]. cbn [group_of group_eqb]. unfold split.
    destruct (split_on_hd (Ascii.eqb ".") w) as [h [t ->]]. discriminate.
  - apply (letter_shape_wf g_pre_l g_pre_n
             [py "alpha"; py "a"; py "beta"; py "b";
              py "preview"; py "pre"; py "c"; py "rc"]
             [py "a"; py "b"; py "rc"] mp); try assumption.
    + discriminate.
    + simpl. intuition discriminate.
    + intros w Hw. simpl in Hw.
      repeat (destruct Hw as [<-|Hw]; [simpl; tauto|]). destruct Hw.
  - destruct Sq as [[ds [Nd ->]]|Sq].
    + cbn [group_of group_eqb or_else truthy].
      destruct ds as [|c ds]; [congruence|]. simpl. tauto.
    + assert (E : or_else (group_of g_post_n1 mq) (group_of g_post_n2 mq)
                  = group_of g_post_n2 mq).
      { rewrite (group_of_within [g_post_l; g_post_n2] mq g_post_n1);
          [reflexivity| |simpl; intuition discriminate].
        now apply letter_shape_within in Sq. }
      rewrite E.
      apply (letter_shape_wf g_post_l g_post_n2
               [py "post"; py "rev"; py "r"] [py "post"] mq);
        try assumption.
      * discriminate.
      * simpl. intuition discriminate.
      * intros w Hw. simpl in Hw.
        repeat (destruct Hw as [<-|Hw]; [simpl; tauto|]). destruct Hw.
  - apply (letter_shape_wf g_dev_l g_dev_n [py "dev"] [py "dev"] md);
      try assumption.
    + discriminate.
    + simpl. intuition discriminate.
    + intros w [<-|[]]. simpl. tauto.
  - now apply local_shape_wf.
Qed.

Lemma parse_wf (s : str) (v : Version) : parse s = Ok v -> wf v.
Proof.
  unfold parse, Version_init, re_match.
  destruct (run Version_regex s) as [|[m rest] tl] eqn:E;
    cbn [hd_error]; [discriminate|].
  intros [= <-]. apply (Version_of_match_wf s m rest). rewrite E. now left.
Qed.

(** C9: printing a parsed version with [str] and parsing the string again
    gives the version back, field for field, and so a version that
    compares equal to it. *)
Theorem C9_parse_str_roundtrip (s : str) (v : Version) :
  parse s = Ok v ->
  parse (Version_str v) = Ok v /\
  (forall w, parse (Version_str v) = Ok w -> Version_eq w v = true).
Proof.
  intros H. pose proof (parse_Version_str v (parse_wf s v H)) as R.
  split; [exact R|]. intros w Hw. rewrite R in Hw. injection Hw as <-.
  unfold Version_eq, Version_compare.
  now rewrite (order_refl key_compare key_compare_order).
Qed.

Lemma C9_parse_str_roundtrip_witness :
  parse (Version_str (semver 1 2 3)) = Ok (semver 1 2 3).
Proof.
  apply (C9_parse_str_roundtrip (py " v1.2.3 ") (semver 1 2 3)).
  reflexivity.
Defined.

(* ================================================================== *)
(** * Further properties of the plugins *)

(** ** Which maximum [max] returns *)

Lemma Version_gt_trans (a b c : Version) :
  Version_gt a b = true -> Version_gt b c = true -> Version_gt a c = true.
Proof.
  unfold Version_gt, Version_compare. intros H1 H2.
  pose proof key_compare_order as O.
  destruct (key_compare (_cmpkey a) (_cmpkey b)) eqn:E1; try discriminate.
  destruct (key_compare (_cmpkey b) (_cmpkey c)) eqn:E2; try discriminate.
  apply (order_gt_lt key_compare O) in E1, E2.
  pose proof (ord_trans _ O _ _ _ E2 E1) as T.
  apply (order_gt_lt key_compare O) in T. now rewrite T.
Qed.

Lemma Version_gt_over (x m y : Version) :
  Version_gt x m = false -> Version_gt y m = true -> Version_gt y x = true.
Proof.
  unfold Version_gt, Version_compare. intros H1 H2.
  pose proof (order_le_trans key_compare key_compare_order
                (_cmpkey y) (_cmpkey x) (_cmpkey m)) as T.
  destruct (key_compare (_cmpkey y) (_cmpkey x)) eqn:E; try reflexivity;
    exfalso;
    (destruct (key_compare (_cmpkey x) (_cmpkey m)); try discriminate;
     destruct (key_compare (_cmpkey y) (_cmpkey m)); try discriminate;
     apply T; congruence).
Qed.

Lemma max_version_scan (rest : list Version) :
  forall (before : list Version) (m : Version) (mid : list Version),
    (forall x, In x before -> Version_gt m x = true) ->
    (forall x, In x mid -> Version_gt x m = false) ->
    exists b a,
      before ++ m :: mid ++ rest = b ++ max_version m rest :: a /\
      (forall x, In x b -> Version_gt (max_version m rest) x = true) /\
      (forall x, In x a -> Version_gt x (max_version m rest) = false).
Proof.
  unfold max_version. induction rest as [|y rest IH]; intros before m mid B M.
  - exists before, mid. rewrite app_nil_r. auto.
  - cbn [fold_left]. destruct (Version_gt y m) eqn:E.
    + destruct (IH (before ++ m :: mid) y []) as [b [a [Eq [Hb Ha]]]].
      * intros x Hx. apply in_app_or in Hx as [Hx|[<-|Hx]].
        -- apply Version_gt_trans with m; auto.
        -- assumption.
        -- apply Version_gt_over with m; auto.
      * intros x [].
      * exists b, a. split; [|auto]. rewrite <- Eq, <- app_assoc. reflexivity.
    + destruct (IH before m (mid ++ [y])) as [b [a [Eq [Hb Ha]]]].
      * assumption.
      * intros x Hx. apply in_app_or in Hx as [Hx|[<-|[]]]; auto.
      * exists b, a. split; [|auto]. rewrite <- Eq, <- app_assoc. reflexivity.
Qed.

(** X1: [max] returns the first of the greatest versions: every version
    before it in the list is strictly smaller, none after it is greater. *)
Theorem max_version_first (first : Version) (rest : list Version) :
  exists before after,
    first :: rest = before ++ max_version first rest :: after /\
    (forall x, In x before -> Version_gt (max_version first rest) x = true) /\
    (forall x, In x after -> Version_gt x (max_version first rest) = false).
Proof.
  destruct (max_version_scan rest [] first []) as [b [a H]];
    [intros x []|intros x []|]. now exists b, a.
Qed.

(** ** The run as a function of the feed *)

Lemma parse_all_app (a b : list str) :
  parse_all (a ++ b) =
  bind (parse_all a) (fun va =>
  bind (parse_all b) (fun vb => Ok (va ++ vb))).
Proof.
  induction a as [|c a IH]; cbn [app parse_all bind].
  - destruct (parse_all b); reflexivity.
  - destruct (parse c); cbn [bind]; [|reflexivity].
    rewrite IH. destruct (parse_all a); cbn [bind]; [|reflexivity].
    destruct (parse_all b); reflexivity.
Qed.

Lemma parse_all_In (cs : list str) :
  forall vs v, parse_all cs = Ok vs -> In v vs ->
               exists c, In c cs /\ parse c = Ok v.
Proof.
  induction cs as [|c cs IH]; cbn [parse_all]; intros vs v H Hv.
  - injection H as <-. destruct Hv.
  - destruct (parse c) as [v0|] eqn:P; cbn [bind] in H; [|discriminate].
    destruct (parse_all cs) as [vs0|]; cbn [bind] in H; [|discriminate].
    injection H as <-. destruct Hv as [<-|Hv].
    + exists c. split; [now left|assumption].
    + destruct (IH vs0 v eq_refl Hv) as [c' [I E]].
      exists c'. split; [now right|assumption].
Qed.

Lemma parse_all_perm (cs cs' : list str) :
  Permutation cs cs' ->
  forall vs, parse_all cs = Ok vs ->
             exists vs', parse_all cs' = Ok vs' /\ Permutation vs vs'.
Proof.
  induction 1 as [|c l l' P IH|c d l|l l' l'' P1 IH1 P2 IH2]; intros vs H.
  - exists vs. split; [assumption|cbn in H; injection H as <-; constructor].
  - cbn [parse_all] in *. destruct (parse c) as [v|]; cbn [bind] in *;
      [|discriminate].
    destruct (parse_all l) as [vl|]; cbn [bind] in *; [|discriminate].
    injection H as <-. destruct (IH vl eq_refl) as [vl' [E Q]].
    rewrite E. cbn [bind]. exists (v :: vl'). split; [reflexivity|].
    now constructor.
  - cbn [parse_all] in *.
    destruct (parse d) as [vd|]; cbn [bind] in *; [|discriminate].
    destruct (parse c) as [vc|]; cbn [bind] in *; [|discriminate].
    destruct (parse_all l) as [vl|]; cbn [bind] in *; [|discriminate].
    injection H as <-. exists (vc :: vd :: vl). split; [reflexivity|].
    apply perm_swap.
  - destruct (IH1 vs H) as [vs1 [E1 Q1]].
    destruct (IH2 vs1 E1) as [vs2 [E2 Q2]].
    exists vs2. split; [assumption|]. now apply perm_trans with vs1.
Qed.

Lemma candidates_perm (self : GithubReleases) (titles titles' : list str) :
  Permutation titles titles' ->
  Permutation (candidates self titles) (candidates self titles').
Proof.
  induction 1 as [|t l l' P IH|t u l|l l' l'' P1 IH1 P2 IH2];
    cbn [candidates].
  - constructor.
  - destruct (candidate self t); [now constructor|assumption].
  - destruct (candidate self t), (candidate self u);
      try apply Permutation_refl. apply perm_swap.
  - now apply perm_trans with (candidates self l').
Qed.

Lemma Version_eq_of_le (a b : Version) :
  Version_gt a b = false -> Version_gt b a = false -> Version_eq a b = true.
Proof.
  unfold Version_gt, Version_eq, Version_compare. intros H1 H2.
  rewrite (ord_opp _ key_compare_order (_cmpkey a) (_cmpkey b)) in H2.
  destruct (key_compare (_cmpkey a) (_cmpkey b)); cbn in *;
    congruence.
Qed.

Lemma newest_cases (vs : list Version) :
  (vs = [] /\ newest vs = None) \/
  exists m, In m vs /\ newest vs = Some (Version_str m) /\
            forall x, In x vs -> Version_gt x m = false.
Proof.
  destruct vs as [|v vs]; [now left|right].
  destruct (max_version_spec vs v) as [I M].
  exists (max_version v vs). auto.
Qed.

Lemma parse_all_wf (cs : list str) (vs : list Version) (v : Version) :
  parse_all cs = Ok vs -> In v vs -> wf v.
Proof.
  intros H I. destruct (parse_all_In cs vs v H I) as [c [_ P]].
  now apply parse_wf with c.
Qed.

(** X2: the order of the entries of the feed does not matter: on a
    reordered feed a plugin raises again, finds nothing again, or returns
    a release that compares equal as a version. *)
Theorem feed_order_irrelevant (self : GithubReleases)
    (titles titles' : list str) :
  In self feed_plugins ->
  Permutation titles titles' ->
  same_release (GithubReleases_call self (feed_of titles))
               (GithubReleases_call self (feed_of titles')).
Proof.
  intros Hs P. rewrite !GithubReleases_call_spec by assumption.
  pose proof (candidates_perm self _ _ P) as PC.
  destruct (parse_all (candidates self titles)) as [vs|e] eqn:E.
  - destruct (parse_all_perm _ _ PC vs E) as [vs' [E' Q]].
    rewrite E'. cbn [bind same_release].
    destruct (newest_cases vs) as [[-> N]|[m [I [N M]]]].
    + apply Permutation_nil in Q. subst vs'. exact I.
    + destruct (newest_cases vs') as [[-> N']|[m' [I' [N' M']]]].
      * apply Permutation_sym, Permutation_nil in Q. subst vs.
        destruct I.
      * rewrite N, N'. exists m, m'.
        split; [apply parse_Version_str; now apply parse_all_wf with (1 := E)|].
        split; [apply parse_Version_str; now apply parse_all_wf with (1 := E')|].
        apply Version_eq_of_le.
        -- apply M'. now apply Permutation_in with vs.
        -- apply M. apply Permutation_in with vs'; [now apply Permutation_sym|].
           assumption.
  - destruct (parse_all (candidates self titles')) as [vs'|e'] eqn:E'.
    + destruct (parse_all_perm _ _ (Permutation_sym PC) vs' E') as [vs [F _]].
      congruence.
    + cbn [bind same_release].
      apply parse_all_raises in E, E'. congruence.
Qed.

Lemma feed_order_irrelevant_witness :
  same_release
    (GithubReleases_call DolibarrPlugin
       (feed_of [py "1.0"; py "2.0.0"; py "2.0"]))
    (GithubReleases_call DolibarrPlugin
       (feed_of [py "2.0"; py "1.0"; py "2.0.0"])).
Proof.
  apply (feed_order_irrelevant DolibarrPlugin
           [py "1.0"; py "2.0.0"; py "2.0"] [py "2.0"; py "1.0"; py "2.0.0"]).
  - unfold feed_plugins. simpl. tauto.
  - apply Permutation_sym, (Permutation_cons_app [_; _] []).
    apply Permutation_refl.
Defined.

(** X3: entries added before or after a feed never make the result older:
    when the plugin returned a release for the feed and does not raise on
    the longer one, it returns a release there that is not smaller. *)
Theorem more_entries_not_older (self : GithubReleases)
    (before titles after : list str) (s : str) (r : option str) :
  In self feed_plugins ->
  GithubReleases_call self (feed_of titles) = Ok (Some s) ->
  GithubReleases_call self (feed_of (before ++ titles ++ after)) = Ok r ->
  exists s' v v',
    r = Some s' /\ parse s = Ok v /\ parse s' = Ok v' /\
    Version_gt v v' = false.
Proof.
  intros Hs. rewrite !GithubReleases_call_spec by assumption.
  rewrite !candidates_app, !parse_all_app.
  destruct (parse_all (candidates self titles)) as [vs|] eqn:E;
    cbn [bind]; [|discriminate].
  destruct (parse_all (candidates self before)) as [vb|] eqn:Eb;
    cbn [bind]; [|discriminate].
  destruct (parse_all (candidates self after)) as [va|] eqn:Ea;
    cbn [bind]; [|discriminate].
  intros [= N] [= R].
  destruct (newest_cases vs) as [[_ N0]|[m [I [N1 _]]]]; [congruence|].
  assert (s = Version_str m) as -> by congruence.
  destruct (newest_cases (vb ++ vs ++ va)) as [[Z _]|[m' [I' [N' M']]]].
  - exfalso. apply app_eq_nil in Z as [_ Z]. apply app_eq_nil in Z as [Z _].
    subst vs. destruct I.
  - exists (Version_str m'), m, m'.
    split; [congruence|].
    split; [apply parse_Version_str; now apply parse_all_wf with (1 := E)|].
    split.
    + apply parse_Version_str.
      apply in_app_or in I' as [I'|I'];
        [now apply parse_all_wf with (1 := Eb)|].
      apply in_app_or in I' as [I'|I'];
        [now apply parse_all_wf with (1 := E)
        |now apply parse_all_wf with (1 := Ea)].
    + apply M'. apply in_or_app. right. apply in_or_app. now left.
Qed.

Lemma more_entries_not_older_witness :
  exists s' v v',
    Some (py "1.10.0") = Some s' /\ parse (py "1.9.0") = Ok v /\
    parse s' = Ok v' /\ Version_gt v v' = false.
Proof.
  apply (more_entries_not_older HumhubPlugin [py "1.10.0"]
           [py "1.9.0"; py "1.8.2"] [py "1.10.0-rc1"] (py "1.9.0")
           (Some (py "1.10.0"))).
  - unfold feed_plugins. simpl. tauto.
  - vm_compute. reflexivity.
  - vm_compute. reflexivity.
Defined.

(** X4: the string a feed plugin returns is a version in canonical form:
    it parses, printing the parsed version gives the same string back, and
    it begins with a digit. *)
Theorem result_is_canonical (self : GithubReleases) (titles : list str)
    (s : str) :
  In self feed_plugins ->
  GithubReleases_call self (feed_of titles) = Ok (Some s) ->
  exists v c rest,
    parse s = Ok v /\ Version_str v = s /\
    s = c :: rest /\ is_digit c = true.
Proof.
  intros Hs. rewrite GithubReleases_call_spec by assumption.
  destruct (parse_all (candidates self titles)) as [vs|] eqn:E;
    cbn [bind]; [|discriminate].
  intros [= N].
  destruct (newest_cases vs) as [[_ N0]|[m [I [N1 _]]]]; [congruence|].
  assert (s = Version_str m) as -> by congruence.
  pose proof (parse_all_wf _ _ _ E I) as W.
  destruct (Version_str_head m (wf_release m W)) as [c [y [Eq D]]].
  exists m, c, y. split; [now apply parse_Version_str|]. auto.
Qed.

Lemma result_is_canonical_witness :
  exists v c rest,
    parse (py "1.2.3rc1") = Ok v /\ Version_str v = py "1.2.3rc1" /\
    py "1.2.3rc1" = c :: rest /\ is_digit c = true.
Proof.
  apply (result_is_canonical FroxlorPlugin
           [py "Froxlor 1.2.3-pre1 released"; py "froxlor 9.9"]).
  - unfold feed_plugins. simpl. tauto.
  - vm_compute. reflexivity.
Defined.

(** X5: a returned release fed back as the only title of a feed of a
    plugin that takes the whole title (dolibarr, humhub) is returned
    unchanged, unless it contains a blocked word, in which case nothing is
    found. *)
Theorem result_fed_back (self self' : GithubReleases) (titles : list str)
    (s : str) :
  In self feed_plugins ->
  In self' title_plugins ->
  GithubReleases_call self (feed_of titles) = Ok (Some s) ->
  GithubReleases_call self' (feed_of [s]) =
  Ok (if blocked s then None else Some s).
Proof.
  intros Hs Hs'. rewrite GithubReleases_call_spec by assumption.
  destruct (parse_all (candidates self titles)) as [vs|] eqn:E;
    cbn [bind]; [|discriminate].
  intros [= N].
  destruct (newest_cases vs) as [[_ N0]|[m [I [N1 _]]]]; [congruence|].
  assert (s = Version_str m) as Es by congruence.
  pose proof (parse_all_wf _ _ _ E I) as W.
  destruct (Version_str_head m (wf_release m W)) as [c [y [Eq _]]].
  assert (In self' feed_plugins) as F.
  { unfold title_plugins, feed_plugins in *. simpl in *.
    destruct Hs' as [<-|[<-|[]]]; tauto. }
  assert (version_from_title self' s = Ok (Some s)) as V.
  { unfold title_plugins in Hs'. simpl in Hs'.
    destruct Hs' as [<-|[<-|[]]]; reflexivity. }
  rewrite GithubReleases_call_spec by assumption.
  cbn [candidates]. unfold candidate. rewrite V.
  destruct (blocked s); [reflexivity|].
  rewrite Es at 1. rewrite Eq. rewrite <- Eq. cbn [parse_all].
  rewrite (parse_Version_str m W). cbn [bind newest max_version fold_left].
  now rewrite Es.
Qed.

Lemma result_fed_back_witness :
  GithubReleases_call DolibarrPlugin (feed_of [py "1.2.3rc1"]) =
  Ok (if blocked (py "1.2.3rc1") then None else Some (py "1.2.3rc1")).
Proof.
  apply (result_fed_back FroxlorPlugin DolibarrPlugin
           [py "Froxlor 1.2.3-pre1 released"; py "froxlor 9.9"]).
  - unfold feed_plugins. simpl. tauto.
  - unfold title_plugins. simpl. tauto.
  - vm_compute. reflexivity.
Defined.

(** ** Characters no version holds *)

Lemma run_within (P : ascii -> bool) (r : regex) :
  within P r ->
  forall s m rest, In (m, rest) (run r s) ->
                   exists w, s = w ++ rest /\ forallb P w = true.
Proof.
  induction r as [|p|r1 IH1 r2 IH2|r1 IH1 r2 IH2|r IH|r IH|g r IH|];
    cbn [within]; intros W s m rest H.
  - destruct H as [[= _ <-]|[]]. now exists [].
  - apply in_run_class in H as [c [-> [Hc _]]].
    exists [c]. cbn. now rewrite (W c Hc).
  - destruct W as [W1 W2].
    apply in_run_seq in H as [m1 [mid [m2 [H1 [H2 _]]]]].
    destruct (IH1 W1 _ _ _ H1) as [w1 [-> F1]].
    destruct (IH2 W2 _ _ _ H2) as [w2 [-> F2]].
    exists (w1 ++ w2). rewrite <- app_assoc, forallb_app, F1, F2. now split.
  - destruct W as [W1 W2].
    apply in_run_alt in H as [H|H]; [now apply IH1 with m|now apply IH2 with m].
  - apply in_run_opt in H as [H|[= _ <-]]; [now apply IH with m|now exists []].
  - remember (length s) as n eqn:L.
    assert (length s <= n) as Le by lia. clear L.
    revert s m rest Le H.
    induction n as [|n IHn]; intros s m rest Le H;
      apply in_run_star in H
        as [[_ ->]|[m1 [mid [m2 [H1 [Lt [H2 _]]]]]]];
      try (now exists []); [lia|].
    destruct (IH W _ _ _ H1) as [w1 [-> F1]].
    destruct (IHn mid m2 rest) as [w2 [-> F2]]; [lia|assumption|].
    exists (w1 ++ w2). rewrite <- app_assoc, forallb_app, F1, F2. now split.
  - apply in_run_group in H as [m1 [H _]]. now apply IH with m1.
  - apply in_run_eos in H as [_ [-> _]]. now exists [].
Qed.

Lemma Version_regex_within : within pep440_char Version_regex.
Proof.
  repeat split;
    intros [[] [] [] [] [] [] [] []]; vm_compute; intros H;
      solve [reflexivity | discriminate H].
Qed.

Lemma Version_regex_alphabet (s : str) (m : captures) (rest : str) :
  In (m, rest) (run Version_regex s) -> forallb pep440_char s = true.
Proof.
  intros H.
  destruct (run_within _ _ Version_regex_within _ _ _ H) as [w [-> F]].
  rewrite forallb_app, F. cbn [andb].
  unfold Version_regex in H.
  apply in_run_seq in H as [_ [s1 [m1 [_ [H _]]]]].
  apply in_run_seq in H as [_ [s2 [m2 [_ [H _]]]]].
  apply in_run_seq in H as [_ [s3 [m3 [_ [H _]]]]].
  apply in_run_eos in H as [_ [-> [->| ->]]]; reflexivity.
Qed.

Lemma parse_alphabet (s : str) (c : ascii) :
  In c s -> pep440_char c = false -> parse s = Raise InvalidVersion.
Proof.
  intros I F. unfold parse, Version_init.
  destruct (re_match Version_regex s) as [[m rest]|] eqn:M; [|reflexivity].
  exfalso. unfold re_match in M.
  assert (In (m, rest) (run Version_regex s)) as H.
  { destruct (run Version_regex s); [discriminate|].
    injection M as ->. now left. }
  apply Version_regex_alphabet in H.
  rewrite forallb_forall in H. rewrite (H c I) in F. discriminate.
Qed.

(** X6: a candidate with a character that is not white space, a letter,
    a digit or one of [-_.+!] (a bracket, a comma, a slash) makes the run
    raise [InvalidVersion], whatever the other entries are. *)
Theorem foreign_character_raises (self : GithubReleases)
    (before : list str) (title : str) (after : list str)
    (cand : str) (c : ascii) :
  In self feed_plugins ->
  candidate self title = Some cand ->
  In c cand -> pep440_char c = false ->
  GithubReleases_call self (feed_of (before ++ title :: after))
  = Raise InvalidVersion.
Proof.
  intros Hs C I F. rewrite GithubReleases_call_spec by assumption.
  rewrite candidates_app. cbn [candidates]. rewrite C.
  destruct (parse_all_app_raise (candidates self before)
              (candidates self after) cand (parse_alphabet cand c I F))
    as [e E].
  rewrite E. cbn [bind]. f_equal. now apply parse_all_raises in E.
Qed.

Lemma foreign_character_raises_witness :
  GithubReleases_call SignalCliPlugin
    (feed_of ([py "Version 0.11.6"] ++ py "Version 0.11.5 (hotfix)"
              :: [py "Version 0.11.4"]))
  = Raise InvalidVersion.
Proof.
  apply (foreign_character_raises SignalCliPlugin [py "Version 0.11.6"]
           (py "Version 0.11.5 (hotfix)") [py "Version 0.11.4"]
           (py "0.11.5 (hotfix)") "("%char).
  - unfold feed_plugins. simpl. tauto.
  - vm_compute. reflexivity.
  - simpl. tauto.
  - vm_compute. reflexivity.
Defined.

(** ** [strip] and the v-prefix rule *)

Lemma lstrip_all (p : ascii -> bool) (w s : str) :
  forallb p w = true -> lstrip p (w ++ s) = lstrip p s.
Proof.
  induction w as [|c w IH]; cbn [forallb app lstrip]; [reflexivity|].
  intros H. apply andb_true_iff in H as [-> H]. now apply IH.
Qed.

Lemma lstrip_stop (p : ascii -> bool) (s : str) :
  match s with c :: _ => p c = false | [] => True end -> lstrip p s = s.
Proof. destruct s as [|c s]; cbn [lstrip]; [reflexivity|]. now intros ->. Qed.

Lemma strip_unique (chars before t after : str) :
  let p c := existsb (Ascii.eqb c) chars in
  forallb p before = true -> forallb p after = true ->
  match t with c :: _ => p c = false | [] => True end ->
  match rev t with c :: _ => p c = false | [] => True end ->
  strip chars (before ++ t ++ after) = t.
Proof.
  intros p B A H T. unfold strip, rstrip. fold p.
  rewrite (lstrip_all p before) by assumption.
  destruct t as [|c t].
  - cbn [app]. rewrite <- (app_nil_r after), (lstrip_all p after) by assumption.
    reflexivity.
  - rewrite (lstrip_stop p ((c :: t) ++ after)) by exact H.
    rewrite rev_app_distr, (lstrip_all p (rev after))
      by now rewrite forallb_rev.
    rewrite (lstrip_stop p (rev (c :: t))) by exact T.
    apply rev_involutive.
Qed.

(** X7: the v-prefix rule ignores any number of [v] characters at either
    end of the title: with them or without them the candidate is the
    same. *)
Theorem v_padding_ignored (vs title vs' : str) :
  forallb is_v vs = true -> forallb is_v vs' = true ->
  semver_version_from_title (vs ++ title ++ vs')
  = semver_version_from_title title.
Proof.
  intros V V'. unfold semver_version_from_title.
  destruct (strip_spec (py "v") title) as [b [a [E [B [A [H T]]]]]].
  cbn zeta in *.
  assert (strip (py "v") (vs ++ title ++ vs') = strip (py "v") title) as ->;
    [|reflexivity].
  rewrite E at 1.
  replace (vs ++ (b ++ strip (py "v") title ++ a) ++ vs')
    with ((vs ++ b) ++ strip (py "v") title ++ (a ++ vs'))
    by now rewrite <- !app_assoc.
  apply strip_unique; try assumption.
  - rewrite forallb_app. apply andb_true_iff. split; assumption.
  - rewrite forallb_app. apply andb_true_iff. split; assumption.
Qed.

Lemma v_padding_ignored_witness :
  semver_version_from_title (py "vv" ++ py "25.0.3" ++ py "v")
  = semver_version_from_title (py "25.0.3").
Proof.
  apply (v_padding_ignored (py "vv") (py "25.0.3") (py "v")); reflexivity.
Defined.

(** X8: a candidate of the v-prefix rule is a fixed point of the rule: it
    begins with the three groups of digits, does not end with [v], and
    the rule applied to it gives it back. *)
Theorem semver_candidate_fixed (title cand : str) :
  semver_version_from_title title = Ok (Some cand) ->
  semver_at_start cand /\
  (forall w, cand <> w ++ py "v") /\
  semver_version_from_title cand = Ok (Some cand).
Proof.
  unfold semver_version_from_title.
  destruct (strip_spec (py "v") title) as [b [a [E [B [A [H T]]]]]].
  cbv zeta in E, H, T.
  remember (strip (py "v") title) as t eqn:Et. clear Et.
  destruct (re_match semver_regex t) as [x|] eqn:M; [|discriminate].
  intros [= <-].
  assert (strip (py "v") t = t) as I.
  { rewrite <- (app_nil_r t) at 1.
    apply (strip_unique (py "v") [] t []); auto. }
  split; [apply semver_regex_spec; now exists x|]. split.
  - intros w Ew. rewrite Ew, rev_app_distr in T. cbn in T. discriminate.
  - rewrite I, M. reflexivity.
Qed.

Lemma semver_candidate_fixed_witness :
  semver_at_start (py "3.11.2-rc1") /\
  (forall w, py "3.11.2-rc1" <> w ++ py "v") /\
  semver_version_from_title (py "3.11.2-rc1") = Ok (Some (py "3.11.2-rc1")).
Proof.
  apply (semver_candidate_fixed (py "v3.11.2-rc1")). vm_compute. reflexivity.
Defined.

(** ** The mapping [most_recent] builds *)





(** X10: the first plugin of the registry that raises decides the
    request: [most_recent] raises its exception, whatever the plugins
    after it would return. *)
Theorem most_recent_first_failure (net : Network)
    (before : list VersionPlugin) (p : VersionPlugin)
    (after : list VersionPlugin) (e : exn) :
  registry = before ++ p :: after ->
  (forall q, In q before -> exists v, call q net = Ok v) ->
  call p net = Raise e ->
  most_recent net = Raise e.
Proof.
  unfold most_recent. intros -> B C. generalize (@nil (str * option str)).
  induction before as [|q before IH]; intros d; cbn [app aggregate].
  - now rewrite C.
  - destruct (B q) as [v E]; [now left|]. rewrite E. cbn [bind].
    apply IH. intros q' Hq'. apply B. now right.
Qed.

Lemma most_recent_first_failure_witness :
  most_recent
    (fun url => if str_eqb url (releases_url SignalCliPlugin)
                then Raise ConnectionError
                else Ok {| status_ok := false;
                           json_body := Ok (JObject []);
                           feed_entries := Raise FeedParseError |})
  = Raise HTTPError.
Proof.
  apply (most_recent_first_failure _ [] WordpressPlugin
           (map plugin_of feed_plugins)).
  - reflexivity.
  - intros q [].
  - vm_compute. reflexivity.
Defined.

Lemma registry_feed_plugins :
  registry = WordpressPlugin :: map plugin_of feed_plugins.
Proof. reflexivity. Qed.

(** X11: [most_recent] returns a mapping only when every fetch went well:
    each of the ten URLs was answered, with a good status, the
    stable-check answer was a JSON object and every releases page was a
    feed that could be parsed.  There is no partial mapping. *)
Theorem most_recent_needs_every_fetch (net : Network)
    (d : dict (option str)) :
  most_recent net = Ok d ->
  (exists r items,
      net stable_check_url = Ok r /\ status_ok r = true /\
      json_body r = Ok (JObject items)) /\
  (forall self, In self feed_plugins ->
     exists r titles,
       net (releases_url self) = Ok r /\ status_ok r = true /\
       feed_entries r = Ok titles).
Proof.
  intros H.
  pose proof (proj1 (aggregate_ok registry net []) (ex_intro _ d H)) as A.
  rewrite registry_feed_plugins in A. split.
  - destruct (A WordpressPlugin) as [v C]; [now left|].
    cbn [call WordpressPlugin] in C. unfold WordpressPlugin_call in C.
    destruct (net stable_check_url) as [r|]; cbn [bind] in C; [|discriminate].
    unfold raise_for_status in C.
    destruct (status_ok r) eqn:T; cbn [bind] in C; [|discriminate].
    destruct (json_body r) as [j|] eqn:J; cbn [bind] in C; [|discriminate].
    destruct j as [| | | | |its]; cbn [items bind] in C; try discriminate.
    now exists r, its.
  - intros self S.
    destruct (A (plugin_of self)) as [v C]; [right; now apply in_map|].
    cbn [call plugin_of] in C. unfold GithubReleases_call in C.
    destruct (net (releases_url self)) as [r|]; cbn [bind] in C;
      [|discriminate].
    unfold raise_for_status in C.
    destruct (status_ok r) eqn:T; cbn [bind] in C; [|discriminate].
    destruct (feed_entries r) as [titles|] eqn:F; cbn [bind] in C; [|discriminate].
    now exists r, titles.
Qed.

Lemma most_recent_needs_every_fetch_witness :
  (exists r items,
      sample_net stable_check_url = Ok r /\ status_ok r = true /\
      json_body r = Ok (JObject items)) /\
  (forall self, In self feed_plugins ->
     exists r titles,
       sample_net (releases_url self) = Ok r /\ status_ok r = true /\
       feed_entries r = Ok titles).
Proof.
  eapply (most_recent_needs_every_fetch sample_net).
  vm_compute. reflexivity.
Defined.

(** ** The timeout of a request *)

Lemma dict_set_keys {V : Type} (d : dict V) (k : str) (v0 v : V) :
  dict_get d k = Some v0 -> map fst (dict_set d k v) = map fst d.
Proof.
  induction d as [|[k' v'] d IH]; cbn [dict_get dict_set]; [discriminate|].
  destruct (str_eqb k k') eqn:E.
  - apply str_eqb_eq in E. now subst k'.
  - intros H. cbn [map fst]. now rewrite IH.
Qed.

(** X12: [FixedTimeoutAdapter.send] hands on a timeout that is never
    [None]: a timeout that was given is kept, a missing one becomes 10,
    and every other keyword argument is handed on as it came. *)
Theorem send_timeout_set {value : Type} (ten : value)
    (kwargs kwargs' : dict (option value)) :
  FixedTimeoutAdapter_send ten kwargs = Some kwargs' ->
  (exists t, dict_get kwargs' (py "timeout") = Some (Some t) /\
             match dict_get kwargs (py "timeout") with
             | Some (Some t0) => t = t0
             | _ => t = ten
             end) /\
  (forall k, k <> py "timeout" -> dict_get kwargs' k = dict_get kwargs k) /\
  map fst kwargs' = map fst kwargs.
Proof.
  unfold FixedTimeoutAdapter_send.
  destruct (dict_get kwargs (py "timeout")) as [[t0|]|] eqn:G; intros E;
    [| |discriminate].
  - assert (kwargs' = kwargs) as -> by congruence.
    split; [exists t0; now split|]. now split.
  - assert (kwargs' = dict_set kwargs (py "timeout") (Some ten)) as ->
      by congruence.
    split; [|split].
    + exists ten. split; [|reflexivity].
      now rewrite dict_get_set, str_eqb_refl.
    + intros k Hk. rewrite dict_get_set.
      apply str_eqb_neq in Hk. now rewrite Hk.
    + now apply dict_set_keys with None.
Qed.

Lemma send_timeout_set_witness :
  (exists t, dict_get [(py "stream", Some 0%N); (py "timeout", Some 10%N)]
               (py "timeout") = Some (Some t) /\ t = 10%N) /\
  (forall k, k <> py "timeout" ->
             dict_get [(py "stream", Some 0%N); (py "timeout", Some 10%N)] k
             = dict_get [(py "stream", Some 0%N); (py "timeout", None)] k) /\
  map fst [(py "stream", Some 0%N); (py "timeout", Some 10%N)]
  = map fst [(py "stream", Some 0%N); (py "timeout", @None N)].
Proof.
  apply (send_timeout_set 10%N
           [(py "stream", Some 0%N); (py "timeout", None)]).
  reflexivity.
Defined.

(** ** Blocked words in the result *)

Lemma occurs_contains (sub s : str) : contains sub s = true <-> occurs sub s.
Proof. apply contains_iff. Qed.

Lemma occurs_nil (sub : str) : sub <> [] -> ~ occurs sub [].
Proof.
  intros N [b [a E]]. destruct b; [|discriminate].
  destruct sub; [now apply N|discriminate].
Qed.

Lemma occurs_trans (a b c : str) : occurs a b -> occurs b c -> occurs a c.
Proof.
  intros [x [y ->]] [u [v ->]]. exists (u ++ x), (y ++ v).
  now rewrite <- !app_assoc.
Qed.

Lemma occurs_lower (a b : str) : occurs a b -> occurs (lower a) (lower b).
Proof.
  intros [x [y ->]]. exists (lower x), (lower y). unfold lower.
  now rewrite !map_app.
Qed.

Lemma occurs_sep (sub X Y : str) (c : ascii) :
  ~ In c sub -> occurs sub (X ++ c :: Y) -> occurs sub X \/ occurs sub Y.
Proof.
  intros NI [b [a E]].
  apply app_eq_app in E as [l [[E1 E2]|[E1 E2]]].
  - apply app_eq_app in E2 as [l2 [[E3 E4]|[E3 E4]]].
    + destruct l2 as [|d l2].
      * left. rewrite app_nil_r in E3. subst. exists b, [].
        now rewrite app_nil_r.
      * exfalso. cbn [app] in E4. injection E4 as <- _. apply NI. subst sub.
        apply in_or_app. right. now left.
    + left. exists b, l2. now subst.
  - destruct l as [|d l].
    + destruct sub as [|d sub].
      * left. exists X, []. now rewrite app_nil_r.
      * exfalso. cbn [app] in E2. injection E2 as -> _. apply NI. now left.
    + right. cbn [app] in E2. injection E2 as _ ->. now exists l, a.
Qed.

Lemma occurs_block (sub : str) (P : ascii -> bool) (B : str) :
  forallb P sub = true -> sub <> [] ->
  forallb (fun c => negb (P c)) B = true -> B <> [] ->
  forall X Y, occurs sub (X ++ B ++ Y) -> occurs sub X \/ occurs sub Y.
Proof.
  intros HP N HB NB.
  assert (forall c, P c = false -> ~ In c sub) as NI.
  { intros c Hc I. rewrite forallb_forall in HP. rewrite (HP c I) in Hc.
    discriminate. }
  induction B as [|c B IH]; [now destruct NB|]. intros X Y O.
  cbn [forallb] in HB. apply andb_true_iff in HB as [Hc HB].
  apply negb_true_iff in Hc.
  cbn [app] in O. apply occurs_sep in O; [|now apply NI].
  destruct O as [O|O]; [now left|].
  destruct B as [|d B]; [now right|].
  destruct (IH HB ltac:(discriminate) [] Y O) as [O'|O']; [|now right].
  now apply occurs_nil in O'.
Qed.

Lemma occurs_chars (sub s : str) (c : ascii) :
  occurs sub s -> In c sub -> In c s.
Proof.
  intros [b [a ->]] I. apply in_or_app. right. apply in_or_app. now left.
Qed.

Lemma occurs_join (sub : str) (c : ascii) (parts : list str) :
  ~ In c sub -> sub <> [] ->
  occurs sub (join [c] parts) -> exists p, In p parts /\ occurs sub p.
Proof.
  intros NI N. induction parts as [|p parts IH]; cbn [join]; intros O.
  - now apply occurs_nil in O.
  - destruct parts as [|q parts].
    + exists p. split; [now left|assumption].
    + cbn [app] in O. apply occurs_sep in O as [O|O]; [| |assumption].
      * exists p. split; [now left|assumption].
      * destruct (IH O) as [p' [I O']]. exists p'. split; [now right|assumption].
Qed.

Lemma forallb_join (Q : ascii -> bool) (sep : str) (parts : list str) :
  forallb Q sep = true ->
  (forall p, In p parts -> forallb Q p = true) ->
  forallb Q (join sep parts) = true.
Proof.
  intros S. induction parts as [|p parts IH]; intros H; [reflexivity|].
  cbn [join]. destruct parts as [|q parts]; [apply H; now left|].
  rewrite !forallb_app, S, (H p) by now left. cbn [andb].
  apply IH. intros p' Hp'. apply H. now right.
Qed.

Lemma digits_not_words (ds : str) :
  forallb is_digit ds = true ->
  forallb (fun c => negb (word_char c)) ds = true.
Proof.
  intros H. apply forallb_forall. intros c I.
  rewrite forallb_forall in H. unfold word_char. rewrite (H c I).
  reflexivity.
Qed.

Lemma number_not_words (n : N) :
  forallb (fun c => negb (word_char c)) (str_of_int n) = true.
Proof. apply digits_not_words, str_of_int_digits. Qed.

Lemma head_not_words (e : N) (r : list N) :
  forallb (fun c => negb (word_char c)) (print_epoch e ++ print_release r)
  = true.
Proof.
  rewrite forallb_app. apply andb_true_iff. split.
  - unfold print_epoch. destruct (e =? 0)%N; [reflexivity|].
    rewrite forallb_app, number_not_words. reflexivity.
  - unfold print_release. apply forallb_join; [reflexivity|].
    intros p Hp. apply in_map_iff in Hp as [n [<- _]].
    apply number_not_words.
Qed.

Lemma head_nonempty (e : N) (r : list N) :
  r <> [] -> print_epoch e ++ print_release r <> [].
Proof.
  intros N H. apply app_eq_nil in H as [_ H].
  destruct r as [|n r]; [now apply N|].
  unfold print_release in H. cbn [map join] in H.
  destruct (map str_of_int r).
  - now apply str_of_int_nonempty in H.
  - apply app_eq_nil in H as [H _]. now apply str_of_int_nonempty in H.
Qed.

Lemma occurs_digits (sub ds : str) :
  forallb word_char sub = true -> sub <> [] ->
  forallb is_digit ds = true -> ~ occurs sub ds.
Proof.
  intros W N D O. destruct sub as [|c sub]; [now apply N|].
  cbn [forallb] in W. apply andb_true_iff in W as [W _].
  pose proof (occurs_chars _ _ c O ltac:(now left)) as I.
  rewrite forallb_forall in D. unfold word_char in W.
  rewrite (D c I) in W. discriminate.
Qed.

(** Where a word can occur in a printed version: in the letter of the
    pre-release, in [post], in [dev], or in a part of the local
    version. *)
Lemma occurs_Version_str (v : Version) (sub : str) :
  release v <> [] ->
  forallb word_char sub = true -> sub <> [] ->
  occurs sub (Version_str v) ->
  (exists l n, pre v = Some (l, n) /\ occurs sub l) \/
  occurs sub (py "post") \/ occurs sub (py "dev") \/
  (exists ps s, local v = Some ps /\ In (LStr s) ps /\ occurs sub s).
Proof.
  intros R W N O. unfold Version_str in O.
  pose proof (occurs_block sub word_char) as Blk.
  assert (forall n X Y, occurs sub (X ++ str_of_int n ++ Y) ->
                        occurs sub X \/ occurs sub Y) as Num.
  { intros n. apply Blk; try assumption; [apply number_not_words|].
    apply str_of_int_nonempty. }
  assert (forall c Y, word_char c = false -> occurs sub (c :: Y) ->
                      occurs sub Y) as Sep.
  { intros c Y Hc H.
    destruct (Blk [c] W N) with (X := @nil ascii) (Y := Y) as [H'|H'];
      [cbn; now rewrite Hc|discriminate|exact H| |assumption].
    now apply occurs_nil in H'. }
  rewrite app_assoc in O.
  apply (Blk _ W N (head_not_words _ _) (head_nonempty _ _ R) []) in O.
  destruct O as [O|O]; [now apply occurs_nil in O|].
  (* pre *)
  assert (occurs sub (print_post (post v) ++ print_dev (dev v)
                      ++ print_local (local v)) \/
          exists l n, pre v = Some (l, n) /\ occurs sub l) as [O1|P].
  { destruct (pre v) as [[l n]|]; cbn [print_pre] in O; [|now left].
    rewrite <- app_assoc in O. apply Num in O as [O|O]; [right|now left].
    now exists l, n. }
  2: now left.
  clear O.
  (* post *)
  assert (occurs sub (print_dev (dev v) ++ print_local (local v)) \/
          occurs sub (py "post")) as [O2|P].
  { destruct (post v) as [[l n]|]; cbn [print_post] in O1; [|now left].
    change (py ".post") with ("."%char :: py "post") in O1.
    rewrite <- !app_assoc in O1. cbn [app] in O1. apply Sep in O1; [|reflexivity].
    apply (Num n (py "post")) in O1 as [O1|O1]; [now right|now left]. }
  2: now right; left.
  clear O1.
  (* dev *)
  assert (occurs sub (print_local (local v)) \/ occurs sub (py "dev"))
    as [O3|P].
  { destruct (dev v) as [[l n]|]; cbn [print_dev] in O2; [|now left].
    change (py ".dev") with ("."%char :: py "dev") in O2.
    rewrite <- !app_assoc in O2. cbn [app] in O2. apply Sep in O2; [|reflexivity].
    apply (Num n (py "dev")) in O2 as [O2|O2]; [now right|now left]. }
  2: now right; right; left.
  clear O2. right. right. right.
  destruct (local v) as [[|p ps]|]; cbn [print_local] in O3;
    try (now apply occurs_nil in O3).
  change (py "+") with ["+"%char] in O3. cbn [app] in O3.
  apply Sep in O3; [|reflexivity].
  apply (occurs_join sub "."%char) in O3 as [part [I Op]]; [| |assumption].
  - apply in_map_iff in I as [i [<- I]]. destruct i as [n|s].
    + exfalso. apply (occurs_digits sub (str_of_int n)); try assumption.
      apply str_of_int_digits.
    + now exists (p :: ps), s.
  - intros I. rewrite forallb_forall in W. now specialize (W _ I).
Qed.

Lemma occurs_suffix (t w rest : str) : occurs t rest -> occurs t (w ++ rest).
Proof.
  intros [b [a ->]]. exists (w ++ b), a. now rewrite <- app_assoc.
Qed.

Lemma captures_within (r : regex) :
  forall s m rest,
    In (m, rest) (run r s) ->
    forall g t, In (g, t) m -> occurs t s.
Proof.
  induction r as [|p|r1 IH1 r2 IH2|r1 IH1 r2 IH2|r IH|r IH|g0 r IH|];
    intros s m rest H g t I.
  - destruct H as [[= E _]|[]]. subst m. destruct I.
  - apply in_run_class in H as [c [_ [_ ->]]]. destruct I.
  - apply in_run_seq in H as [m1 [mid [m2 [H1 [H2 ->]]]]].
    apply in_app_or in I as [I|I].
    + destruct (run_suffix _ _ _ _ H1) as [w ->].
      apply occurs_suffix. now apply (IH2 _ _ _ H2 g).
    + now apply (IH1 _ _ _ H1 g).
  - apply in_run_alt in H as [H|H];
      [now apply (IH1 _ _ _ H g)|now apply (IH2 _ _ _ H g)].
  - apply in_run_opt in H as [H|[= E _]];
      [now apply (IH _ _ _ H g)|subst m; destruct I].
  - remember (length s) as n eqn:L.
    assert (length s <= n) as Le by lia. clear L.
    revert s m rest Le H I.
    induction n as [|n IHn]; intros s m rest Le H I;
      apply in_run_star in H
        as [[-> _]|[m1 [mid [m2 [H1 [Lt [H2 ->]]]]]]];
      try (now destruct I); [lia|].
    apply in_app_or in I as [I|I].
    + destruct (run_suffix _ _ _ _ H1) as [w ->].
      apply occurs_suffix. apply (IHn mid m2 rest); [lia|assumption..].
    + now apply (IH _ _ _ H1 g).
  - apply in_run_group_inv in H as [m1 [w [H [-> ->]]]].
    destruct I as [[= _ <-]|I].
    + exists [], rest. reflexivity.
    + now apply (IH _ _ _ H g).
  - apply in_run_eos in H as [-> _]. destruct I.
Qed.

Lemma group_of_In (g : group) (m : captures) (t : str) :
  group_of g m = Some t -> exists g', In (g', t) m.
Proof.
  induction m as [|[g' t'] m IH]; cbn [group_of]; [discriminate|].
  destruct (group_eqb g g').
  - intros [= ->]. exists g'. now left.
  - intros H. destruct (IH H) as [g'' I]. exists g''. now right.
Qed.

Lemma split_on_prefix (p : ascii -> bool) (s h : str) (t : list str) :
  split_on p s = h :: t -> exists a, s = h ++ a.
Proof.
  revert h t. induction s as [|c s IH]; intros h t; cbn [split_on].
  - intros [= <- _]. now exists [].
  - destruct (p c).
    + intros [= <- _]. now exists (c :: s).
    + destruct (split_on p s) as [|h' t'] eqn:E.
      * intros [= <- _]. now exists s.
      * intros [= <- _]. destruct (IH h' t' eq_refl) as [a ->].
        now exists a.
Qed.

Lemma split_on_In (p : ascii -> bool) (s piece : str) :
  In piece (split_on p s) -> occurs piece s.
Proof.
  revert piece. induction s as [|c s IH]; intros piece; cbn [split_on].
  - intros [<-|[]]. now exists [], [].
  - destruct (p c).
    + intros [<-|I]; [now exists [], (c :: s)|].
      apply (occurs_suffix piece [c] s). now apply IH.
    + destruct (split_on p s) as [|h t] eqn:E.
      * intros [<-|[]]. exists [], s. reflexivity.
      * intros [<-|I].
        -- destruct (split_on_prefix p s h t E) as [a ->].
           now exists [], a.
        -- apply (occurs_suffix piece [c] (s)). apply IH. now right.
Qed.

Lemma upto_space_prefix (s : str) : exists a, s = upto_space s ++ a.
Proof.
  induction s as [|c s [a IH]]; cbn [upto_space]; [now exists []|].
  destruct (Ascii.eqb " " c); [now exists (c :: s)|].
  exists a. cbn [app]. now rewrite <- IH.
Qed.

Lemma candidate_occurs (self : GithubReleases) (title c : str) :
  In self feed_plugins -> candidate self title = Some c ->
  occurs c title /\ blocked title = false.
Proof.
  intros H. unfold candidate.
  destruct (blocked title); [discriminate|]. intros C. split; [|reflexivity].
  revert C.
  assert (S : forall o, semver_version_from_title title = o ->
                        match o with Ok (Some (x :: s)) => Some (x :: s)
                                | _ => None end = Some c -> occurs c title).
  { intros o <-. unfold semver_version_from_title.
    destruct (re_match _ _); [|discriminate].
    destruct (strip (py "v") title) as [|x s] eqn:E; [discriminate|].
    intros [= <-]. rewrite <- E.
    destruct (strip_spec (py "v") title) as [b [a [Et _]]].
    now exists b, a. }
  simpl in H.
  repeat (destruct H as [<-|H]; [|]); try destruct H;
    cbn [version_from_title SignalCliPlugin NextCloudPlugin RoundcubePlugin
         DolibarrPlugin HumhubPlugin FroxlorPlugin RainloopPlugin
         CyberchefPlugin ArangoDBPlugin GithubReleasesWithVPrefixAndSemVer];
    try (apply S; reflexivity).
  - destruct (startswith _ title); [|discriminate].
    destruct (skipn 8 title) as [|x s] eqn:E; [discriminate|].
    intros [= <-]. rewrite <- E. exists (firstn 8 title), [].
    now rewrite app_nil_r, firstn_skipn.
  - destruct (startswith _ title); [|discriminate].
    destruct (skipn 18 title) as [|x s] eqn:E; [discriminate|].
    intros [= <-]. rewrite <- E. exists (firstn 18 title), [].
    now rewrite app_nil_r, firstn_skipn.
  - destruct title; [discriminate|]. intros [= <-]. exists [], [].
    now rewrite app_nil_r.
  - destruct title; [discriminate|]. intros [= <-]. exists [], [].
    now rewrite app_nil_r.
  - destruct (startswith (py "Froxlor ") title) eqn:E; [|discriminate].
    apply startswith_iff in E as [rest ->].
    pose proof (froxlor_title rest) as F.
    cbn [version_from_title FroxlorPlugin] in F.
    rewrite startswith_app in F. rewrite F.
    destruct (upto_space rest) as [|x s] eqn:E; [discriminate|].
    intros [= <-]. rewrite <- E.
    destruct (upto_space_prefix rest) as [a Ea].
    exists (py "Froxlor "), a. now rewrite <- Ea.
Qed.

Lemma candidates_In (self : GithubReleases) (titles : list str) (c : str) :
  In c (candidates self titles) ->
  exists title, In title titles /\ candidate self title = Some c.
Proof.
  induction titles as [|t titles IH]; cbn [candidates]; [intros []|].
  destruct (candidate self t) as [c'|] eqn:E.
  - intros [<-|I].
    + exists t. split; [now left|assumption].
    + destruct (IH I) as [t' [I' C]]. exists t'. split; [now right|assumption].
  - intros I. destruct (IH I) as [t' [I' C]].
    exists t'. split; [now right|assumption].
Qed.

Lemma parse_local_part (c : str) (v : Version) (ps : list local_part)
    (s : str) :
  parse c = Ok v -> local v = Some ps -> In (LStr s) ps ->
  occurs s (lower c).
Proof.
  unfold parse, Version_init.
  destruct (re_match Version_regex c) as [[m rest]|] eqn:M; [|discriminate].
  intros [= <-]. cbn [local Version_of_match].
  destruct (group_of g_local m) as [l|] eqn:G; [|discriminate].
  cbn [_parse_local_version]. intros [= <-] I.
  apply in_map_iff in I as [part [E I]].
  destruct (negb (isdigit part)); [|discriminate].
  injection E as <-. apply occurs_lower.
  apply occurs_trans with l; [now apply (split_on_In is_sep)|].
  destruct (group_of_In _ _ _ G) as [g' Ig].
  apply (captures_within Version_regex c m rest) with g'; [|assumption].
  unfold re_match in M. destruct (run Version_regex c); [discriminate|].
  injection M as ->. now left.
Qed.

Lemma not_blocked_word (title block s : str) :
  blocked title = false -> In block VERSION_BLOCKLIST ->
  occurs s (lower title) -> ~ occurs block s.
Proof.
  intros B I Os Ob.
  assert (blocked title = true); [|congruence].
  apply blocked_iff. destruct (occurs_trans _ _ _ Ob Os) as [b [a E]].
  now exists block, b, a.
Qed.

(** A word of the block list occurs in a returned release only as its
    pre-release letter. *)
Lemma blocked_word_in_result (self : GithubReleases) (titles : list str)
    (s block : str) :
  In self feed_plugins ->
  GithubReleases_call self (feed_of titles) = Ok (Some s) ->
  In block VERSION_BLOCKLIST -> occurs block s ->
  exists v l n,
    parse s = Ok v /\ pre v = Some (l, n) /\ occurs block l /\
    In l [py "a"; py "b"; py "rc"].
Proof.
  intros Hs. rewrite GithubReleases_call_spec by assumption.
  destruct (parse_all (candidates self titles)) as [vs|] eqn:E;
    cbn [bind]; [|discriminate].
  intros [= N] Hb O.
  destruct (newest_cases vs) as [[_ N0]|[m [I [N1 _]]]]; [congruence|].
  assert (s = Version_str m) as -> by congruence.
  pose proof (parse_all_wf _ _ _ E I) as W.
  destruct (parse_all_In _ _ _ E I) as [c [Ic Pc]].
  destruct (candidates_In _ _ _ Ic) as [title [It C]].
  destruct (candidate_occurs _ _ _ Hs C) as [Oc B].
  assert (forallb word_char block = true /\ block <> []) as [Wb Nb].
  { unfold VERSION_BLOCKLIST in Hb. cbn [In] in Hb.
    destruct Hb as [<-|[<-|[]]]; (split; [reflexivity|discriminate]). }
  destruct (occurs_Version_str m block (wf_release m W) Wb Nb O)
    as [[l [n [P Ol]]]|[Op|[Od|[ps [p [L [Ip Ol]]]]]]].
  - exists m, l, n. split; [now apply parse_Version_str|].
    split; [assumption|]. split; [assumption|].
    pose proof (wf_pre m W) as Wp. rewrite P in Wp. exact Wp.
  - exfalso. apply occurs_contains in Op.
    unfold VERSION_BLOCKLIST in Hb. cbn [In] in Hb.
    destruct Hb as [<-|[<-|[]]]; vm_compute in Op; discriminate.
  - exfalso. apply occurs_contains in Od.
    unfold VERSION_BLOCKLIST in Hb. cbn [In] in Hb.
    destruct Hb as [<-|[<-|[]]]; vm_compute in Od; discriminate.
  - exfalso. apply (not_blocked_word title block p B Hb); [|assumption].
    apply occurs_trans with (lower c);
      [now apply parse_local_part with m ps|now apply occurs_lower].
Qed.

(** X13: the release a plugin returns never holds the word [beta], and
    it holds [rc] only as the mark of a release candidate, which the
    spellings [c], [pre] and [preview] of a title give: a local version
    with a blocked word would have blocked the title. *)
Theorem result_never_beta (self : GithubReleases) (titles : list str)
    (s : str) :
  In self feed_plugins ->
  GithubReleases_call self (feed_of titles) = Ok (Some s) ->
  contains (py "beta") s = false /\
  (contains (py "rc") s = true ->
   exists v n, parse s = Ok v /\ pre v = Some (py "rc", n)).
Proof.
  intros Hs C. split.
  - destruct (contains (py "beta") s) eqn:B; [exfalso|reflexivity].
    apply occurs_contains in B.
    destruct (blocked_word_in_result self titles s (py "beta") Hs C)
      as [v [l [n [_ [_ [O L]]]]]]; [now left|assumption|].
    apply occurs_contains in O. cbn [In] in L.
    destruct L as [<-|[<-|[<-|[]]]]; vm_compute in O; discriminate.
  - intros R. apply occurs_contains in R.
    destruct (blocked_word_in_result self titles s (py "rc") Hs C)
      as [v [l [n [P [E [O L]]]]]]; [right; now left|assumption|].
    apply occurs_contains in O. cbn [In] in L.
    destruct L as [<-|[<-|[<-|[]]]];
      try (vm_compute in O; discriminate).
    now exists v, n.
Qed.

Lemma result_never_beta_witness :
  contains (py "beta") (py "1.2.3rc1") = false /\
  (contains (py "rc") (py "1.2.3rc1") = true ->
   exists v n, parse (py "1.2.3rc1") = Ok v /\ pre v = Some (py "rc", n)).
Proof.
  apply (result_never_beta FroxlorPlugin
           [py "Froxlor 1.2.3-pre1 released"; py "froxlor 9.9"]).
  - unfold feed_plugins. simpl. tauto.
  - vm_compute. reflexivity.
Defined.

(* ================================================================== *)
(** * The script for Zabbix *)

(** ** Searching the output of the sender *)

Lemma run_Lit (l : str) :
  forall s m rest,
    In (m, rest) (run (Zabbix.Lit l) s) <-> m = [] /\ s = l ++ rest.
Proof.
  induction l as [|c l IH]; intros s m rest; cbn [Zabbix.Lit].
  - cbn [run In app]. split.
    + intros [[= <- <-]|[]]. now split.
    + intros [-> ->]. now left.
  - rewrite in_run_seq. split.
    + intros [m1 [mid [m2 [H1 [H2 ->]]]]].
      apply in_run_chr in H1 as [-> ->]. apply IH in H2 as [-> ->].
      now split.
    + intros [-> ->]. exists [], (l ++ rest), []. repeat split.
      * apply in_run_chr. now split.
      * apply IH. now split.
Qed.

Lemma run_count_pattern (label s : str) (m : captures) (rest : str) :
  In (m, rest) (run (Zabbix.count_pattern label) s) <->
  exists ds, ds <> [] /\ forallb is_digit ds = true /\
             s = label ++ ds ++ ";"%char :: rest /\
             m = [(Zabbix.group_1, ds)].
Proof.
  unfold Zabbix.count_pattern. rewrite in_run_seq. split.
  - intros [m1 [mid [m2 [H1 [H2 ->]]]]].
    apply run_Lit in H1 as [-> ->].
    apply in_run_seq in H2 as [m3 [mid2 [m4 [H3 [H4 ->]]]]].
    apply in_run_chr in H4 as [-> ->].
    apply in_run_group_inv in H3 as [m5 [w [H5 [E ->]]]].
    apply in_run_digits in H5 as [-> [ds [N [E' D]]]].
    assert (w = ds) as -> by (apply app_inv_tail with (";"%char :: rest);
                              congruence).
    exists ds. repeat split; try assumption. now rewrite E.
  - intros [ds [N [D [-> ->]]]].
    exists [], (ds ++ ";"%char :: rest), [(Zabbix.group_1, ds)].
    repeat split.
    + apply run_Lit. now split.
    + apply in_run_seq.
      exists [(Zabbix.group_1, ds)], (";"%char :: rest), []. repeat split.
      * apply in_run_group_intro. apply in_run_digits. split; [reflexivity|].
        now exists ds.
      * apply in_run_chr. now split.
Qed.

Lemma semicolon_stops (rest : str) : stops is_digit (";"%char :: rest).
Proof. reflexivity. Qed.

Lemma re_match_count_pattern (label ds rest : str) :
  ds <> [] -> forallb is_digit ds = true ->
  re_match (Zabbix.count_pattern label) (label ++ ds ++ ";"%char :: rest)
  = Some ([(Zabbix.group_1, ds)], rest).
Proof.
  intros N D. unfold re_match.
  assert (In ([(Zabbix.group_1, ds)], rest)
             (run (Zabbix.count_pattern label)
                  (label ++ ds ++ ";"%char :: rest))) as H
    by (apply run_count_pattern; now exists ds).
  destruct (run (Zabbix.count_pattern label)
                (label ++ ds ++ ";"%char :: rest)) as [|[m r] l] eqn:R;
    [destruct H|].
  assert (In (m, r) ((m, r) :: l)) as I by now left.
  rewrite <- R in I. apply run_count_pattern in I as [ds' [N' [D' [E ->]]]].
  apply app_inv_head in E.
  destruct (span_eq is_digit ds ds' _ _ E D D'
              (semicolon_stops rest) (semicolon_stops r)) as [<- [= <-]].
  reflexivity.
Qed.

Lemma re_match_count_pattern_inv (label s : str) (x : captures * str) :
  re_match (Zabbix.count_pattern label) s = Some x ->
  exists ds, ds <> [] /\ forallb is_digit ds = true /\
             s = label ++ ds ++ ";"%char :: snd x /\
             fst x = [(Zabbix.group_1, ds)].
Proof.
  unfold re_match. intros H. destruct x as [m rest].
  apply run_count_pattern.
  destruct (run (Zabbix.count_pattern label) s); [discriminate|].
  injection H as ->. now left.
Qed.

Lemma search_some (r : regex) (s : str) (x : captures * str) :
  Zabbix.search r s = Some x ->
  exists before s', s = before ++ s' /\ re_match r s' = Some x.
Proof.
  induction s as [|c s IH]; cbn [Zabbix.search].
  - destruct (re_match r []) eqn:M; [|discriminate]. intros [= <-].
    now exists [], [].
  - destruct (re_match r (c :: s)) eqn:M.
    + intros [= <-]. now exists [], (c :: s).
    + intros H. destruct (IH H) as [b [s' [-> M']]].
      now exists (c :: b), s'.
Qed.

Lemma search_skip (r : regex) (before s : str) :
  (forall b1 b2, before = b1 ++ b2 -> b2 <> [] ->
                 re_match r (b2 ++ s) = None) ->
  Zabbix.search r (before ++ s) = Zabbix.search r s.
Proof.
  induction before as [|c b IH]; intros H; [reflexivity|].
  cbn [app Zabbix.search].
  assert (re_match r (c :: b ++ s) = None) as ->
    by (apply (H [] (c :: b)); [reflexivity|discriminate]).
  apply IH. intros b1 b2 -> N. apply (H (c :: b1) b2); [reflexivity|exact N].
Qed.

Lemma search_here (r : regex) (s : str) (x : captures * str) :
  re_match r s = Some x -> Zabbix.search r s = Some x.
Proof. intros H. destruct s; cbn [Zabbix.search]; now rewrite H. Qed.

Lemma count_cases (label output : str) :
  (exists n, Zabbix.count (Zabbix.count_pattern label) output = Zabbix.ret n /\
             ZabbixSpec.reports label n output) \/
  Zabbix.count (Zabbix.count_pattern label) output
  = Zabbix.raise (Zabbix.Other AttributeError).
Proof.
  unfold Zabbix.count.
  destruct (Zabbix.search (Zabbix.count_pattern label) output)
    as [[m rest]|] eqn:S; [left|now right].
  destruct (search_some _ _ _ S) as [b [s' [-> M]]].
  destruct (re_match_count_pattern_inv _ _ _ M) as [ds [N [D [E Em]]]].
  cbn [fst snd] in *. subst m. cbn [group_of]. 
  replace (group_eqb Zabbix.group_1 Zabbix.group_1) with true by reflexivity.
  exists (int ds). split; [reflexivity|].
  exists b, ds, rest. now rewrite E.
Qed.

Lemma startswith_shorter (label a b : str) :
  length label <= length a ->
  startswith label (a ++ b) = true -> startswith label a = true.
Proof.
  revert a. induction label as [|c l IH]; intros a L H; [reflexivity|].
  destruct a as [|x a]; [cbn in L; lia|].
  cbn [app startswith] in *. apply andb_true_iff in H as [-> H].
  cbn [andb]. apply IH; [cbn in L; lia|assumption].
Qed.

Lemma count_first (label before ds after : str) :
  ds <> [] -> forallb is_digit ds = true ->
  contains label (before ++ removelast label) = false ->
  Zabbix.count (Zabbix.count_pattern label)
               (before ++ label ++ ds ++ py ";" ++ after)
  = Zabbix.ret (int ds).
Proof.
  intros N D C. unfold Zabbix.count.
  rewrite search_skip.
  - change (py ";" ++ after) with (";"%char :: after).
    rewrite (search_here _ _ _ (re_match_count_pattern label ds after N D)).
    cbn [group_of].
    replace (group_eqb Zabbix.group_1 Zabbix.group_1) with true by reflexivity.
    reflexivity.
  - intros b1 b2 -> N2.
    destruct (re_match (Zabbix.count_pattern label)
                (b2 ++ label ++ ds ++ py ";" ++ after)) as [x|] eqn:M;
      [exfalso|reflexivity].
    destruct (re_match_count_pattern_inv _ _ _ M) as [ds' [_ [_ [E _]]]].
    destruct label as [|c label] using rev_ind.
    { assert (contains [] ((b1 ++ b2) ++ removelast []) = true) as T
        by (apply contains_iff; now exists [], ((b1 ++ b2) ++ removelast [])).
      congruence. }
    clear IHlabel. rewrite removelast_last in C.
    assert (startswith (label ++ [c]) (b2 ++ label) = true) as S.
    { apply startswith_shorter
        with (b := [c] ++ ds ++ py ";" ++ after).
      - rewrite !length_app. cbn. destruct b2; [now destruct N2|cbn; lia].
      - replace ((b2 ++ label) ++ [c] ++ ds ++ py ";" ++ after)
          with (b2 ++ (label ++ [c]) ++ ds ++ py ";" ++ after)
          by now rewrite <- !app_assoc.
        rewrite E. apply startswith_app. }
    apply startswith_iff in S as [rest S].
    assert (contains (label ++ [c]) (b1 ++ b2 ++ label) = true) as T.
    { apply contains_iff. exists b1, rest. now rewrite S. }
    rewrite <- app_assoc in C. congruence.
Qed.

Lemma reports_contains (label : str) (n : N) (output : str) :
  ZabbixSpec.reports label n output -> contains label output = true.
Proof.
  intros [b [ds [a [-> _]]]]. apply contains_iff.
  now exists b, (ds ++ py ";" ++ a).
Qed.

Lemma count_missing (label output : str) :
  contains label output = false ->
  Zabbix.count (Zabbix.count_pattern label) output
  = Zabbix.raise (Zabbix.Other AttributeError).
Proof.
  intros C. destruct (count_cases label output) as [[n [_ R]]|E];
    [|assumption].
  apply reports_contains in R. congruence.
Qed.

Lemma first_report_count (label : str) (n : N) (output : str) :
  ZabbixSpec.first_report label n output ->
  Zabbix.count (Zabbix.count_pattern label) output = Zabbix.ret n.
Proof.
  intros [b [ds [a [-> [N [D [<- C]]]]]]]. now apply count_first.
Qed.

Lemma parse_output_cases (output : str) (st : Zabbix.state) :
  exists r,
    Zabbix._parse_output output st = (st, r) /\
    match r with
    | Zabbix.Return _ =>
        exists n,
          ZabbixSpec.reports (py "processed: ") n output /\
          ZabbixSpec.reports (py "failed: ") 0 output /\
          ZabbixSpec.reports (py "total: ") n output
    | Zabbix.Raised (Zabbix.ZabbixSenderException
                       (Zabbix.FailedItems f c)) =>
        c = Zabbix.last_command (Zabbix.sender st) /\ f <> 0%N /\
        ZabbixSpec.reports (py "failed: ") f output
    | Zabbix.Raised (Zabbix.ZabbixSenderException
                       (Zabbix.Mismatching p t)) =>
        p <> t /\
        ZabbixSpec.reports (py "processed: ") p output /\
        ZabbixSpec.reports (py "total: ") t output
    | Zabbix.Raised (Zabbix.Other AttributeError) => True
    | Zabbix.Raised _ => False
    end.
Proof.
  unfold Zabbix._parse_output, Zabbix.r_processed, Zabbix.r_failed,
    Zabbix.r_total.
  destruct (count_cases (py "processed: ") output) as [[p [-> Rp]]| ->];
    [|eexists; split; [reflexivity|exact I]].
  destruct (count_cases (py "failed: ") output) as [[f [-> Rf]]| ->];
    [|eexists; split; [reflexivity|exact I]].
  destruct (count_cases (py "total: ") output) as [[t [-> Rt]]| ->];
    [|eexists; split; [reflexivity|exact I]].
  unfold Zabbix.bind, Zabbix.ret, Zabbix.raise.
  destruct (N.eqb_spec f 0) as [->|Nf]; cbn [negb].
  - destruct (N.eqb_spec p t) as [->|Np]; cbn [negb];
      eexists; (split; [reflexivity|]).
    + now exists t.
    + now split.
  - eexists. split; [reflexivity|]. now split.
Qed.



(** X15: when the first [processed: ], the first [failed: ] and the first
    [total: ] of the output are each followed by a number and a
    semicolon, [_parse_output] decides by these numbers alone: a failed
    count other than 0 raises and names the last command; otherwise a
    processed count other than the total raises; otherwise it returns. *)
Theorem parse_output_verdict (output : str) (p f t : N) (st : Zabbix.state) :
  ZabbixSpec.first_report (py "processed: ") p output ->
  ZabbixSpec.first_report (py "failed: ") f output ->
  ZabbixSpec.first_report (py "total: ") t output ->
  Zabbix._parse_output output st =
  (st,
   if negb (f =? 0)%N then
     Zabbix.Raised (Zabbix.ZabbixSenderException
       (Zabbix.FailedItems f (Zabbix.last_command (Zabbix.sender st))))
   else if negb (p =? t)%N then
     Zabbix.Raised (Zabbix.ZabbixSenderException (Zabbix.Mismatching p t))
   else Zabbix.Return tt).
Proof.
  intros Hp Hf Ht.
  unfold Zabbix._parse_output, Zabbix.r_processed, Zabbix.r_failed,
    Zabbix.r_total.
  rewrite (first_report_count _ _ _ Hp), (first_report_count _ _ _ Hf),
    (first_report_count _ _ _ Ht).
  unfold Zabbix.bind, Zabbix.ret, Zabbix.raise.
  destruct (negb (f =? 0)%N); [reflexivity|].
  destruct (negb (p =? t)%N); reflexivity.
Qed.

Lemma parse_output_verdict_witness :
  Zabbix._parse_output
    (py "Response from 127.0.0.1:10051: processed: 1; failed: 1; total: 2; seconds spent: 0.000055")
    Zabbix.start =
  (Zabbix.start,
   if negb (1 =? 0)%N then
     Zabbix.Raised (Zabbix.ZabbixSenderException
       (Zabbix.FailedItems 1
          (Zabbix.last_command (Zabbix.sender Zabbix.start))))
   else if negb (1 =? 2)%N then
     Zabbix.Raised (Zabbix.ZabbixSenderException (Zabbix.Mismatching 1 2))
   else Zabbix.Return tt).
Proof.
  apply (parse_output_verdict
           (py "Response from 127.0.0.1:10051: processed: 1; failed: 1; total: 2; seconds spent: 0.000055")
           1 1 2 Zabbix.start).
  - exists (py "Response from 127.0.0.1:10051: "), (py "1"),
      (py " failed: 1; total: 2; seconds spent: 0.000055").
    repeat split; try reflexivity. discriminate.
  - exists (py "Response from 127.0.0.1:10051: processed: 1; "), (py "1"),
      (py " total: 2; seconds spent: 0.000055").
    repeat split; try reflexivity. discriminate.
  - exists (py "Response from 127.0.0.1:10051: processed: 1; failed: 1; "),
      (py "2"), (py " seconds spent: 0.000055").
    repeat split; try reflexivity. discriminate.
Defined.

(** X16: when one of [processed: ], [failed: ] and [total: ] does not
    occur in the output, [_parse_output] raises [AttributeError], not
    [ZabbixSenderException], whatever the other counts are. *)
Theorem parse_output_missing_count (output : str) (st : Zabbix.state) :
  contains (py "processed: ") output = false \/
  contains (py "failed: ") output = false \/
  contains (py "total: ") output = false ->
  Zabbix._parse_output output st
  = (st, Zabbix.Raised (Zabbix.Other AttributeError)).
Proof.
  intros H.
  unfold Zabbix._parse_output, Zabbix.r_processed, Zabbix.r_failed,
    Zabbix.r_total.
  destruct (count_cases (py "processed: ") output) as [[p [-> Rp]]| ->];
    [|reflexivity].
  destruct (count_cases (py "failed: ") output) as [[f [-> Rf]]| ->];
    [|reflexivity].
  destruct (count_cases (py "total: ") output) as [[t [-> Rt]]| ->];
    [|reflexivity].
  apply reports_contains in Rp, Rf, Rt.
  destruct H as [H|[H|H]]; congruence.
Qed.

Lemma parse_output_missing_count_witness :
  Zabbix._parse_output (py "processed: 1; total: 1;") Zabbix.start
  = (Zabbix.start, Zabbix.Raised (Zabbix.Other AttributeError)).
Proof.
  apply (parse_output_missing_count (py "processed: 1; total: 1;")
           Zabbix.start).
  right. left. reflexivity.
Defined.

(** ** One item *)

Section ScriptProperties.

Variable Popen :
  list (list str) -> list str -> option (Z * Zabbix.bytes * Zabbix.bytes).
Variable decode : Zabbix.bytes -> option str.
Variable get : option str -> result Response.
Variable dumps : list (dict str) -> str.
Variable str_of : json -> str.

Lemma execute_sender_state (arguments : list str) (st : Zabbix.state) :
  exists r,
    Zabbix._execute_sender Popen decode arguments false st =
    (ZabbixSpec.after_command st
       ([Zabbix.sender_path (Zabbix.sender st); py "-c";
         Zabbix.config_path (Zabbix.sender st)] ++ arguments), r) /\
    (forall f c,
       r <> Zabbix.Raised (Zabbix.ZabbixSenderException
                             (Zabbix.FailedItems f c))) /\
    (forall output,
       r = Zabbix.Return output ->
       exists out,
         Popen (Zabbix.commands st)
               ([Zabbix.sender_path (Zabbix.sender st); py "-c";
                 Zabbix.config_path (Zabbix.sender st)] ++ arguments)
         = Some (Z0, out, []) /\
         decode out = Some output).
Proof.
  unfold Zabbix._execute_sender, Zabbix.bind, Zabbix.set_last_command,
    Zabbix.communicate, ZabbixSpec.after_command.
  cbn [Zabbix.sender Zabbix.commands Zabbix.stdout Zabbix.sender_path
       Zabbix.config_path app negb andb].
  destruct (Popen _ _) as [[[rc out] err]|];
    [|eexists; split; [reflexivity|split; discriminate]].
  unfold Zabbix.decode_utf8, Zabbix.raise, Zabbix.ret.
  destruct rc; [destruct err|..]; cbn [negb];
    repeat match goal with
           | |- context [decode ?b] => destruct (decode b) eqn:?
           end;
    eexists; (split; [reflexivity|split; [discriminate|]]);
    try discriminate.
  intros output [= <-]. now exists out.
Qed.

Lemma send_item_run (name : str) (value : json) (st : Zabbix.state) :
  let command :=
    ZabbixSpec.command_of (Zabbix.sender st) name
                          (Zabbix.percent_s str_of value) in
  exists r,
    Zabbix.send_item Popen decode str_of name value st =
    (ZabbixSpec.after_command st command, r) /\
    (forall line, r = Zabbix.Return line ->
                  line = name ++ py ": " ++ Zabbix.percent_s str_of value) /\
    (forall f c,
       r = Zabbix.Raised (Zabbix.ZabbixSenderException
                            (Zabbix.FailedItems f c)) ->
       c = Some command) /\
    (forall line,
       r = Zabbix.Return line ->
       exists out output n,
         Popen (Zabbix.commands st) command = Some (Z0, out, []) /\
         decode out = Some output /\
         ZabbixSpec.reports (py "processed: ") n output /\
         ZabbixSpec.reports (py "failed: ") 0 output /\
         ZabbixSpec.reports (py "total: ") n output).
Proof.
  intros command. unfold Zabbix.send_item.
  destruct (execute_sender_state
              [py "-k"; name; py "-o"; Zabbix.percent_s str_of value] st)
    as [r [E [NF P]]].
  unfold Zabbix.bind at 1. rewrite E.
  destruct r as [output|e].
  - unfold Zabbix.bind.
    destruct (parse_output_cases output
                (ZabbixSpec.after_command st
                   ([Zabbix.sender_path (Zabbix.sender st); py "-c";
                     Zabbix.config_path (Zabbix.sender st)]
                    ++ [py "-k"; name; py "-o";
                        Zabbix.percent_s str_of value])))
      as [r' [E' F]].
    rewrite E'. destruct r' as [[]|e].
    + eexists. split; [reflexivity|]. split; [now intros line [= <-]|].
      split; [discriminate|]. intros line _.
      destruct (P output eq_refl) as [out [Po D]].
      destruct F as [n F]. now exists out, output, n.
    + eexists. split; [reflexivity|]. split; [discriminate|].
      split; [|discriminate].
      intros f c [= ->]. now destruct F as [-> _].
  - eexists. split; [reflexivity|]. split; [discriminate|].
    split; [|discriminate].
    intros f c H. now destruct (NF f c).
Qed.

(** ** The items of the softwares, and [main] *)

Lemma after_command_command_of (st : Zabbix.state) (command : list str)
    (name value : str) :
  ZabbixSpec.command_of
    (Zabbix.sender (ZabbixSpec.after_command st command)) name value
  = ZabbixSpec.command_of (Zabbix.sender st) name value.
Proof. reflexivity. Qed.

Lemma send_versions_run (response_data : list (str * json)) :
  forall st,
  exists st' r k sent,
    Zabbix.send_versions Popen decode str_of response_data st = (st', r) /\
    Zabbix.sender_path (Zabbix.sender st')
    = Zabbix.sender_path (Zabbix.sender st) /\
    Zabbix.config_path (Zabbix.sender st')
    = Zabbix.config_path (Zabbix.sender st) /\
    Zabbix.commands st' =
    Zabbix.commands st
    ++ map (ZabbixSpec.item_command str_of (Zabbix.sender st))
           (firstn k response_data) /\
    Zabbix.stdout st' =
    Zabbix.stdout st ++ map (ZabbixSpec.item_line str_of) sent /\
    incl sent (firstn k response_data) /\
    ~ ZabbixSpec.is_ZabbixSenderException r /\
    (r = Zabbix.Return tt -> k = length response_data).
Proof.
  induction response_data as [|[name value] rest IH]; intros st.
  - exists st, (Zabbix.Return tt), 0, []. cbn [Zabbix.send_versions firstn map].
    rewrite !app_nil_r. repeat split; auto. intros x [].
  - cbn [Zabbix.send_versions].
    destruct (send_item_run (Zabbix.item_name name)
                value st) as [r1 [E [L _]]]; cbv zeta in E.
    unfold Zabbix.bind. rewrite E.
    set (cmd := ZabbixSpec.command_of (Zabbix.sender st)
                  (Zabbix.item_name name) (Zabbix.percent_s str_of value))
      in *.
    assert (forall st1,
               Zabbix.sender_path (Zabbix.sender st1)
               = Zabbix.sender_path (Zabbix.sender st) ->
               Zabbix.config_path (Zabbix.sender st1)
               = Zabbix.config_path (Zabbix.sender st) ->
               map (ZabbixSpec.item_command str_of (Zabbix.sender st1)) =
               map (ZabbixSpec.item_command str_of (Zabbix.sender st)))
      as Same.
    { intros st1 P C. unfold ZabbixSpec.item_command, ZabbixSpec.command_of.
      now rewrite P, C. }
    destruct r1 as [line|e].
    + unfold Zabbix.print.
      cbn [Zabbix.sender Zabbix.commands Zabbix.stdout
           ZabbixSpec.after_command].
      match goal with
      | |- context [Zabbix.send_versions _ _ _ rest ?s] =>
          destruct (IH s) as [st' [r [k [sent [R [P [C [Cm [O [I [NZ K]]]]]]]]]]]
      end.
      cbn [Zabbix.sender Zabbix.commands Zabbix.stdout Zabbix.sender_path
           Zabbix.config_path] in *.
      exists st', r, (S k), ((name, value) :: sent).
      repeat split; try assumption.
      * rewrite Cm, <- app_assoc. reflexivity.
      * rewrite O, <- app_assoc. cbn [map app]. f_equal. f_equal.
        unfold ZabbixSpec.item_line. cbn [fst snd]. now apply L.
      * cbn [firstn]. intros x [<-|Hx]; [now left|right; now apply I].
      * intros H. cbn [length]. now rewrite (K H).
    + assert (exists st' r k sent,
                 Zabbix.send_versions Popen decode str_of rest
                   (ZabbixSpec.after_command st cmd) = (st', r) /\
                 Zabbix.sender_path (Zabbix.sender st')
                 = Zabbix.sender_path (Zabbix.sender st) /\
                 Zabbix.config_path (Zabbix.sender st')
                 = Zabbix.config_path (Zabbix.sender st) /\
                 Zabbix.commands st' =
                 Zabbix.commands st
                 ++ map (ZabbixSpec.item_command str_of (Zabbix.sender st))
                        (firstn (S k) ((name, value) :: rest)) /\
                 Zabbix.stdout st' =
                 Zabbix.stdout st ++ map (ZabbixSpec.item_line str_of) sent /\
                 incl sent (firstn (S k) ((name, value) :: rest)) /\
                 ~ ZabbixSpec.is_ZabbixSenderException r /\
                 (r = Zabbix.Return tt -> S k = length ((name, value) :: rest)))
        as Go.
      { destruct (IH (ZabbixSpec.after_command st cmd))
          as [st' [r [k [sent [R [P [C [Cm [O [I [NZ K]]]]]]]]]]].
        cbn [Zabbix.sender Zabbix.commands Zabbix.stdout Zabbix.sender_path
             Zabbix.config_path ZabbixSpec.after_command] in *.
        exists st', r, k, sent. repeat split; try assumption.
        - rewrite Cm, <- app_assoc. cbn [firstn map app]. reflexivity.
        - cbn [firstn]. intros x Hx. right. now apply I.
        - intros H. cbn [length]. now rewrite (K H). }
      destruct e as [reason| | | |e];
        [destruct Go as [st' [r [k [sent G]]]];
         now exists st', r, (S k), sent|..];
        (match goal with
         | |- exists st' r k sent, (?s, ?r0) = _ /\ _ => exists s, r0, 1, []
         end;
         cbn [Zabbix.sender Zabbix.commands Zabbix.stdout
              Zabbix.sender_path Zabbix.config_path
              ZabbixSpec.after_command firstn map
              ZabbixSpec.is_ZabbixSenderException];
         rewrite app_nil_r;
         split; [reflexivity|]; split; [reflexivity|];
         split; [reflexivity|]; split; [reflexivity|];
         split; [reflexivity|]; split; [intros x []|];
         split; [tauto|discriminate]).
Qed.

Lemma bind_lift {A B : Type} (r : result A) (k : A -> Zabbix.M B)
    (st : Zabbix.state) :
  Zabbix.bind (Zabbix.lift r) k st =
  match r with
  | Ok a => k a st
  | Raise e => (st, Zabbix.Raised (Zabbix.Other e))
  end.
Proof. destruct r; reflexivity. Qed.

Lemma main_run (API_URL : option str) (st : Zabbix.state) :
  match ZabbixSpec.answer get API_URL with
  | Raise e =>
      Zabbix.main Popen decode get dumps str_of API_URL st
      = (st, Zabbix.Raised (Zabbix.Other e))
  | Ok response_data =>
      let command :=
        ZabbixSpec.discovery_command dumps (Zabbix.sender st) response_data in
      let st1 := ZabbixSpec.after_command st command in
      exists r,
        Zabbix.send_item Popen decode str_of (py "software_versions.discovery")
          (JString (dumps (Zabbix.discovery response_data))) st = (st1, r) /\
        match r with
        | Zabbix.Raised e =>
            Zabbix.main Popen decode get dumps str_of API_URL st
            = (st1, Zabbix.Raised e)
        | Zabbix.Return _ =>
            Zabbix.main Popen decode get dumps str_of API_URL st
            = Zabbix.send_versions Popen decode str_of response_data
                (Zabbix.mkState (Zabbix.sender st1) (Zabbix.commands st1)
                   (Zabbix.stdout st
                    ++ [ZabbixSpec.discovery_line dumps response_data]))
        end
  end.
Proof.
  unfold ZabbixSpec.answer, Zabbix.main. rewrite bind_lift.
  destruct (get API_URL) as [response|e]; cbn [bind]; [|reflexivity].
  rewrite bind_lift. unfold raise_for_status.
  destruct (status_ok response); cbn [bind]; [|reflexivity].
  rewrite bind_lift.
  destruct (json_body response) as [j|e]; cbn [bind]; [|reflexivity].
  rewrite bind_lift.
  destruct (items j) as [response_data|e]; [|reflexivity].
  cbv zeta.
  destruct (send_item_run
              (py "software_versions.discovery")
              (JString (dumps (Zabbix.discovery response_data))) st)
    as [r [E [L _]]].
  cbv zeta in E. exists r. split; [exact E|].
  unfold Zabbix.bind. rewrite E. destruct r as [line|e]; [|reflexivity].
  unfold Zabbix.print. cbn [Zabbix.stdout ZabbixSpec.after_command].
  rewrite (L line eq_refl). reflexivity.
Qed.

(** X17: [send_item] runs exactly one command, the sender with [-c], the
    configuration, [-k], the name, [-o] and the value as ['%s'] prints
    it; this command becomes [last_command], nothing is printed, the
    string returned is the name, a colon and the value, and a
    [ZabbixSenderException] about failed items names this command. *)
Theorem send_item_effect (name : str) (value : json)
    (st st' : Zabbix.state) (r : Zabbix.outcome str) :
  Zabbix.send_item Popen decode str_of name value st = (st', r) ->
  let command :=
    [Zabbix.sender_path (Zabbix.sender st); py "-c";
     Zabbix.config_path (Zabbix.sender st); py "-k"; name; py "-o";
     Zabbix.percent_s str_of value] in
  Zabbix.commands st' = Zabbix.commands st ++ [command] /\
  Zabbix.last_command (Zabbix.sender st') = Some command /\
  Zabbix.stdout st' = Zabbix.stdout st /\
  (forall line, r = Zabbix.Return line ->
                line = name ++ py ": " ++ Zabbix.percent_s str_of value) /\
  (forall f c,
     r = Zabbix.Raised (Zabbix.ZabbixSenderException
                          (Zabbix.FailedItems f c)) ->
     c = Some command).
Proof.
  intros H command.
  destruct (send_item_run name value st)
    as [r0 [E [L [F _]]]].
  cbv zeta in E, F. rewrite E in H. injection H as <- <-.
  repeat split; assumption.
Qed.

(** X18: [send_item] returns only when the sender ended with return
    code 0, wrote nothing to its standard error, and its standard output
    could be decoded and says that nothing failed and that every item was
    processed. *)
Theorem send_item_returns (name : str) (value : json)
    (st st' : Zabbix.state) (line : str) :
  Zabbix.send_item Popen decode str_of name value st
  = (st', Zabbix.Return line) ->
  exists out output n,
    Popen (Zabbix.commands st)
          (ZabbixSpec.command_of (Zabbix.sender st) name
                                 (Zabbix.percent_s str_of value))
    = Some (Z0, out, []) /\
    decode out = Some output /\
    ZabbixSpec.reports (py "processed: ") n output /\
    ZabbixSpec.reports (py "failed: ") 0 output /\
    ZabbixSpec.reports (py "total: ") n output.
Proof.
  intros H.
  destruct (send_item_run name value st)
    as [r0 [E [_ [_ R]]]].
  cbv zeta in E, R. rewrite E in H. injection H as _ ->.
  now apply (R line).
Qed.


(** X20: when [main] returns, it has run the command of the discovery
    item, whose value lists the names of the mapping, and after it the
    command of every item of the mapping, in the order of the mapping;
    it has printed the line of the discovery item and after it lines of
    items of the mapping only. *)
Theorem main_returns (API_URL : option str) (st st' : Zabbix.state) :
  Zabbix.main Popen decode get dumps str_of API_URL st
  = (st', Zabbix.Return tt) ->
  exists response_data sent,
    ZabbixSpec.answer get API_URL = Ok response_data /\
    Zabbix.commands st' =
    Zabbix.commands st
    ++ ZabbixSpec.discovery_command dumps (Zabbix.sender st) response_data
       :: map (ZabbixSpec.item_command str_of (Zabbix.sender st))
              response_data /\
    Zabbix.stdout st' =
    Zabbix.stdout st
    ++ ZabbixSpec.discovery_line dumps response_data
       :: map (ZabbixSpec.item_line str_of) sent /\
    incl sent response_data.
Proof.
  intros H. pose proof (main_run API_URL st) as R.
  destruct (ZabbixSpec.answer get API_URL) as [response_data|e];
    [|congruence].
  cbv zeta in R. destruct R as [r [_ R]].
  destruct r as [line|e]; [|congruence].
  rewrite R in H. clear R.
  match type of H with
  | Zabbix.send_versions _ _ _ _ ?s = _ =>
      destruct (send_versions_run response_data s)
        as [st2 [r [k [sent [E [_ [_ [C [O [I [_ K]]]]]]]]]]]
  end.
  rewrite E in H. injection H as <- ->.
  rewrite (K eq_refl), firstn_all in C, I.
  cbn [Zabbix.commands Zabbix.stdout Zabbix.sender
       ZabbixSpec.after_command] in C, O.
  exists response_data, sent. split; [reflexivity|].
  split; [|split; [|assumption]].
  - rewrite C, <- app_assoc. reflexivity.
  - rewrite O, <- app_assoc. reflexivity.
Qed.

(** X21: a [ZabbixSenderException] leaves [main] only from the discovery
    item: then the command of the discovery item is the only command
    that was run, no item of a software was sent and nothing was
    printed. *)
Theorem main_zabbix_exception (API_URL : option str)
    (st st' : Zabbix.state) (reason : Zabbix.reason) :
  Zabbix.main Popen decode get dumps str_of API_URL st
  = (st', Zabbix.Raised (Zabbix.ZabbixSenderException reason)) ->
  exists response_data,
    ZabbixSpec.answer get API_URL = Ok response_data /\
    Zabbix.commands st' =
    Zabbix.commands st
    ++ [ZabbixSpec.discovery_command dumps (Zabbix.sender st) response_data]
    /\
    Zabbix.stdout st' = Zabbix.stdout st.
Proof.
  intros H. pose proof (main_run API_URL st) as R.
  destruct (ZabbixSpec.answer get API_URL) as [response_data|e];
    [|congruence].
  cbv zeta in R. destruct R as [r [_ R]].
  exists response_data. split; [reflexivity|].
  destruct r as [line|e].
  - exfalso. rewrite R in H. clear R.
    match type of H with
    | Zabbix.send_versions _ _ _ _ ?s = _ =>
        destruct (send_versions_run response_data s)
          as [st2 [r [k [sent [E [_ [_ [_ [_ [_ [NZ _]]]]]]]]]]]
    end.
    rewrite E in H. injection H as _ ->. now apply NZ.
  - rewrite R in H. injection H as <- _. now split.
Qed.

(** X22: when the request to the API raises, answers with an error
    status, has a body that is no JSON or a body that is no JSON object,
    [main] raises that exception: no command is run and nothing is
    printed. *)
Theorem main_fetch_failure (API_URL : option str) (st : Zabbix.state)
    (e : exn) :
  ZabbixSpec.answer get API_URL = Raise e ->
  Zabbix.main Popen decode get dumps str_of API_URL st
  = (st, Zabbix.Raised (Zabbix.Other e)).
Proof.
  intros H. pose proof (main_run API_URL st) as R.
  now rewrite H in R.
Qed.

(** X23: a software whose version the API gives as null is sent to
    Zabbix with the text [None] as its value: when [main] returns, the
    command with [-o None] for that software is among the commands that
    were run. *)
Theorem null_sent_as_None (API_URL : option str) (st st' : Zabbix.state)
    (response_data : list (str * json)) (software_name : str) :
  Zabbix.main Popen decode get dumps str_of API_URL st
  = (st', Zabbix.Return tt) ->
  ZabbixSpec.answer get API_URL = Ok response_data ->
  In (software_name, JNull) response_data ->
  In [Zabbix.sender_path (Zabbix.sender st); py "-c";
      Zabbix.config_path (Zabbix.sender st); py "-k";
      py "software_versions.most_recent_version[" ++ software_name
      ++ py "]";
      py "-o"; py "None"]
     (Zabbix.commands st').
Proof.
  intros H A I. pose proof (main_run API_URL st) as R.
  rewrite A in R. cbv zeta in R. destruct R as [r [_ R]].
  destruct r as [line|e]; [|congruence].
  rewrite R in H. clear R.
  match type of H with
  | Zabbix.send_versions _ _ _ _ ?s = _ =>
      destruct (send_versions_run response_data s)
        as [st2 [r [k [sent [E [_ [_ [C [_ [_ [_ K]]]]]]]]]]]
  end.
  rewrite E in H. injection H as <- ->.
  rewrite (K eq_refl), firstn_all in C. rewrite C.
  apply in_or_app. right.
  apply (in_map (ZabbixSpec.item_command str_of (Zabbix.sender st))) in I.
  exact I.
Qed.

End ScriptProperties.

Lemma send_item_effect_witness :
  let run :=
    Zabbix.send_item ZabbixSpec.accepting_Popen ZabbixSpec.ascii_decode
      ZabbixSpec.sample_str_of (Zabbix.item_name (py "humhub")) JNull
      Zabbix.start in
  let command :=
    [py "/usr/bin/zabbix_sender"; py "-c";
     py "/etc/zabbix/zabbix_agentd.conf"; py "-k";
     py "software_versions.most_recent_version[humhub]"; py "-o";
     py "None"] in
  Zabbix.commands (fst run) = Zabbix.commands Zabbix.start ++ [command] /\
  Zabbix.last_command (Zabbix.sender (fst run)) = Some command /\
  Zabbix.stdout (fst run) = Zabbix.stdout Zabbix.start /\
  (forall line, snd run = Zabbix.Return line ->
                line = Zabbix.item_name (py "humhub") ++ py ": "
                       ++ py "None") /\
  (forall f c,
     snd run = Zabbix.Raised (Zabbix.ZabbixSenderException
                                (Zabbix.FailedItems f c)) ->
     c = Some command).
Proof.
  cbv zeta.
  apply (send_item_effect ZabbixSpec.accepting_Popen ZabbixSpec.ascii_decode
           ZabbixSpec.sample_str_of (Zabbix.item_name (py "humhub")) JNull
           Zabbix.start).
  apply surjective_pairing.
Defined.

Lemma main_returns_witness :
  let st' :=
    fst (Zabbix.main ZabbixSpec.accepting_Popen ZabbixSpec.ascii_decode
           ZabbixSpec.sample_get ZabbixSpec.sample_dumps
           ZabbixSpec.sample_str_of (Some (py "http://localhost/"))
           Zabbix.start) in
  exists response_data sent,
    ZabbixSpec.answer ZabbixSpec.sample_get (Some (py "http://localhost/"))
    = Ok response_data /\
    Zabbix.commands st' =
    Zabbix.commands Zabbix.start
    ++ ZabbixSpec.discovery_command ZabbixSpec.sample_dumps
         (Zabbix.sender Zabbix.start) response_data
       :: map (ZabbixSpec.item_command ZabbixSpec.sample_str_of
                 (Zabbix.sender Zabbix.start))
              response_data /\
    Zabbix.stdout st' =
    Zabbix.stdout Zabbix.start
    ++ ZabbixSpec.discovery_line ZabbixSpec.sample_dumps response_data
       :: map (ZabbixSpec.item_line ZabbixSpec.sample_str_of) sent /\
    incl sent response_data.
Proof.
  cbv zeta.
  apply (main_returns ZabbixSpec.accepting_Popen ZabbixSpec.ascii_decode
           ZabbixSpec.sample_get ZabbixSpec.sample_dumps
           ZabbixSpec.sample_str_of (Some (py "http://localhost/"))
           Zabbix.start).
  vm_compute. reflexivity.
Defined.

Lemma main_zabbix_exception_witness :
  let st' :=
    fst (Zabbix.main ZabbixSpec.failing_Popen ZabbixSpec.ascii_decode
           ZabbixSpec.sample_get ZabbixSpec.sample_dumps
           ZabbixSpec.sample_str_of (Some (py "http://localhost/"))
           Zabbix.start) in
  exists response_data,
    ZabbixSpec.answer ZabbixSpec.sample_get (Some (py "http://localhost/"))
    = Ok response_data /\
    Zabbix.commands st' =
    Zabbix.commands Zabbix.start
    ++ [ZabbixSpec.discovery_command ZabbixSpec.sample_dumps
          (Zabbix.sender Zabbix.start) response_data] /\
    Zabbix.stdout st' = Zabbix.stdout Zabbix.start.
Proof.
  cbv zeta.
  apply (main_zabbix_exception ZabbixSpec.failing_Popen
           ZabbixSpec.ascii_decode ZabbixSpec.sample_get
           ZabbixSpec.sample_dumps ZabbixSpec.sample_str_of
           (Some (py "http://localhost/")) Zabbix.start _
           (Zabbix.Returncode (Zpos 1))).
  vm_compute. reflexivity.
Defined.

Lemma main_fetch_failure_witness :
  Zabbix.main ZabbixSpec.accepting_Popen ZabbixSpec.ascii_decode
    (fun _ => Raise ConnectionError) ZabbixSpec.sample_dumps
    ZabbixSpec.sample_str_of None Zabbix.start
  = (Zabbix.start, Zabbix.Raised (Zabbix.Other ConnectionError)).
Proof.
  apply (main_fetch_failure ZabbixSpec.accepting_Popen ZabbixSpec.ascii_decode
           (fun _ => Raise ConnectionError) ZabbixSpec.sample_dumps
           ZabbixSpec.sample_str_of None Zabbix.start ConnectionError).
  reflexivity.
Defined.

Lemma null_sent_as_None_witness :
  In [py "/usr/bin/zabbix_sender"; py "-c";
      py "/etc/zabbix/zabbix_agentd.conf"; py "-k";
      py "software_versions.most_recent_version[" ++ py "humhub" ++ py "]";
      py "-o"; py "None"]
     (Zabbix.commands
        (fst (Zabbix.main ZabbixSpec.accepting_Popen ZabbixSpec.ascii_decode
                ZabbixSpec.sample_get ZabbixSpec.sample_dumps
                ZabbixSpec.sample_str_of (Some (py "http://localhost/"))
                Zabbix.start))).
Proof.
  apply (null_sent_as_None ZabbixSpec.accepting_Popen ZabbixSpec.ascii_decode
           ZabbixSpec.sample_get ZabbixSpec.sample_dumps
           ZabbixSpec.sample_str_of (Some (py "http://localhost/"))
           Zabbix.start _
           [(py "wordpress", JString (py "6.2")); (py "humhub", JNull)]
           (py "humhub")).
  - vm_compute. reflexivity.
  - reflexivity.
  - right. left. reflexivity.
Defined.

Lemma send_item_returns_witness :
  exists out output n,
    ZabbixSpec.accepting_Popen (Zabbix.commands Zabbix.start)
      (ZabbixSpec.command_of (Zabbix.sender Zabbix.start)
         (Zabbix.item_name (py "humhub"))
         (Zabbix.percent_s ZabbixSpec.sample_str_of (JString (py "1.15"))))
    = Some (Z0, out, []) /\
    ZabbixSpec.ascii_decode out = Some output /\
    ZabbixSpec.reports (py "processed: ") n output /\
    ZabbixSpec.reports (py "failed: ") 0 output /\
    ZabbixSpec.reports (py "total: ") n output.
Proof.
  eapply (send_item_returns ZabbixSpec.accepting_Popen
            ZabbixSpec.ascii_decode ZabbixSpec.sample_str_of
            (Zabbix.item_name (py "humhub")) (JString (py "1.15"))
            Zabbix.start).
  vm_compute. reflexivity.
Defined.

(** ** The discovery item *)

Lemma str_le_total (x y : str) :
  str_compare x y = Gt -> str_compare y x <> Gt.
Proof.
  intros H. rewrite (ord_opp _ str_compare_order x y), H. discriminate.
Qed.

Lemma str_le_antisym (x y : str) :
  str_compare x y <> Gt -> str_compare y x <> Gt -> x = y.
Proof.
  intros H1 H2. apply (ord_eq _ str_compare_order).
  rewrite (ord_opp _ str_compare_order x y) in H2.
  destruct (str_compare x y); cbn in *; congruence.
Qed.

Lemma insert_cons (x y : str) (l : list str) :
  Zabbix.insert x (y :: l) =
  match str_compare x y with
  | Gt => y :: Zabbix.insert x l
  | _ => x :: y :: l
  end.
Proof. reflexivity. Qed.

Lemma insert_le (x y : str) (l : list str) :
  str_compare x y <> Gt -> Zabbix.insert x (y :: l) = x :: y :: l.
Proof. rewrite insert_cons. destruct (str_compare x y); congruence. Qed.

Lemma insert_gt (x y : str) (l : list str) :
  str_compare x y = Gt -> Zabbix.insert x (y :: l) = y :: Zabbix.insert x l.
Proof. rewrite insert_cons. now intros ->. Qed.

Lemma insert_comm (x y : str) (l : list str) :
  Zabbix.insert x (Zabbix.insert y l) = Zabbix.insert y (Zabbix.insert x l).
Proof.
  pose proof (order_le_trans str_compare str_compare_order) as T.
  assert (forall a b, str_compare a b = Gt \/ str_compare a b <> Gt) as D
    by (intros a b; destruct (str_compare a b); auto; right; discriminate).
  induction l as [|z l IH].
  - change (Zabbix.insert y []) with [y].
    change (Zabbix.insert x []) with [x].
    destruct (D x y) as [G|L], (D y x) as [G'|L'].
    + now apply str_le_total in G.
    + now rewrite (insert_gt x y), (insert_le y x) by assumption.
    + now rewrite (insert_le x y), (insert_gt y x) by assumption.
    + now rewrite (str_le_antisym x y L L').
  - destruct (D y z) as [Gy|Ly], (D x z) as [Gx|Lx].
    + rewrite (insert_gt y z), (insert_gt x z) by assumption.
      rewrite (insert_gt x z), (insert_gt y z) by assumption.
      now rewrite IH.
    + rewrite (insert_gt y z), (insert_le x z) by assumption.
      rewrite (insert_le x z) by assumption.
      assert (str_compare y x = Gt) as Gyx.
      { destruct (D y x) as [G|L]; [assumption|].
        exfalso. now apply (T y x z L Lx). }
      rewrite (insert_gt y x) by assumption.
      now rewrite (insert_gt y z) by assumption.
    + rewrite (insert_le y z), (insert_gt x z) by assumption.
      assert (str_compare x y = Gt) as Gxy.
      { destruct (D x y) as [G|L]; [assumption|].
        exfalso. now apply (T x y z L Ly). }
      rewrite (insert_gt x y) by assumption.
      rewrite (insert_gt x z) by assumption.
      now rewrite (insert_le y z) by assumption.
    + rewrite (insert_le y z), (insert_le x z) by assumption.
      destruct (D x y) as [G|L], (D y x) as [G'|L'].
      * now apply str_le_total in G.
      * rewrite (insert_gt x y) by assumption.
        rewrite (insert_le x z), (insert_le y x) by assumption.
        reflexivity.
      * rewrite (insert_le x y) by assumption.
        rewrite (insert_gt y x) by assumption.
        now rewrite (insert_le y z) by assumption.
      * now rewrite (str_le_antisym x y L L').
Qed.

Lemma sorted_permutation (l l' : list str) :
  Permutation l l' -> Zabbix.sorted l = Zabbix.sorted l'.
Proof.
  unfold Zabbix.sorted.
  induction 1 as [|x l l' P IH|x y l|l l' l'' P1 IH1 P2 IH2];
    cbn [fold_right].
  - reflexivity.
  - now rewrite IH.
  - apply insert_comm.
  - congruence.
Qed.

Lemma insert_Permutation (x : str) (l : list str) :
  Permutation (Zabbix.insert x l) (x :: l).
Proof.
  induction l as [|y l IH]; [apply Permutation_refl|].
  rewrite insert_cons. destruct (str_compare x y);
    try apply Permutation_refl.
  apply perm_trans with (y :: x :: l); [now constructor|apply perm_swap].
Qed.

Lemma sorted_Permutation (l : list str) : Permutation (Zabbix.sorted l) l.
Proof.
  induction l as [|x l IH]; [constructor|].
  unfold Zabbix.sorted in *. cbn [fold_right].
  apply perm_trans with (x :: fold_right Zabbix.insert [] l);
    [apply insert_Permutation|now constructor].
Qed.

Lemma insert_ascending (x : str) (l : list str) :
  ZabbixSpec.ascending l -> ZabbixSpec.ascending (Zabbix.insert x l).
Proof.
  pose proof (order_le_trans str_compare str_compare_order) as T.
  induction l as [|y l IH]; intros A.
  - cbn. split; [intros y []|exact I].
  - rewrite insert_cons. destruct A as [Ay Al].
    destruct (str_compare x y) eqn:C.
    + split; [|now split]. intros z [<-|Hz]; unfold ZabbixSpec.str_le.
      * congruence.
      * apply T with y; [congruence|now apply Ay].
    + split; [|now split]. intros z [<-|Hz]; unfold ZabbixSpec.str_le.
      * congruence.
      * apply T with y; [congruence|now apply Ay].
    + split; [|now apply IH]. intros z Hz.
      apply (Permutation_in _ (insert_Permutation x l)) in Hz.
      destruct Hz as [<-|Hz]; [|now apply Ay].
      now apply str_le_total.
Qed.

Lemma sorted_ascending (l : list str) : ZabbixSpec.ascending (Zabbix.sorted l).
Proof.
  induction l as [|x l IH]; [exact I|].
  unfold Zabbix.sorted in *. cbn [fold_right]. now apply insert_ascending.
Qed.

(** X24: the discovery list has one entry for each name of the mapping,
    in ascending order of the names, and it depends on the names only:
    mappings whose names are a rearrangement of each other, whatever
    their versions, give the same discovery list. *)
Theorem discovery_sorted_names (response_data : list (str * json)) :
  (exists names,
      Zabbix.discovery response_data
      = map (fun name => [(py "{#SOFTWARENAME}", name)]) names /\
      Permutation names (map fst response_data) /\
      ZabbixSpec.ascending names) /\
  forall response_data',
    Permutation (map fst response_data) (map fst response_data') ->
    Zabbix.discovery response_data' = Zabbix.discovery response_data.
Proof.
  split.
  - exists (Zabbix.sorted (map fst response_data)).
    split; [reflexivity|]. split;
      [apply sorted_Permutation|apply sorted_ascending].
  - intros d' P. unfold Zabbix.discovery.
    now rewrite (sorted_permutation _ _ P).
Qed.

Lemma discovery_sorted_names_witness :
  Zabbix.discovery [(py "wordpress", JNull); (py "humhub", JNull)]
  = Zabbix.discovery [(py "humhub", JString (py "1.15"));
                      (py "wordpress", JString (py "6.2"))].
Proof.
  apply (discovery_sorted_names
           [(py "humhub", JString (py "1.15"));
            (py "wordpress", JString (py "6.2"))]).
  apply perm_swap.
Defined.
